(** * Cloth simulator: a shallow embedding of [ClothSystem] and its properties

    The development follows [src/include/ClothSystem.h] and
    [src/src/ClothSystem.cpp].  The C++ [float] arithmetic is kept abstract
    behind the [Scalar] interface, so every general theorem holds for any
    arithmetic, IEEE-754 binary32 included; the instance [binary32]
    (round-to-nearest-even, from the Standard Library's [SpecFloat]) is used
    to run the model on concrete inputs.  The instance [exact] reads the same
    operations on the real numbers; it serves the one property that rounding
    breaks, the containment that a collision pass achieves.

    - [int] values are modelled by [Z]; signed overflow is undefined in C++
      and is left out of the model.
    - [std::vector] is a [list]; [operator[]] outside the bounds has no
      defined behaviour and is the outcome [Fail OutOfRange].
    - the [while] loop of [update] is driven by fuel, because it need not
      terminate in floating point (see [update_loop]).
    - function-local [static] variables form the record [Statics]. *)

From Stdlib Require Import ZArith List Bool Lia.
From Stdlib Require Import Floats.SpecFloat.
From Stdlib Require Import Reals Lra.
From stdpp Require Import base list.

Set Default Proof Using "Type".

(** ** Scalars: the operations the code applies to [float] *)

Class Scalar (F : Type) : Type := {
  ofZ   : Z -> F;            (* conversion [float(n)] of an [int] *)
  fadd  : F -> F -> F;
  fsub  : F -> F -> F;
  fmul  : F -> F -> F;
  fdiv  : F -> F -> F;
  fsqrt : F -> F;
  fsin  : F -> F;            (* [sin], [cos] of the C library *)
  fcos  : F -> F;
  fltb  : F -> F -> bool;    (* [a < b];  [a > b] is [fltb b a]  *)
  fleb  : F -> F -> bool     (* [a <= b]; [a >= b] is [fleb b a] *)
}.

(** A decimal literal [n/d] with [n], [d] exactly representable is the
    correctly rounded quotient: [0.7f] is [lit 7 10]. *)
Definition lit {F} `{Scalar F} (n d : Z) : F := fdiv (ofZ n) (ofZ d).

(** ** Outcomes of fallible code *)

Inductive failure : Set :=
| LengthError   (* [std::length_error] thrown by a vector constructor *)
| OutOfRange    (* [operator[]] outside the vector: undefined behaviour *)
| OutOfFuel.    (* the loop did not finish within the given fuel *)

Inductive res (A : Type) : Type :=
| Ok (a : A)
| Fail (e : failure).
Arguments Ok {A} a.
Arguments Fail {A} e.

Definition bind {A B} (m : res A) (k : A -> res B) : res B :=
  match m with
  | Ok a => k a
  | Fail e => Fail e
  end.

Notation "x <- m ;; k" := (bind m (fun x => k))
  (at level 100, m at next level, right associativity).

Fixpoint mapM {A B} (f : A -> res B) (l : list A) : res (list B) :=
  match l with
  | [] => Ok []
  | a :: l' => b <- f a ;; bs <- mapM f l' ;; Ok (b :: bs)
  end.

Fixpoint foldM {A S} (f : S -> A -> res S) (l : list A) (s : S) : res S :=
  match l with
  | [] => Ok s
  | a :: l' => s' <- f s a ;; foldM f l' s'
  end.

(** [v[i]] for reading and [v[i] = a] for writing, [i] an [int]. *)
Definition vec_at {A} (v : list A) (i : Z) : res A :=
  if (i <? 0)%Z then Fail OutOfRange
  else match v !! Z.to_nat i with
       | Some a => Ok a
       | None => Fail OutOfRange
       end.

Definition vec_set {A} (v : list A) (i : Z) (a : A) : res (list A) :=
  if (i <? 0)%Z then Fail OutOfRange
  else if (Z.to_nat i <? length v)%nat then Ok (<[Z.to_nat i := a]> v)
       else Fail OutOfRange.

(** The values [0, 1, ..., n-1] of a counting [for] loop (none if [n <= 0]). *)
Definition zrange (n : Z) : list Z := map Z.of_nat (seq 0 (Z.to_nat n)).

(** ** glm::vec3

    GLM is a library outside the repository.  Its operations are written
    the way its scalar reference implementation computes them.  The general
    theorems below use nothing about them beyond their being functions; only
    the evaluations in binary32 run them. *)

Module Vec3.
Record t {F : Type} : Type := mk { x : F; y : F; z : F }.
Arguments t : clear implicits.
Arguments mk {F} x y z.
End Vec3.
Abbreviation vec3 := Vec3.t.

Section Glm.
Context {F : Type} `{Scalar F}.

Definition splat (a : F) : vec3 F := Vec3.mk a a a.          (* vec3(a) *)
Definition vadd (a b : vec3 F) : vec3 F :=
  Vec3.mk (fadd (Vec3.x a) (Vec3.x b)) (fadd (Vec3.y a) (Vec3.y b))
          (fadd (Vec3.z a) (Vec3.z b)).
Definition vsub (a b : vec3 F) : vec3 F :=
  Vec3.mk (fsub (Vec3.x a) (Vec3.x b)) (fsub (Vec3.y a) (Vec3.y b))
          (fsub (Vec3.z a) (Vec3.z b)).
Definition vmul (a b : vec3 F) : vec3 F :=
  Vec3.mk (fmul (Vec3.x a) (Vec3.x b)) (fmul (Vec3.y a) (Vec3.y b))
          (fmul (Vec3.z a) (Vec3.z b)).
(* [v * s], [s * v] and [v / s] with a scalar [s] *)
Definition vscale (v : vec3 F) (s : F) : vec3 F :=
  Vec3.mk (fmul (Vec3.x v) s) (fmul (Vec3.y v) s) (fmul (Vec3.z v) s).
Definition sscale (s : F) (v : vec3 F) : vec3 F :=
  Vec3.mk (fmul s (Vec3.x v)) (fmul s (Vec3.y v)) (fmul s (Vec3.z v)).
Definition vdiv (v : vec3 F) (s : F) : vec3 F :=
  Vec3.mk (fdiv (Vec3.x v) s) (fdiv (Vec3.y v) s) (fdiv (Vec3.z v) s).

(* glm::dot: the component products summed left to right *)
Definition dot (a b : vec3 F) : F :=
  let t := vmul a b in fadd (fadd (Vec3.x t) (Vec3.y t)) (Vec3.z t).
(* glm::length = sqrt(dot(v, v)) *)
Definition length3 (v : vec3 F) : F := fsqrt (dot v v).
(* glm::normalize = v * inversesqrt(dot(v, v)) *)
Definition normalize (v : vec3 F) : vec3 F :=
  vscale v (fdiv (ofZ 1) (fsqrt (dot v v))).
Definition cross (a b : vec3 F) : vec3 F :=
  Vec3.mk
    (fsub (fmul (Vec3.y a) (Vec3.z b)) (fmul (Vec3.y b) (Vec3.z a)))
    (fsub (fmul (Vec3.z a) (Vec3.x b)) (fmul (Vec3.z b) (Vec3.x a)))
    (fsub (fmul (Vec3.x a) (Vec3.y b)) (fmul (Vec3.x b) (Vec3.y a))).
End Glm.

(** ** The data model of ClothSystem.h *)

Inductive SimulationMode : Set := TEAR | COLLISION | FLAG.

Module Particle.
Record t {F : Type} : Type := mk {
  position : vec3 F;
  oldPosition : vec3 F;
  velocity : vec3 F;
  force : vec3 F;
  mass : F;
  pinned : bool;
  active : bool
}.
Arguments t : clear implicits.
Arguments mk {F}.
Definition set_position {F} (v : vec3 F) (p : t F) : t F :=
  mk v (oldPosition p) (velocity p) (force p) (mass p) (pinned p) (active p).
Definition set_oldPosition {F} (v : vec3 F) (p : t F) : t F :=
  mk (position p) v (velocity p) (force p) (mass p) (pinned p) (active p).
Definition set_force {F} (v : vec3 F) (p : t F) : t F :=
  mk (position p) (oldPosition p) (velocity p) v (mass p) (pinned p) (active p).
Definition set_pinned {F} (b : bool) (p : t F) : t F :=
  mk (position p) (oldPosition p) (velocity p) (force p) (mass p) b (active p).
Definition set_active {F} (b : bool) (p : t F) : t F :=
  mk (position p) (oldPosition p) (velocity p) (force p) (mass p) (pinned p) b.
End Particle.

Inductive SpringType : Set := STRUCTURAL | SHEAR | BEND.

Module Spring.
Record t {F : Type} : Type := mk {
  particle1 : Z;
  particle2 : Z;
  restLength : F;
  stiffness : F;
  type : SpringType;
  active : bool
}.
Arguments t : clear implicits.
Arguments mk {F}.
Definition set_active {F} (b : bool) (s : t F) : t F :=
  mk (particle1 s) (particle2 s) (restLength s) (stiffness s) (type s) b.
End Spring.

Module CollisionSphere.
Record t {F : Type} : Type := mk { center : vec3 F; radius : F }.
Arguments t : clear implicits.
Arguments mk {F}.
End CollisionSphere.

(** The function-local statics of ClothSystem.cpp: [startPos], [angle] and
    [goingForward] of [updateObjectMovement] ([startPos] is initialised by
    the first call that gets past the empty check), and the generator of
    [applyWindForce].  The generator is seeded from [std::random_device]; it
    is modelled by the sequence [draws] of values that [turbulence(gen)] will
    return and the number [drawn] of values consumed so far. *)
Module Statics.
Record t {F : Type} : Type := mk {
  startPos : option (vec3 F);
  angle : F;
  goingForward : bool;
  draws : nat -> F;
  drawn : nat
}.
Arguments t : clear implicits.
Arguments mk {F}.
End Statics.

Record ClothSystem {F : Type} : Type := mkClothSystem {
  particles : list (Particle.t F);
  springs : list (Spring.t F);
  spheres : list (CollisionSphere.t F);
  gravity : F;
  damping : F;
  windStrength : F;
  tearThreshold : F;
  elapsedTime : F;
  windDirection : vec3 F;
  gridWidth : Z;
  gridHeight : Z;
  clothWidth : F;
  clothHeight : F;
  objectMoveTime : F;
  objectMoveSpeed : F;
  objectMoveRange : F;
  windVariationTime : F;
  windVariationStrength : F;
  vertices : list F;
  indices : list Z;
  statics : Statics.t F
}.
Arguments ClothSystem : clear implicits.
Arguments mkClothSystem {F}.

(** Assignments to one member of the object. *)
Definition set_particles {F} (v : list (Particle.t F)) (c : ClothSystem F) : ClothSystem F :=
  mkClothSystem v (springs c) (spheres c) (gravity c) (damping c)
    (windStrength c) (tearThreshold c) (elapsedTime c) (windDirection c)
    (gridWidth c) (gridHeight c) (clothWidth c) (clothHeight c)
    (objectMoveTime c) (objectMoveSpeed c) (objectMoveRange c)
    (windVariationTime c) (windVariationStrength c) (vertices c) (indices c)
    (statics c).
Definition set_springs {F} (v : list (Spring.t F)) (c : ClothSystem F) : ClothSystem F :=
  mkClothSystem (particles c) v (spheres c) (gravity c) (damping c)
    (windStrength c) (tearThreshold c) (elapsedTime c) (windDirection c)
    (gridWidth c) (gridHeight c) (clothWidth c) (clothHeight c)
    (objectMoveTime c) (objectMoveSpeed c) (objectMoveRange c)
    (windVariationTime c) (windVariationStrength c) (vertices c) (indices c)
    (statics c).
Definition set_spheres {F} (v : list (CollisionSphere.t F)) (c : ClothSystem F) : ClothSystem F :=
  mkClothSystem (particles c) (springs c) v (gravity c) (damping c)
    (windStrength c) (tearThreshold c) (elapsedTime c) (windDirection c)
    (gridWidth c) (gridHeight c) (clothWidth c) (clothHeight c)
    (objectMoveTime c) (objectMoveSpeed c) (objectMoveRange c)
    (windVariationTime c) (windVariationStrength c) (vertices c) (indices c)
    (statics c).
Definition set_gravity {F} (v : F) (c : ClothSystem F) : ClothSystem F :=
  mkClothSystem (particles c) (springs c) (spheres c) v (damping c)
    (windStrength c) (tearThreshold c) (elapsedTime c) (windDirection c)
    (gridWidth c) (gridHeight c) (clothWidth c) (clothHeight c)
    (objectMoveTime c) (objectMoveSpeed c) (objectMoveRange c)
    (windVariationTime c) (windVariationStrength c) (vertices c) (indices c)
    (statics c).
Definition set_damping {F} (v : F) (c : ClothSystem F) : ClothSystem F :=
  mkClothSystem (particles c) (springs c) (spheres c) (gravity c) v
    (windStrength c) (tearThreshold c) (elapsedTime c) (windDirection c)
    (gridWidth c) (gridHeight c) (clothWidth c) (clothHeight c)
    (objectMoveTime c) (objectMoveSpeed c) (objectMoveRange c)
    (windVariationTime c) (windVariationStrength c) (vertices c) (indices c)
    (statics c).
Definition set_windStrength {F} (v : F) (c : ClothSystem F) : ClothSystem F :=
  mkClothSystem (particles c) (springs c) (spheres c) (gravity c) (damping c)
    v (tearThreshold c) (elapsedTime c) (windDirection c) (gridWidth c)
    (gridHeight c) (clothWidth c) (clothHeight c) (objectMoveTime c)
    (objectMoveSpeed c) (objectMoveRange c) (windVariationTime c)
    (windVariationStrength c) (vertices c) (indices c) (statics c).
Definition set_tearThreshold {F} (v : F) (c : ClothSystem F) : ClothSystem F :=
  mkClothSystem (particles c) (springs c) (spheres c) (gravity c) (damping c)
    (windStrength c) v (elapsedTime c) (windDirection c) (gridWidth c)
    (gridHeight c) (clothWidth c) (clothHeight c) (objectMoveTime c)
    (objectMoveSpeed c) (objectMoveRange c) (windVariationTime c)
    (windVariationStrength c) (vertices c) (indices c) (statics c).
Definition set_elapsedTime {F} (v : F) (c : ClothSystem F) : ClothSystem F :=
  mkClothSystem (particles c) (springs c) (spheres c) (gravity c) (damping c)
    (windStrength c) (tearThreshold c) v (windDirection c) (gridWidth c)
    (gridHeight c) (clothWidth c) (clothHeight c) (objectMoveTime c)
    (objectMoveSpeed c) (objectMoveRange c) (windVariationTime c)
    (windVariationStrength c) (vertices c) (indices c) (statics c).
Definition set_windDirection {F} (v : vec3 F) (c : ClothSystem F) : ClothSystem F :=
  mkClothSystem (particles c) (springs c) (spheres c) (gravity c) (damping c)
    (windStrength c) (tearThreshold c) (elapsedTime c) v (gridWidth c)
    (gridHeight c) (clothWidth c) (clothHeight c) (objectMoveTime c)
    (objectMoveSpeed c) (objectMoveRange c) (windVariationTime c)
    (windVariationStrength c) (vertices c) (indices c) (statics c).
Definition set_objectMoveTime {F} (v : F) (c : ClothSystem F) : ClothSystem F :=
  mkClothSystem (particles c) (springs c) (spheres c) (gravity c) (damping c)
    (windStrength c) (tearThreshold c) (elapsedTime c) (windDirection c)
    (gridWidth c) (gridHeight c) (clothWidth c) (clothHeight c) v
    (objectMoveSpeed c) (objectMoveRange c) (windVariationTime c)
    (windVariationStrength c) (vertices c) (indices c) (statics c).
Definition set_windVariationTime {F} (v : F) (c : ClothSystem F) : ClothSystem F :=
  mkClothSystem (particles c) (springs c) (spheres c) (gravity c) (damping c)
    (windStrength c) (tearThreshold c) (elapsedTime c) (windDirection c)
    (gridWidth c) (gridHeight c) (clothWidth c) (clothHeight c)
    (objectMoveTime c) (objectMoveSpeed c) (objectMoveRange c) v
    (windVariationStrength c) (vertices c) (indices c) (statics c).
Definition set_vertices {F} (v : list F) (c : ClothSystem F) : ClothSystem F :=
  mkClothSystem (particles c) (springs c) (spheres c) (gravity c) (damping c)
    (windStrength c) (tearThreshold c) (elapsedTime c) (windDirection c)
    (gridWidth c) (gridHeight c) (clothWidth c) (clothHeight c)
    (objectMoveTime c) (objectMoveSpeed c) (objectMoveRange c)
    (windVariationTime c) (windVariationStrength c) v (indices c) (statics c).
Definition set_indices {F} (v : list Z) (c : ClothSystem F) : ClothSystem F :=
  mkClothSystem (particles c) (springs c) (spheres c) (gravity c) (damping c)
    (windStrength c) (tearThreshold c) (elapsedTime c) (windDirection c)
    (gridWidth c) (gridHeight c) (clothWidth c) (clothHeight c)
    (objectMoveTime c) (objectMoveSpeed c) (objectMoveRange c)
    (windVariationTime c) (windVariationStrength c) (vertices c) v (statics c).
Definition set_statics {F} (v : Statics.t F) (c : ClothSystem F) : ClothSystem F :=
  mkClothSystem (particles c) (springs c) (spheres c) (gravity c) (damping c)
    (windStrength c) (tearThreshold c) (elapsedTime c) (windDirection c)
    (gridWidth c) (gridHeight c) (clothWidth c) (clothHeight c)
    (objectMoveTime c) (objectMoveSpeed c) (objectMoveRange c)
    (windVariationTime c) (windVariationStrength c) (vertices c) (indices c) v.

(** ** ClothSystem.cpp *)

Section Cloth.
Context {F : Type} `{Scalar F}.

Abbreviation particle := (Particle.t F).
Abbreviation spring := (Spring.t F).
Abbreviation sphere := (CollisionSphere.t F).
Abbreviation cloth := (ClothSystem F).

(** [Particle::Particle(pos)] and [Spring::Spring(p1, p2, length, k, t)],
    with the default member initialisers of the header. *)
Definition Particle_new (pos : vec3 F) : particle :=
  Particle.mk pos pos (splat (ofZ 0)) (splat (ofZ 0)) (ofZ 1) false true.

Definition Spring_new (p1 p2 : Z) (len k : F) (t : SpringType) : spring :=
  Spring.mk p1 p2 len k t true.

(** *** createClothGrid *)

(** The cells [(y, x)] in the order of the nested loops
    [for y < rows, for x < cols]. *)
Definition grid_cells (rows cols : Z) : list (Z * Z) :=
  flat_map (fun y => map (fun x => (y, x)) (zrange cols)) (zrange rows).

(** First loop nest: the particle pushed for cell [(y, x)]. *)
Definition grid_particle (c : cloth) (yx : Z * Z) : particle :=
  let '(y, x) := yx in
  let px := fsub (fmul (fdiv (ofZ x) (ofZ (gridWidth c - 1))) (clothWidth c))
                 (fmul (clothWidth c) (lit 1 2)) in
  let py := fmul (fdiv (ofZ y) (ofZ (gridHeight c - 1))) (clothHeight c) in
  let pz := ofZ 0 in
  let p := Particle_new (Vec3.mk px py pz) in
  if (y =? gridHeight c - 1)%Z then Particle.set_pinned true p else p.

Definition grid_particles (c : cloth) : list particle :=
  map (grid_particle c) (grid_cells (gridHeight c) (gridWidth c)).

(** [springs.emplace_back(a, b, glm::length(particles[b].position -
    particles[a].position), k, t)] under the guard [g]. *)
Definition spring_if (g : bool) (ps : list particle) (a b : Z) (k : F)
    (t : SpringType) : res (list spring) :=
  if g then
    pb <- vec_at ps b ;;
    pa <- vec_at ps a ;;
    Ok [Spring_new a b
          (length3 (vsub (Particle.position pb) (Particle.position pa))) k t]
  else Ok [].

(** Second loop nest: the springs pushed for cell [(y, x)], in order. *)
Definition cell_springs (ps : list particle) (W Ht : Z) (yx : Z * Z)
    : res (list spring) :=
  let '(y, x) := yx in
  let current := (y * W + x)%Z in
  s1 <- spring_if (x <? W - 1)%Z ps current (y * W + (x + 1))%Z
          (lit 7 10) STRUCTURAL ;;
  s2 <- spring_if (y <? Ht - 1)%Z ps current ((y + 1) * W + x)%Z
          (lit 7 10) STRUCTURAL ;;
  s3 <- spring_if ((x <? W - 1)%Z && (y <? Ht - 1)%Z) ps current
          ((y + 1) * W + (x + 1))%Z (lit 3 10) SHEAR ;;
  s4 <- spring_if ((0 <? x)%Z && (y <? Ht - 1)%Z) ps current
          ((y + 1) * W + (x - 1))%Z (lit 3 10) SHEAR ;;
  s5 <- spring_if (x <? W - 2)%Z ps current (y * W + (x + 2))%Z
          (lit 15 100) BEND ;;
  s6 <- spring_if (y <? Ht - 2)%Z ps current ((y + 2) * W + x)%Z
          (lit 15 100) BEND ;;
  Ok (s1 ++ s2 ++ s3 ++ s4 ++ s5 ++ s6).

Definition grid_springs (ps : list particle) (W Ht : Z) : res (list spring) :=
  ss <- mapM (cell_springs ps W Ht) (grid_cells Ht W) ;;
  Ok (concat ss).

(** *** calculateNormal and updateVertexData *)

Definition offsets : list (Z * Z) :=
  [(1, 0); (-1, 0); (0, 1); (0, -1); (1, 1); (-1, -1); (1, -1); (-1, 1)]%Z.

(** The pairs [(offsets[i], offsets[i + 1])] for [i < offsets.size() - 1]. *)
Definition offset_pairs : list ((Z * Z) * (Z * Z)) :=
  zip offsets (tail offsets).

Definition in_grid (c : cloth) (x y : Z) : bool :=
  (0 <=? x)%Z && (x <? gridWidth c)%Z && (0 <=? y)%Z && (y <? gridHeight c)%Z.

(** One iteration of the loop of [calculateNormal] on the accumulator
    [(normal, validNeighbors)].  The offsets are small integers, so the
    [int] + [float] sums of the source are exact and are written on [Z]. *)
Definition normal_step (c : cloth) (x y : Z) (centre : particle)
    (acc : vec3 F * Z) (o : (Z * Z) * (Z * Z)) : res (vec3 F * Z) :=
  let '((ox1, oy1), (ox2, oy2)) := o in
  let x1 := (x + ox1)%Z in let y1 := (y + oy1)%Z in
  let x2 := (x + ox2)%Z in let y2 := (y + oy2)%Z in
  if in_grid c x1 y1 && in_grid c x2 y2 then
    p1 <- vec_at (particles c) (y1 * gridWidth c + x1)%Z ;;
    if Particle.active p1 then
      p2 <- vec_at (particles c) (y2 * gridWidth c + x2)%Z ;;
      if Particle.active p2 then
        let v1 := vsub (Particle.position p1) (Particle.position centre) in
        let v2 := vsub (Particle.position p2) (Particle.position centre) in
        Ok (vadd (fst acc) (cross v1 v2), (snd acc + 1)%Z)
      else Ok acc
    else Ok acc
  else Ok acc.

Definition default_normal : vec3 F := Vec3.mk (ofZ 0) (ofZ 0) (ofZ 1).

Definition calculateNormal (c : cloth) (x y : Z) : res (vec3 F) :=
  centre <- vec_at (particles c) (y * gridWidth c + x)%Z ;;
  if negb (Particle.active centre) then Ok default_normal
  else
    acc <- foldM (normal_step c x y centre) offset_pairs
             (splat (ofZ 0), 0%Z) ;;
    if (0 <? snd acc)%Z then Ok (normalize (fst acc)) else Ok default_normal.

(** The state of the first loop nest of [updateVertexData]. *)
Record mesh_acc : Type := mkMeshAcc {
  acc_vertices : list F;
  gridToVertex : list Z;
  vertexCount : Z
}.

Definition vertex_step (c : cloth) (a : mesh_acc) (yx : Z * Z)
    : res mesh_acc :=
  let '(y, x) := yx in
  let gridIndex := (y * gridWidth c + x)%Z in
  p <- vec_at (particles c) gridIndex ;;
  if negb (Particle.active p) then Ok a
  else
    g <- vec_set (gridToVertex a) gridIndex (vertexCount a) ;;
    normal <- calculateNormal c x y ;;
    Ok (mkMeshAcc
          (acc_vertices a ++
             [Vec3.x (Particle.position p); Vec3.y (Particle.position p);
              Vec3.z (Particle.position p);
              Vec3.x normal; Vec3.y normal; Vec3.z normal;
              fdiv (ofZ x) (ofZ (gridWidth c - 1));
              fdiv (ofZ y) (ofZ (gridHeight c - 1))])
          g (vertexCount a + 1)%Z).

(** The indices pushed for the quad whose top-left cell is [(y, x)]. *)
Definition quad_indices (c : cloth) (g : list Z) (yx : Z * Z)
    : res (list Z) :=
  let '(y, x) := yx in
  let topLeft := (y * gridWidth c + x)%Z in
  let topRight := (y * gridWidth c + (x + 1))%Z in
  let bottomLeft := ((y + 1) * gridWidth c + x)%Z in
  let bottomRight := ((y + 1) * gridWidth c + (x + 1))%Z in
  ptl <- vec_at (particles c) topLeft ;;
  if negb (Particle.active ptl) then Ok [] else
  ptr <- vec_at (particles c) topRight ;;
  if negb (Particle.active ptr) then Ok [] else
  pbl <- vec_at (particles c) bottomLeft ;;
  if negb (Particle.active pbl) then Ok [] else
  pbr <- vec_at (particles c) bottomRight ;;
  if negb (Particle.active pbr) then Ok [] else
  vtl <- vec_at g topLeft ;;
  if (vtl =? -1)%Z then Ok [] else
  vtr <- vec_at g topRight ;;
  if (vtr =? -1)%Z then Ok [] else
  vbl <- vec_at g bottomLeft ;;
  if (vbl =? -1)%Z then Ok [] else
  vbr <- vec_at g bottomRight ;;
  if (vbr =? -1)%Z then Ok [] else
  Ok [vtl; vbl; vtr; vtr; vbl; vbr].

(** [std::vector<int> gridToVertex(gridWidth * gridHeight, -1)]: a negative
    product converts to a size beyond [max_size()] and the constructor
    throws. *)
Definition new_gridToVertex (c : cloth) : res (list Z) :=
  let n := (gridWidth c * gridHeight c)%Z in
  if (n <? 0)%Z then Fail LengthError else Ok (replicate (Z.to_nat n) (-1)%Z).

Definition mesh (c : cloth) : res (list F * list Z) :=
  g0 <- new_gridToVertex c ;;
  a <- foldM (vertex_step c) (grid_cells (gridHeight c) (gridWidth c))
         (mkMeshAcc [] g0 0%Z) ;;
  tris <- mapM (quad_indices c (gridToVertex a))
            (grid_cells (gridHeight c - 1) (gridWidth c - 1)) ;;
  Ok (acc_vertices a, concat tris).

Definition updateVertexData (c : cloth) : res cloth :=
  m <- mesh c ;;
  Ok (set_indices (snd m) (set_vertices (fst m) c)).

Definition createClothGrid (c : cloth) : res cloth :=
  let ps := grid_particles c in
  ss <- grid_springs ps (gridWidth c) (gridHeight c) ;;
  updateVertexData (set_springs ss (set_particles ps c)).

(** The constructor: the default member initialisers, then
    [createClothGrid].  [st] is the state of the statics of the process. *)
Definition ClothSystem_new (st : Statics.t F) (width height : Z) (w h : F)
    : res cloth :=
  createClothGrid
    (mkClothSystem [] [] [] (lit (-981) 100) (lit 99 100) (ofZ 0) (ofZ 2)
       (ofZ 0) (Vec3.mk (ofZ 1) (ofZ 0) (lit 1 2)) width height w h
       (ofZ 4) (lit 8 10) (ofZ 8) (ofZ 0) (lit 3 10) [] [] st).

Definition reset (c : cloth) : res cloth := createClothGrid c.

(** *** applyForces and applyWindForce *)

(** [wind - particle.velocity] in [applyWindForce]. *)
Definition relativeVelocity (wind : vec3 F) (p : particle) : vec3 F :=
  vsub wind (Particle.velocity p).

(** [applyWindForce]; [g] is the number of values drawn from the generator
    before the call, and three more are drawn (the order of the three draws
    within the constructor call is taken left to right). *)
Definition applyWindForce (c : cloth) (g : nat) (p : particle) : particle :=
  let draw := Statics.draws (statics c) in
  let wind := vscale (windDirection c) (windStrength c) in
  let turbulenceVec :=
    Vec3.mk (fmul (draw g) (lit 3 10)) (fmul (draw (S g)) (lit 2 10))
            (fmul (draw (S (S g))) (lit 3 10)) in
  let wind := vadd wind (vscale turbulenceVec (windStrength c)) in
  let rv := relativeVelocity wind p in
  let velocityMagnitude := length3 rv in
  if fltb (ofZ 0) velocityMagnitude then
    let normalizedVelocity := vdiv rv velocityMagnitude in
    let dragCoefficient := lit 1 10 in
    let windForce :=
      vscale (vscale (vscale normalizedVelocity velocityMagnitude)
                velocityMagnitude) dragCoefficient in
    Particle.set_force
      (vadd (Particle.force p) (vscale windForce (Particle.mass p))) p
  else p.

(** The body of the loop of [applyForces] for one particle. *)
Definition applyForces_step (c : cloth) (g : nat) (p : particle)
    : particle * nat :=
  if negb (Particle.active p) || Particle.pinned p then (p, g)
  else
    let p1 :=
      Particle.set_force
        (Vec3.mk (ofZ 0) (fadd (ofZ 0) (fmul (gravity c) (Particle.mass p)))
           (ofZ 0)) p in
    if fltb (ofZ 0) (windStrength c)
    then (applyWindForce c g p1, (g + 3)%nat)
    else (p1, g).

Fixpoint applyForces_loop (c : cloth) (g : nat) (ps : list particle)
    : list particle * nat :=
  match ps with
  | [] => ([], g)
  | p :: ps' =>
      let '(p', g') := applyForces_step c g p in
      let '(ps'', g'') := applyForces_loop c g' ps' in
      (p' :: ps'', g'')
  end.

Definition set_drawn (n : nat) (st : Statics.t F) : Statics.t F :=
  Statics.mk (Statics.startPos st) (Statics.angle st)
    (Statics.goingForward st) (Statics.draws st) n.

Definition applyForces (c : cloth) : cloth :=
  let '(ps, g) :=
    applyForces_loop c (Statics.drawn (statics c)) (particles c) in
  set_statics (set_drawn g (statics c)) (set_particles ps c).

(** *** integrateVerlet *)

Definition integrate_step (c : cloth) (deltaTime : F) (p : particle)
    : particle :=
  if Particle.pinned p || negb (Particle.active p) then p
  else
    let acceleration := vdiv (Particle.force p) (Particle.mass p) in
    let newPosition :=
      vadd (vadd (Particle.position p)
              (vscale (vsub (Particle.position p) (Particle.oldPosition p))
                 (damping c)))
           (vscale (vscale acceleration deltaTime) deltaTime) in
    Particle.set_position newPosition
      (Particle.set_oldPosition (Particle.position p) p).

Definition integrateVerlet (deltaTime : F) (c : cloth) : cloth :=
  set_particles (map (integrate_step c deltaTime) (particles c)) c.

(** *** satisfyConstraints and checkTearing *)

Definition checkTearing (thr : F) (ps : list particle) (sp : spring)
    : res bool :=
  p1 <- vec_at ps (Spring.particle1 sp) ;;
  p2 <- vec_at ps (Spring.particle2 sp) ;;
  let distance :=
    length3 (vsub (Particle.position p2) (Particle.position p1)) in
  Ok (fltb (fmul (Spring.restLength sp) thr) distance).

(** The body of the loop of [satisfyConstraints] for one spring.  [p1] and
    [p2] are references into the vector: the second assignment reads the
    position that the first one has left, which matters only if both ends
    are the same particle. *)
Definition constrain (thr : F) (ps : list particle) (sp : spring)
    : res (list particle * spring) :=
  if negb (Spring.active sp) then Ok (ps, sp) else
  p1 <- vec_at ps (Spring.particle1 sp) ;;
  p2 <- vec_at ps (Spring.particle2 sp) ;;
  if negb (Particle.active p1) || negb (Particle.active p2) then Ok (ps, sp)
  else
    let delta := vsub (Particle.position p2) (Particle.position p1) in
    let distance := length3 delta in
    if fltb distance (lit 1 1000000) then Ok (ps, sp) else
    torn <- checkTearing thr ps sp ;;
    if torn then Ok (ps, Spring.set_active false sp) else
    let difference := fdiv (fsub (Spring.restLength sp) distance) distance in
    let translate := vscale (vscale delta difference) (Spring.stiffness sp) in
    let totalMass := fadd (Particle.mass p1) (Particle.mass p2) in
    let ratio1 := fdiv (Particle.mass p2) totalMass in
    let ratio2 := fdiv (Particle.mass p1) totalMass in
    ps1 <- (if Particle.pinned p1 then Ok ps
            else vec_set ps (Spring.particle1 sp)
                   (Particle.set_position
                      (vsub (Particle.position p1) (vscale translate ratio1))
                      p1)) ;;
    q2 <- vec_at ps1 (Spring.particle2 sp) ;;
    ps2 <- (if Particle.pinned q2 then Ok ps1
            else vec_set ps1 (Spring.particle2 sp)
                   (Particle.set_position
                      (vadd (Particle.position q2) (vscale translate ratio2))
                      q2)) ;;
    Ok (ps2, sp).

Fixpoint constrain_all (thr : F) (ps : list particle) (ss : list spring)
    : res (list particle * list spring) :=
  match ss with
  | [] => Ok (ps, [])
  | sp :: ss' =>
      r <- constrain thr ps sp ;;
      r' <- constrain_all thr (fst r) ss' ;;
      Ok (fst r', snd r :: snd r')
  end.

Definition satisfyConstraints (c : cloth) : res cloth :=
  r <- constrain_all (tearThreshold c) (particles c) (springs c) ;;
  Ok (set_springs (snd r) (set_particles (fst r) c)).

(** *** handleCollisions *)

Definition collide_sphere (p : particle) (s : sphere) : particle :=
  let diff := vsub (Particle.position p) (CollisionSphere.center s) in
  let distance := length3 diff in
  if fltb distance (CollisionSphere.radius s) then
    let normal :=
      if fltb (lit 1 1000000) distance then vdiv diff distance
      else Vec3.mk (ofZ 0) (ofZ 1) (ofZ 0) in
    let pos := vadd (CollisionSphere.center s)
                 (vscale normal (CollisionSphere.radius s)) in
    let velocity := vsub pos (Particle.oldPosition p) in
    let vn := dot velocity normal in
    let vNormal := sscale vn normal in
    let vTangent := vsub velocity vNormal in
    let bounce := lit 2 10 in
    let friction := lit 9 10 in
    let newVelocity := vsub (vscale vTangent friction) (vscale vNormal bounce) in
    Particle.set_oldPosition (vsub pos newVelocity)
      (Particle.set_position pos p)
  else p.

Definition collide_ground (p : particle) : particle :=
  if fltb (Vec3.y (Particle.position p)) (ofZ (-5)) then
    let pos := Vec3.mk (Vec3.x (Particle.position p)) (ofZ (-5))
                 (Vec3.z (Particle.position p)) in
    let velocity := vsub pos (Particle.oldPosition p) in
    Particle.set_oldPosition (vsub pos (vscale velocity (lit 4 10)))
      (Particle.set_position pos p)
  else p.

Definition collide (ss : list sphere) (p : particle) : particle :=
  if negb (Particle.active p) then p
  else collide_ground (fold_left collide_sphere ss p).

Definition handleCollisions (c : cloth) : cloth :=
  set_particles (map (collide (spheres c)) (particles c)) c.

(** *** updateObjectMovement and updateWindVariation *)

Definition set_center_z (zc : F) (s : sphere) : sphere :=
  CollisionSphere.mk
    (Vec3.mk (Vec3.x (CollisionSphere.center s))
       (Vec3.y (CollisionSphere.center s)) zc)
    (CollisionSphere.radius s).

(** [startPos] is initialised from [spheres[0].center] by the first call
    that gets past the empty check, and kept from then on. *)
Definition updateObjectMovement (deltaTime : F) (c : cloth) : cloth :=
  match spheres c with
  | [] => c
  | s0 :: rest =>
      let st := statics c in
      let startPos :=
        match Statics.startPos st with
        | Some v => v
        | None => CollisionSphere.center s0
        end in
      let moveTime :=
        fadd (objectMoveTime c) (fmul deltaTime (objectMoveSpeed c)) in
      let radius := fmul (objectMoveRange c) (lit 1 2) in
      if Statics.goingForward st then
        let zc := fsub (Vec3.z startPos) moveTime in
        let reached :=
          fleb zc (fsub (Vec3.z startPos) (objectMoveRange c)) in
        set_statics
          (Statics.mk (Some startPos)
             (if reached then ofZ 0 else Statics.angle st)
             (negb reached) (Statics.draws st) (Statics.drawn st))
          (set_spheres (set_center_z zc s0 :: rest)
             (set_objectMoveTime moveTime c))
      else
        let angle := fadd (Statics.angle st)
                       (fmul deltaTime (objectMoveSpeed c)) in
        let xc := fadd (Vec3.x startPos) (fmul radius (fsin angle)) in
        let zc := fadd (fsub (Vec3.z startPos) (objectMoveRange c))
                    (fmul radius (fsub (ofZ 1) (fcos angle))) in
        let back := fleb (lit 314159 100000) angle in
        set_statics
          (Statics.mk (Some startPos) angle back (Statics.draws st)
             (Statics.drawn st))
          (set_spheres
             (CollisionSphere.mk
                (if back then startPos
                 else Vec3.mk xc (Vec3.y startPos) zc)
                (CollisionSphere.radius s0) :: rest)
             (set_objectMoveTime (if back then ofZ 0 else moveTime) c))
  end.

Definition updateWindVariation (deltaTime : F) (c : cloth) : cloth :=
  if fltb (windStrength c) (ofZ 1) then c
  else
    let t := fadd (windVariationTime c) (fmul deltaTime (ofZ 3)) in
    let k := windVariationStrength c in
    let variationX := fmul (fsin (fmul t (lit 15 10))) k in
    let variationY := fmul (fmul (fsin (fmul t (lit 23 10))) k) (lit 1 2) in
    let variationZ := fmul (fmul (fcos (fmul t (lit 18 10))) k) (lit 3 10) in
    let baseWind := normalize (Vec3.mk (ofZ 0) (ofZ 0) (ofZ (-1))) in
    let variedWind :=
      vadd baseWind (Vec3.mk variationX variationY variationZ) in
    set_windDirection (normalize variedWind) (set_windVariationTime t c).

(** *** update *)

Definition fixedTimeStep : F := fdiv (ofZ 1) (ofZ 60).

(** One pass of the body of the [while] loop of [update]. *)
Definition substep (c : cloth) : res cloth :=
  let c1 := integrateVerlet fixedTimeStep (applyForces c) in
  c2 <- satisfyConstraints c1 ;;
  c3 <- satisfyConstraints c2 ;;
  c4 <- satisfyConstraints c3 ;;
  let c5 := handleCollisions c4 in
  Ok (set_elapsedTime (fsub (elapsedTime c5) fixedTimeStep) c5).

(** [while (elapsedTime >= fixedTimeStep) { ... }] with at most [fuel]
    passes.  The loop of the source does not end when the subtraction leaves
    [elapsedTime] unchanged (an infinite or very large value). *)
Fixpoint update_loop (fuel : nat) (c : cloth) : res cloth :=
  if fleb fixedTimeStep (elapsedTime c) then
    match fuel with
    | O => Fail OutOfFuel
    | S fuel' => c' <- substep c ;; update_loop fuel' c'
    end
  else Ok c.

Definition update (fuel : nat) (deltaTime : F) (c : cloth) : res cloth :=
  c1 <- update_loop fuel (set_elapsedTime (fadd (elapsedTime c) deltaTime) c) ;;
  updateVertexData (updateWindVariation deltaTime
                      (updateObjectMovement deltaTime c1)).

(** *** setMode, handleMouseInteraction and the small members *)

Definition addSphere (center : vec3 F) (radius : F) (c : cloth) : cloth :=
  set_spheres (spheres c ++ [CollisionSphere.mk center radius]) c.

Definition clearCollisionObjects (c : cloth) : cloth := set_spheres [] c.

(** [particles[i].pinned = true] *)
Definition pin (ps : list particle) (i : Z) : res (list particle) :=
  p <- vec_at ps i ;;
  vec_set ps i (Particle.set_pinned true p).

Definition pin_top_row (c : cloth) : res cloth :=
  ps <- foldM pin
          (map (fun x => ((gridHeight c - 1) * gridWidth c + x)%Z)
             (zrange (gridWidth c)))
          (particles c) ;;
  Ok (set_particles ps c).

Definition setMode (mode : SimulationMode) (c : cloth) : res cloth :=
  c0 <- reset c ;;
  match mode with
  | TEAR =>
      pin_top_row (set_windStrength (ofZ 0) (clearCollisionObjects c0))
  | COLLISION =>
      let c1 :=
        set_windStrength (ofZ 0)
          (addSphere (Vec3.mk (ofZ 0) (ofZ 1) (ofZ 6)) (lit 8 10)
             (clearCollisionObjects c0)) in
      ps1 <- pin (particles c1) ((gridHeight c1 - 1) * gridWidth c1)%Z ;;
      ps2 <- pin ps1
               ((gridHeight c1 - 1) * gridWidth c1 + (gridWidth c1 - 1))%Z ;;
      Ok (set_particles ps2 c1)
  | FLAG =>
      pin_top_row
        (set_windDirection (normalize (Vec3.mk (ofZ 0) (ofZ 0) (ofZ (-1))))
           (set_windStrength (ofZ 6) (clearCollisionObjects c0)))
  end.

Definition tearRadius : F := lit 8 100.

(** The test of [handleMouseInteraction] on one particle. *)
Definition in_tear_range (mousePos : vec3 F) (p : particle) : bool :=
  Particle.active p &&
  fltb (length3 (vsub (Particle.position p) mousePos)) tearRadius.

(** The inner loop: deactivate the springs that have [j] as an end. *)
Definition cut_springs (j : Z) (ss : list spring) : list spring :=
  map (fun sp =>
         if (Spring.particle1 sp =? j)%Z || (Spring.particle2 sp =? j)%Z
         then Spring.set_active false sp else sp) ss.

(** The body of the outer loop for the index [i < particles.size()]. *)
Definition tear_step (mousePos : vec3 F)
    (st : list particle * list spring) (i : nat)
    : list particle * list spring :=
  match fst st !! i with
  | None => st
  | Some p =>
      if in_tear_range mousePos p then
        (<[i := Particle.set_active false p]> (fst st),
         cut_springs (Z.of_nat i) (snd st))
      else st
  end.

Definition handleMouseInteraction (mousePos : vec3 F) (tearing : bool)
    (c : cloth) : cloth :=
  if negb tearing then c
  else
    let r := fold_left (tear_step mousePos) (seq 0 (length (particles c)))
               (particles c, springs c) in
    set_springs (snd r) (set_particles (fst r) c).

Definition setGravity (g : F) (c : cloth) : cloth := set_gravity g c.
Definition setDamping (d : F) (c : cloth) : cloth := set_damping d c.
Definition setWindStrength (w : F) (c : cloth) : cloth :=
  set_windStrength w c.
Definition setWindDirection (dir : vec3 F) (c : cloth) : cloth :=
  set_windDirection (normalize dir) c.
Definition setTearThreshold (t : F) (c : cloth) : cloth :=
  set_tearThreshold t c.

(** ** The public interface as a type of calls *)

(** [Update fuel dt] is [update(dt)] with the loop bounded by [fuel]. *)
Inductive call : Type :=
| Update (fuel : nat) (deltaTime : F)
| SetMode (mode : SimulationMode)
| Reset
| HandleMouseInteraction (mousePos : vec3 F) (tearing : bool)
| SetGravity (g : F)
| SetDamping (d : F)
| SetWindStrength (w : F)
| SetWindDirection (dir : vec3 F)
| SetTearThreshold (t : F)
| AddSphere (center : vec3 F) (radius : F)
| ClearCollisionObjects.

Definition exec (k : call) (c : cloth) : res cloth :=
  match k with
  | Update fuel dt => update fuel dt c
  | SetMode m => setMode m c
  | Reset => reset c
  | HandleMouseInteraction pos tearing =>
      Ok (handleMouseInteraction pos tearing c)
  | SetGravity g => Ok (setGravity g c)
  | SetDamping d => Ok (setDamping d c)
  | SetWindStrength w => Ok (setWindStrength w c)
  | SetWindDirection dir => Ok (setWindDirection dir c)
  | SetTearThreshold t => Ok (setTearThreshold t c)
  | AddSphere center radius => Ok (addSphere center radius c)
  | ClearCollisionObjects => Ok (clearCollisionObjects c)
  end.

Definition run (ks : list call) (c : cloth) : res cloth :=
  foldM (fun c k => exec k c) ks c.

(** The calls that rebuild the grid. *)
Definition rebuilds (k : call) : bool :=
  match k with
  | SetMode _ | Reset => true
  | _ => false
  end.

(** The states a program can bring a [ClothSystem] to. *)
Inductive reachable : cloth -> Prop :=
| reach_new st width height w h c :
    ClothSystem_new st width height w h = Ok c -> reachable c
| reach_call k c c' :
    reachable c -> exec k c = Ok c' -> reachable c'.

End Cloth.

(** ** Notions used in the statements *)

Section Notions.
Context {F : Type} `{Scalar F}.

(** A spring either stays as it is or loses its [active] flag. *)
Definition decays (a b : Spring.t F) : Prop :=
  b = a \/ b = Spring.set_active false a.

(** Every particle has the velocity [vec3(0.0f)] of its constructor. *)
Definition velocities_zero (ps : list (Particle.t F)) : Prop :=
  Forall (fun p => Particle.velocity p = splat (ofZ 0)) ps.

(** The grid is well formed: the dimensions are not negative and the
    particle vector has one entry per cell. *)
Definition grid_ok (c : ClothSystem F) : Prop :=
  (0 <= gridWidth c)%Z /\ (0 <= gridHeight c)%Z /\
  length (particles c) = Z.to_nat (gridWidth c * gridHeight c).

(** The row-major index of a cell. *)
Definition cell_index (W : Z) (yx : Z * Z) : Z := (fst yx * W + snd yx)%Z.

(** The number of active particles among the first [g]: the place in the
    vertex buffer of the vertex of particle [g], if it is active. *)
Definition rank (ps : list (Particle.t F)) (g : nat) : Z :=
  Z.of_nat (length (List.filter Particle.active (take g ps))).

(** The value that [gridToVertex[g]] is meant to have. *)
Definition vertex_of (ps : list (Particle.t F)) (g : nat) : Z :=
  match ps !! g with
  | Some p => if Particle.active p then rank ps g else (-1)%Z
  | None => (-1)%Z
  end.

Definition is_active (ps : list (Particle.t F)) (g : Z) : bool :=
  match ps !! Z.to_nat g with
  | Some p => Particle.active p
  | None => false
  end.

(** The triangles that the quad with top-left cell [(y, x)] is meant to
    contribute: both triangles if its four corners are active, none
    otherwise. *)
Definition quad_triangles (ps : list (Particle.t F)) (W : Z) (yx : Z * Z)
    : list Z :=
  let '(y, x) := yx in
  let topLeft := (y * W + x)%Z in
  let topRight := (y * W + (x + 1))%Z in
  let bottomLeft := ((y + 1) * W + x)%Z in
  let bottomRight := ((y + 1) * W + (x + 1))%Z in
  let v g := vertex_of ps (Z.to_nat g) in
  if is_active ps topLeft && is_active ps topRight &&
     is_active ps bottomLeft && is_active ps bottomRight
  then [v topLeft; v bottomLeft; v topRight;
        v topRight; v bottomLeft; v bottomRight]
  else [].

(** The position stored in the [k]-th vertex of the interleaved buffer
    (eight floats per vertex, the position first). *)
Definition vertex_position (vs : list F) (k : nat) : option (vec3 F) :=
  match vs !! (8 * k)%nat, vs !! (8 * k + 1)%nat, vs !! (8 * k + 2)%nat with
  | Some a, Some b, Some d => Some (Vec3.mk a b d)
  | _, _, _ => None
  end.

(** The invariant of the first loop nest of [updateVertexData] once the
    cells with indices below [m] are done; [n] is the size of
    [gridToVertex]. *)
Definition mesh_inv (ps : list (Particle.t F)) (n m : nat) (a : mesh_acc)
    : Prop :=
  vertexCount a = rank ps m /\
  length (gridToVertex a) = n /\
  (forall i, (i < n)%nat ->
     gridToVertex a !! i
     = Some (if (i <? m)%nat then vertex_of ps i else (-1)%Z)) /\
  length (acc_vertices a) = (8 * Z.to_nat (rank ps m))%nat /\
  (forall g p, (g < m)%nat -> ps !! g = Some p -> Particle.active p = true ->
     vertex_position (acc_vertices a) (Z.to_nat (rank ps g))
     = Some (Particle.position p)).

Definition SpringType_eqb (a b : SpringType) : bool :=
  match a, b with
  | STRUCTURAL, STRUCTURAL | SHEAR, SHEAR | BEND, BEND => true
  | _, _ => false
  end.

(** The number of entries of a given type in a list of types, and the
    number of springs of a given type. *)
Definition count_in (t : SpringType) (ts : list SpringType) : Z :=
  Z.of_nat (length (List.filter (SpringType_eqb t) ts)).

Definition count_type (t : SpringType) (ss : list (Spring.t F)) : Z :=
  count_in t (map Spring.type ss).

(** The closed-form sizes of a [W] by [Ht] grid. *)
Definition grid_counts (W Ht : Z) (c : ClothSystem F) : Prop :=
  Z.of_nat (length (particles c)) = (W * Ht)%Z /\
  count_type STRUCTURAL (springs c) = (Ht * (W - 1) + W * (Ht - 1))%Z /\
  count_type SHEAR (springs c) = (2 * (W - 1) * (Ht - 1))%Z /\
  count_type BEND (springs c)
  = (Ht * Z.max (W - 2) 0 + W * Z.max (Ht - 2) 0)%Z /\
  Z.of_nat (length (springs c))
  = (count_type STRUCTURAL (springs c) + count_type SHEAR (springs c)
     + count_type BEND (springs c))%Z.

(** The types of the springs pushed for one cell, from the guards alone. *)
Definition cell_types (W Ht : Z) (yx : Z * Z) : list SpringType :=
  let '(y, x) := yx in
  (if (x <? W - 1)%Z then [STRUCTURAL] else []) ++
  (if (y <? Ht - 1)%Z then [STRUCTURAL] else []) ++
  (if (x <? W - 1)%Z && (y <? Ht - 1)%Z then [SHEAR] else []) ++
  (if (0 <? x)%Z && (y <? Ht - 1)%Z then [SHEAR] else []) ++
  (if (x <? W - 2)%Z then [BEND] else []) ++
  (if (y <? Ht - 2)%Z then [BEND] else []).

Definition sumZ {A} (f : A -> Z) (l : list A) : Z :=
  fold_right (fun a s => (f a + s)%Z) 0%Z l.

Definition b2z (b : bool) : Z := if b then 1%Z else 0%Z.

(** A call is rejected when it ends in a failure instead of a state. *)
Definition rejected {A} (r : res A) : Prop := exists e, r = Fail e.

(** [handleMouseInteraction] in one step: the particles it deactivates, the
    springs with such a particle at an end, and the same restricted to the
    particles with an index below [m]. *)
Definition torn_below (mousePos : vec3 F) (ps : list (Particle.t F))
    (m : nat) (j : Z) : bool :=
  (0 <=? j)%Z && (Z.to_nat j <? m)%nat &&
  match ps !! Z.to_nat j with
  | Some p => in_tear_range mousePos p
  | None => false
  end.

Definition torn (mousePos : vec3 F) (ps : list (Particle.t F)) (j : Z)
    : bool :=
  (0 <=? j)%Z &&
  match ps !! Z.to_nat j with
  | Some p => in_tear_range mousePos p
  | None => false
  end.

Definition tear_particle (mousePos : vec3 F) (p : Particle.t F)
    : Particle.t F :=
  if in_tear_range mousePos p then Particle.set_active false p else p.

Definition tear_spring (mousePos : vec3 F) (ps : list (Particle.t F))
    (sp : Spring.t F) : Spring.t F :=
  if torn mousePos ps (Spring.particle1 sp) ||
     torn mousePos ps (Spring.particle2 sp)
  then Spring.set_active false sp else sp.

Definition tear_particles_below (mousePos : vec3 F) (m : nat)
    (ps : list (Particle.t F)) : list (Particle.t F) :=
  imap (fun i p => if (i <? m)%nat then tear_particle mousePos p else p) ps.

Definition tear_springs_below (mousePos : vec3 F) (ps : list (Particle.t F))
    (m : nat) (ss : list (Spring.t F)) : list (Spring.t F) :=
  map (fun sp =>
         if torn_below mousePos ps m (Spring.particle1 sp) ||
            torn_below mousePos ps m (Spring.particle2 sp)
         then Spring.set_active false sp else sp) ss.

(** The tests and the target of [handleCollisions] for one particle and one
    sphere, as the source computes them. *)
Definition penetrates (p : Particle.t F) (s : CollisionSphere.t F) : bool :=
  fltb (length3 (vsub (Particle.position p) (CollisionSphere.center s)))
       (CollisionSphere.radius s).

Definition contact_normal (p : Particle.t F) (s : CollisionSphere.t F)
    : vec3 F :=
  let diff := vsub (Particle.position p) (CollisionSphere.center s) in
  let distance := length3 diff in
  if fltb (lit 1 1000000) distance then vdiv diff distance
  else Vec3.mk (ofZ 0) (ofZ 1) (ofZ 0).

Definition surface_point (p : Particle.t F) (s : CollisionSphere.t F)
    : vec3 F :=
  vadd (CollisionSphere.center s)
       (vscale (contact_normal p s) (CollisionSphere.radius s)).

Definition below_ground (p : Particle.t F) : bool :=
  fltb (Vec3.y (Particle.position p)) (ofZ (-5)).


(** Two states with grids of the same shape. *)
Definition same_grid (c c' : ClothSystem F) : Prop :=
  length (particles c') = length (particles c) /\
  gridWidth c' = gridWidth c /\ gridHeight c' = gridHeight c.

(** The derived mesh agrees with the particles of the same state: the index
    buffer lists, quad by quad in row-major order, the two triangles of
    every quad whose four corners are active, and every index is the place
    of the vertex of an active particle, which carries its position. *)
Definition mesh_consistent (c : ClothSystem F) : Prop :=
  indices c
  = flat_map (quad_triangles (particles c) (gridWidth c))
      (grid_cells (gridHeight c - 1) (gridWidth c - 1)) /\
  (forall k, In k (indices c) ->
     exists g p,
       particles c !! g = Some p /\ Particle.active p = true /\
       k = rank (particles c) g /\
       vertex_position (vertices c) (Z.to_nat k)
       = Some (Particle.position p)).

(** Both ends of every spring are indices into the particle vector. *)
Definition springs_ok (c : ClothSystem F) : Prop :=
  Forall (fun sp =>
            (0 <= Spring.particle1 sp < Z.of_nat (length (particles c)))%Z /\
            (0 <= Spring.particle2 sp < Z.of_nat (length (particles c)))%Z)
         (springs c).

(** The members of a particle that no stage of [update] assigns. *)
Definition flags (p : Particle.t F) : F * bool * bool :=
  (Particle.mass p, Particle.pinned p, Particle.active p).

(** Both ends of an active spring are active particles of the vector. *)
Definition attached (ps : list (Particle.t F)) (sp : Spring.t F) : Prop :=
  Spring.active sp = true ->
  exists p1 p2,
    vec_at ps (Spring.particle1 sp) = Ok p1 /\
    vec_at ps (Spring.particle2 sp) = Ok p2 /\
    Particle.active p1 = true /\ Particle.active p2 = true.

Definition no_dangling (c : ClothSystem F) : Prop :=
  Forall (attached (particles c)) (springs c).

(** The first end of a spring has the smaller index. *)
Definition ends_ordered (c : ClothSystem F) : Prop :=
  Forall (fun sp => (Spring.particle1 sp < Spring.particle2 sp)%Z) (springs c).

(** The tunable parameters and the extents of the cloth. *)
Definition params (c : ClothSystem F) : F * F * F * F * (F * F) * (F * F * F) :=
  (gravity c, damping c, windStrength c, tearThreshold c,
   (clothWidth c, clothHeight c),
   (objectMoveSpeed c, objectMoveRange c, windVariationStrength c)).

(** The number of active particles, and whether the four corners of the
    quad with top-left cell [(y, x)] are all active. *)
Definition active_count (ps : list (Particle.t F)) : nat :=
  length (List.filter Particle.active ps).

Definition quad_full (ps : list (Particle.t F)) (W : Z) (yx : Z * Z) : bool :=
  let '(y, x) := yx in
  is_active ps (y * W + x) && is_active ps (y * W + (x + 1)) &&
  is_active ps ((y + 1) * W + x) && is_active ps ((y + 1) * W + (x + 1)).

(** The sizes of the two buffers handed to the renderer: eight floats per
    active particle, six indices per quad with four active corners, and
    every index the place of a vertex of the buffer. *)
Definition mesh_sized (c : ClothSystem F) : Prop :=
  length (vertices c) = (8 * active_count (particles c))%nat /\
  length (indices c)
  = (6 * length (List.filter (quad_full (particles c) (gridWidth c))
                   (grid_cells (gridHeight c - 1) (gridWidth c - 1))))%nat /\
  Forall (fun k => (0 <= k < Z.of_nat (active_count (particles c)))%Z)
         (indices c).

(** What each mode of [setMode] leaves in the sphere list and in the wind
    strength. *)
Definition mode_spheres (mode : SimulationMode) : list (CollisionSphere.t F) :=
  match mode with
  | COLLISION =>
      [CollisionSphere.mk (Vec3.mk (ofZ 0) (ofZ 1) (ofZ 6)) (lit 8 10)]
  | TEAR | FLAG => []
  end.

Definition mode_wind (mode : SimulationMode) : F :=
  match mode with
  | FLAG => ofZ 6
  | TEAR | COLLISION => ofZ 0
  end.

(** The same process with another sequence of values in its generator. *)
Definition with_draws (d : nat -> F) (c : ClothSystem F) : ClothSystem F :=
  set_statics
    (Statics.mk (Statics.startPos (statics c)) (Statics.angle (statics c))
       (Statics.goingForward (statics c)) d (Statics.drawn (statics c)))
    c.

Definition res_map {A B} (f : A -> B) (r : res A) : res B :=
  match r with
  | Ok a => Ok (f a)
  | Fail e => Fail e
  end.

(** No active particle passes the test [position.y < -5.0f] of the ground
    plane. *)
Definition grounded (ps : list (Particle.t F)) : Prop :=
  Forall (fun p => Particle.active p = true -> below_ground p = false) ps.

(** The accumulated time after [n] passes of the loop of [update]. *)
Definition after_passes (n : nat) (t : F) : F :=
  Nat.iter n (fun t => fsub t fixedTimeStep) t.

(** What the user tunes, the time accumulators and the statics. *)
Definition tuning (c : ClothSystem F)
    : F * F * F * (F * F) * (F * F * F) * Statics.t F :=
  (gravity c, damping c, tearThreshold c, (clothWidth c, clothHeight c),
   (elapsedTime c, objectMoveTime c, windVariationTime c), statics c).

(** The calls that neither rebuild the grid, nor tear, nor touch the
    spheres: [update] and the setters of the parameters. *)
Definition quiet (k : @call F) : bool :=
  match k with
  | Update _ _ | SetGravity _ | SetDamping _ | SetWindStrength _
  | SetWindDirection _ | SetTearThreshold _ => true
  | _ => false
  end.

(** The members the wind is computed from. *)
Definition wind_state (c : ClothSystem F) : F * vec3 F * F * F :=
  (windStrength c, windDirection c, windVariationTime c,
   windVariationStrength c).

(** The stiffness that [createClothGrid] gives to the springs of a type, and
    the two cells a spring joins: [(y, x)] and [(y + dy, x + dx)], both in
    the grid. *)
Definition stiffness_of (t : SpringType) : F :=
  match t with
  | STRUCTURAL => lit 7 10
  | SHEAR => lit 3 10
  | BEND => lit 15 100
  end.

Definition joins (W Ht : Z) (sp : Spring.t F) (dy dx : Z) : Prop :=
  exists y x,
    (0 <= y /\ y + dy < Ht)%Z /\ (0 <= x < W)%Z /\ (0 <= x + dx < W)%Z /\
    Spring.particle1 sp = (y * W + x)%Z /\
    Spring.particle2 sp = ((y + dy) * W + (x + dx))%Z.

Definition shaped (W Ht : Z) (sp : Spring.t F) : Prop :=
  Spring.stiffness sp = stiffness_of (Spring.type sp) /\
  match Spring.type sp with
  | STRUCTURAL => joins W Ht sp 0 1 \/ joins W Ht sp 1 0
  | SHEAR => joins W Ht sp 1 1 \/ joins W Ht sp 1 (-1)
  | BEND => joins W Ht sp 0 2 \/ joins W Ht sp 2 0
  end.

Definition well_shaped (c : ClothSystem F) : Prop :=
  Forall (shaped (gridWidth c) (gridHeight c)) (springs c).

(** A sequence of frames: calls of [update] only. *)
Definition frames (ks : list (@call F)) : bool :=
  forallb (fun k => match k with Update _ _ => true | _ => false end) ks.

(** The particle is not inside the sphere: [distance >= radius], with the
    distance as [handleCollisions] computes it.  And the particle is above
    the ground plane: [position.y > -5.0f]. *)
Definition outside (p : Particle.t F) (s : CollisionSphere.t F) : bool :=
  fleb (CollisionSphere.radius s)
       (length3 (vsub (Particle.position p) (CollisionSphere.center s))).

Definition above_ground (p : Particle.t F) : bool :=
  fltb (ofZ (-5)) (Vec3.y (Particle.position p)).


End Notions.

(** ** IEEE-754 binary32 *)

(** [float] as the Standard Library's specification of binary floating
    point with a 24-bit significand, rounding to nearest even.  [sin] and
    [cos] belong to the C library and have no executable counterpart here:
    the instance answers NaN, so that a run that reached them would show it
    in every value computed from them. *)
Definition float32 : Type := spec_float.

Definition b32_ofZ (n : Z) : float32 := binary_normalize 24 128 n 0 false.

#[export] Instance binary32 : Scalar float32 := {|
  ofZ := b32_ofZ;
  fadd := SFadd 24 128;
  fsub := SFsub 24 128;
  fmul := SFmul 24 128;
  fdiv := SFdiv 24 128;
  fsqrt := SFsqrt 24 128;
  fsin := fun _ => S754_nan;
  fcos := fun _ => S754_nan;
  fltb := SFltb;
  fleb := SFleb
|}.

(** ** Exact arithmetic

    The same operations on the real numbers: what the code computes when no
    operation rounds. *)
Definition Rltb (a b : R) : bool := if Rlt_dec a b then true else false.
Definition Rleb (a b : R) : bool := if Rle_dec a b then true else false.

#[export] Instance exact : Scalar R := {|
  ofZ := IZR;
  fadd := Rplus;
  fsub := Rminus;
  fmul := Rmult;
  fdiv := Rdiv;
  fsqrt := sqrt;
  fsin := sin;
  fcos := cos;
  fltb := Rltb;
  fleb := Rleb
|}.

(** The statics of a fresh process whose generator always returns [0]. *)
Definition fresh_statics : Statics.t float32 :=
  Statics.mk None (b32_ofZ 0) true (fun _ => b32_ofZ 0) 0.

(** ** Concrete states for evaluation *)

Definition blank : ClothSystem float32 :=
  mkClothSystem [] [] [] (ofZ 0) (ofZ 0) (ofZ 0) (ofZ 0) (ofZ 0)
    (splat (ofZ 0)) 0 0 (ofZ 0) (ofZ 0) (ofZ 0) (ofZ 0) (ofZ 0) (ofZ 0)
    (ofZ 0) [] [] fresh_statics.

Definition get (r : res (ClothSystem float32)) : ClothSystem float32 :=
  match r with
  | Ok c => c
  | Fail _ => blank
  end.

(** [ClothSystem(2, 2, 1.0f, 1.0f)]: particles 0 and 1 at
    [(-0.5, 0, 0)] and [(0.5, 0, 0)], the pinned particles 2 and 3 at
    [(-0.5, 1, 0)] and [(0.5, 1, 0)]. *)
Definition cloth22 : ClothSystem float32 :=
  Eval vm_compute in
    get (ClothSystem_new fresh_statics 2 2 (ofZ 1) (ofZ 1)).

(** A sphere of radius 0.5 centred 0.25 in front of the pinned
    particle 2, and the state after [update(1.0f / 60.0f)]. *)
Definition hit22 : ClothSystem float32 :=
  Eval vm_compute in
    addSphere (Vec3.mk (lit (-1) 2) (ofZ 1) (lit 1 4)) (lit 1 2) cloth22.

Definition hit22_after : ClothSystem float32 :=
  Eval vm_compute in get (update 1 (lit 1 60) hit22).



(** Particle 0 torn away with the mouse, and the calls that follow. *)
Definition torn22 : ClothSystem float32 :=
  Eval vm_compute in
    handleMouseInteraction (Vec3.mk (lit (-1) 2) (ofZ 0) (ofZ 0)) true
      cloth22.

Definition later_calls : list (@call float32) :=
  [Update 1 (lit 1 60); SetTearThreshold (lit 1 2); SetGravity (ofZ (-20));
   Update 1 (lit 1 60); HandleMouseInteraction (splat (ofZ 9)) true].

Definition torn22_later : ClothSystem float32 :=
  Eval vm_compute in get (run later_calls torn22).

(** A 3 by 3 grid with its centre particle torn away. *)
Definition torn33 : ClothSystem float32 :=
  Eval vm_compute in
    handleMouseInteraction (Vec3.mk (ofZ 0) (lit 1 2) (ofZ 0)) true
      (get (ClothSystem_new fresh_statics 3 3 (ofZ 1) (ofZ 1))).

(** The fresh 2 by 2 cloth after [update(1.0f / 60.0f)], and the cloth with
    the near sphere after a change of mode and one more frame. *)
Definition cloth22_after : ClothSystem float32 :=
  Eval vm_compute in get (update 1 (lit 1 60) cloth22).

Definition mode_calls : list (@call float32) :=
  [SetMode COLLISION; Update 1 (lit 1 60)].

Definition hit22_later : ClothSystem float32 :=
  Eval vm_compute in get (run mode_calls hit22_after).

(** [ClothSystem(1, 0, 1.0f, 1.0f)]: no particle at all. *)
Definition cloth10 : ClothSystem float32 :=
  Eval vm_compute in
    get (ClothSystem_new fresh_statics 1 0 (ofZ 1) (ofZ 1)).

(** Frames in a wind of strength 3 under a stronger gravity. *)
Definition windy_calls : list (@call float32) :=
  [SetWindStrength (ofZ 3); Update 1 (lit 1 60); SetGravity (ofZ (-20));
   Update 2 (lit 1 50)].

Definition cloth22_windy : ClothSystem float32 :=
  Eval vm_compute in get (run windy_calls cloth22).

(** The fresh 2 by 2 cloth with a tear threshold of 0.5: every spring is
    longer than half its rest length and tears in the first pass. *)
Definition brittle22 : ClothSystem float32 :=
  Eval vm_compute in setTearThreshold (lit 1 2) cloth22.

(** The fresh 2 by 2 cloth after [update(0.0f / 0.0f)], and three frames
    that follow. *)
Definition poisoned22 : ClothSystem float32 :=
  Eval vm_compute in get (update 0 (fdiv (ofZ 0) (ofZ 0)) cloth22).

Definition three_frames : list (@call float32) :=
  [Update 0 (lit 1 60); Update 0 (ofZ 5); Update 0 (lit 1 60)].

(** A state in exact arithmetic: one particle at the origin, a unit sphere
    ten units away and, last in the list, a unit sphere around the origin. *)
Definition exact_statics : Statics.t R :=
  Statics.mk None (ofZ 0) true (fun _ => ofZ 0) 0.

Definition ball_far : CollisionSphere.t R :=
  CollisionSphere.mk (Vec3.mk (ofZ 10) (ofZ 0) (ofZ 0)) (ofZ 1).

Definition ball_near : CollisionSphere.t R :=
  CollisionSphere.mk (splat (ofZ 0)) (ofZ 1).

Definition speck : ClothSystem R :=
  mkClothSystem [Particle_new (splat (ofZ 0))] [] [ball_far; ball_near]
    (lit (-981) 100) (lit 99 100) (ofZ 0) (ofZ 2) (ofZ 0)
    (Vec3.mk (ofZ 1) (ofZ 0) (lit 1 2)) 1 1 (ofZ 1) (ofZ 1)
    (ofZ 4) (lit 8 10) (ofZ 8) (ofZ 0) (lit 3 10) [] [] exact_statics.

(** One particle and a list of spheres, in binary32. *)
Definition lone (pos : vec3 float32) (ss : list (CollisionSphere.t float32))
    : ClothSystem float32 :=
  mkClothSystem [Particle_new pos] [] ss
    (lit (-981) 100) (lit 99 100) (ofZ 0) (ofZ 2) (ofZ 0)
    (Vec3.mk (ofZ 1) (ofZ 0) (lit 1 2)) 1 1 (ofZ 1) (ofZ 1)
    (ofZ 4) (lit 8 10) (ofZ 8) (ofZ 0) (lit 3 10) [] [] fresh_statics.

(** The distance of the only particle of [c] from the centre of [s] falls
    short of the radius by more than 0.1. *)
Definition deep_inside (c : ClothSystem float32)
    (s : CollisionSphere.t float32) : bool :=
  match particles c with
  | [p] =>
      Particle.active p &&
      negb (fleb (fsub (CollisionSphere.radius s) (lit 1 10))
              (length3 (vsub (Particle.position p)
                          (CollisionSphere.center s))))
  | _ => false
  end.

(** * Properties *)

(** ** The outcome monad and the vector accesses *)

Lemma bind_Ok {A B} (m : res A) (k : A -> res B) (b : B) :
  bind m k = Ok b -> exists a, m = Ok a /\ k a = Ok b.
Proof. destruct m as [a|e]; simpl; [eauto | discriminate]. Qed.

Lemma Ok_inj {A} (a b : A) : Ok a = Ok b -> a = b.
Proof. now intros [= ->]. Qed.

Ltac inv_bind :=
  repeat match goal with
    | H : bind _ _ = Ok _ |- _ =>
        let a := fresh "r" in
        let E := fresh "E" in
        apply bind_Ok in H; destruct H as (a & E & H)
    | H : Ok _ = Ok _ |- _ => apply Ok_inj in H
    | H : Fail _ = Ok _ |- _ => discriminate H
    end.

Ltac case_if_in H :=
  match type of H with
  | context [if ?b then _ else _] =>
      let E := fresh "E" in destruct b eqn:E
  end.

Lemma vec_at_Ok {A} (v : list A) (i : Z) (a : A) :
  vec_at v i = Ok a <-> (0 <= i)%Z /\ v !! Z.to_nat i = Some a.
Proof.
  unfold vec_at. destruct (Z.ltb_spec i 0).
  - split; [discriminate | lia].
  - destruct (v !! Z.to_nat i) as [b|]; split.
    + intros [= ->]. auto.
    + intros [_ [= ->]]. reflexivity.
    + discriminate.
    + intros [_ ?]. discriminate.
Qed.

Lemma vec_at_lookup {A} (v : list A) (i : nat) (a : A) :
  v !! i = Some a -> vec_at v (Z.of_nat i) = Ok a.
Proof. intros E. apply vec_at_Ok. rewrite Nat2Z.id. split; [lia | exact E]. Qed.

Lemma vec_set_Ok {A} (v : list A) (i : Z) (a : A) (v' : list A) :
  vec_set v i a = Ok v' <->
  (0 <= i)%Z /\ (Z.to_nat i < length v)%nat /\ v' = <[Z.to_nat i := a]> v.
Proof.
  unfold vec_set. destruct (Z.ltb_spec i 0).
  - split; [discriminate | lia].
  - destruct (Nat.ltb_spec (Z.to_nat i) (length v)); split.
    + intros [= <-]. auto.
    + intros (_ & _ & ->). reflexivity.
    + discriminate.
    + lia.
Qed.

Lemma vec_set_length {A} (v : list A) (i : Z) (a : A) (v' : list A) :
  vec_set v i a = Ok v' -> length v' = length v.
Proof. intros (_ & _ & ->)%vec_set_Ok. apply length_insert. Qed.

Lemma mapM_Ok_Forall2 {A B} (f : A -> res B) (l : list A) (bs : list B) :
  mapM f l = Ok bs <-> Forall2 (fun a b => f a = Ok b) l bs.
Proof.
  revert bs. induction l as [|a l IH]; intros bs; simpl.
  - split.
    + intros [= <-]. constructor.
    + intros E. inversion E. reflexivity.
  - split.
    + intros E. inv_bind. subst bs. constructor; [assumption|]. now apply IH.
    + intros E. inversion E as [|? b ? bs' Ea El]; subst.
      rewrite Ea. simpl. apply IH in El. rewrite El. reflexivity.
Qed.

Lemma mapM_total {A B} (f : A -> res B) (l : list A) :
  Forall (fun a => exists b, f a = Ok b) l -> exists bs, mapM f l = Ok bs.
Proof.
  induction 1 as [|a l [b Eb] _ [bs Ebs]]; simpl.
  - eauto.
  - rewrite Eb. simpl. rewrite Ebs. simpl. eauto.
Qed.

Lemma foldM_app {A S} (f : S -> A -> res S) (l1 l2 : list A) (s : S) :
  foldM f (l1 ++ l2) s = (s' <- foldM f l1 s ;; foldM f l2 s').
Proof.
  revert s. induction l1 as [|a l1 IH]; intros s; simpl; [reflexivity|].
  destruct (f s a); simpl; auto.
Qed.

(** An invariant of the loop body is an invariant of the loop. *)
Lemma foldM_invariant {A S} (f : S -> A -> res S) (P : S -> Prop)
    (l : list A) (s s' : S) :
  (forall s a s', P s -> f s a = Ok s' -> P s') ->
  P s -> foldM f l s = Ok s' -> P s'.
Proof.
  intros Hf. revert s. induction l as [|a l IH]; intros s Hs E; simpl in E.
  - injection E as <-. exact Hs.
  - inv_bind. eauto.
Qed.

(** ** What the stages of [update] leave alone *)

Section Frames.
Context {F : Type} `{Scalar F}.
Implicit Types (c : ClothSystem F) (p : Particle.t F) (sp : Spring.t F).

Lemma decays_refl sp : decays sp sp.
Proof. now left. Qed.

Lemma decays_trans sp1 sp2 sp3 :
  decays sp1 sp2 -> decays sp2 sp3 -> decays sp1 sp3.
Proof.
  intros [->| ->] [->| ->]; try (now left); try (now right).
Qed.

Lemma decays_inactive sp sp' :
  decays sp sp' -> Spring.active sp = false -> sp' = sp.
Proof.
  intros [->| ->] E; [reflexivity|]. destruct sp; simpl in *. now subst.
Qed.

Lemma constrain_decays thr ps sp ps' sp' :
  constrain thr ps sp = Ok (ps', sp') -> decays sp sp'.
Proof.
  unfold constrain. intros E.
  repeat (first [ case_if_in E | progress inv_bind ]; simpl in E);
    try (injection E as _ <-); try (now left); try (now right);
    try discriminate.
Qed.

Lemma constrain_all_decays thr ps ss ps' ss' :
  constrain_all thr ps ss = Ok (ps', ss') -> Forall2 decays ss ss'.
Proof.
  revert ps ps' ss'. induction ss as [|sp ss IH]; intros ps ps' ss' E;
    simpl in E.
  - injection E as _ <-. constructor.
  - inv_bind. destruct r as [ps1 sp1], r0 as [ps2 ss2]. simpl in *.
    injection E as _ <-. constructor; eauto using constrain_decays.
Qed.

Lemma Forall2_decays_refl (ss : list (Spring.t F)) : Forall2 decays ss ss.
Proof. induction ss; constructor; auto using decays_refl. Qed.

Lemma Forall2_decays_trans (s1 s2 s3 : list (Spring.t F)) :
  Forall2 decays s1 s2 -> Forall2 decays s2 s3 -> Forall2 decays s1 s3.
Proof.
  intros E. revert s3. induction E; intros s3 E3; inversion E3; subst;
    constructor; eauto using decays_trans.
Qed.

Lemma satisfyConstraints_decays c c' :
  satisfyConstraints c = Ok c' -> Forall2 decays (springs c) (springs c').
Proof.
  unfold satisfyConstraints. intros E. inv_bind. subst c'. simpl.
  destruct r. eauto using constrain_all_decays.
Qed.

Lemma springs_applyForces c : springs (applyForces c) = springs c.
Proof. unfold applyForces. destruct applyForces_loop. reflexivity. Qed.

Lemma springs_updateObjectMovement dt c :
  springs (updateObjectMovement dt c) = springs c.
Proof.
  unfold updateObjectMovement. destruct (spheres c); [reflexivity|].
  destruct (Statics.goingForward _); reflexivity.
Qed.

Lemma springs_updateWindVariation dt c :
  springs (updateWindVariation dt c) = springs c.
Proof. unfold updateWindVariation. destruct fltb; reflexivity. Qed.

Lemma springs_updateVertexData c c' :
  updateVertexData c = Ok c' -> springs c' = springs c.
Proof. unfold updateVertexData. intros E. inv_bind. now subst c'. Qed.

Lemma substep_decays c c' :
  substep c = Ok c' -> Forall2 decays (springs c) (springs c').
Proof.
  unfold substep. intros E. inv_bind. subst c'. simpl.
  apply satisfyConstraints_decays in E0, E1, E2. simpl in E0.
  rewrite springs_applyForces in E0.
  eauto using Forall2_decays_trans.
Qed.

Lemma update_loop_decays fuel c c' :
  update_loop fuel c = Ok c' -> Forall2 decays (springs c) (springs c').
Proof.
  revert c. induction fuel as [|fuel IH]; intros c E; simpl in E;
    case_if_in E; try discriminate; inv_bind;
    try (subst; apply Forall2_decays_refl).
  eauto using Forall2_decays_trans, substep_decays.
Qed.

Lemma update_decays fuel dt c c' :
  update fuel dt c = Ok c' -> Forall2 decays (springs c) (springs c').
Proof.
  unfold update. intros E. inv_bind.
  apply springs_updateVertexData in E. rewrite E.
  rewrite springs_updateWindVariation, springs_updateObjectMovement.
  apply update_loop_decays in E0. exact E0.
Qed.

End Frames.

(** ** The springs that [createClothGrid] builds *)

Section Builder.
Context {F : Type} `{Scalar F}.
Implicit Types (c : ClothSystem F) (p : Particle.t F) (sp : Spring.t F).

(** What holds of every spring constructed between two particles of the
    vector holds of every spring of the grid. *)
Section Each.
Variable ps : list (Particle.t F).
Variable P : Spring.t F -> Prop.
Hypothesis P_new : forall a b pa pb k t,
  vec_at ps a = Ok pa -> vec_at ps b = Ok pb ->
  P (Spring_new a b
       (length3 (vsub (Particle.position pb) (Particle.position pa))) k t).

Lemma spring_if_Forall g a b k t l :
  spring_if g ps a b k t = Ok l -> Forall P l.
Proof using P_new.
  unfold spring_if. destruct g; intros E; inv_bind; subst l; auto.
Qed.

Lemma cell_springs_Forall W Ht yx l :
  cell_springs ps W Ht yx = Ok l -> Forall P l.
Proof using P_new.
  destruct yx as [y x]. unfold cell_springs. intros E. inv_bind. subst l.
  repeat apply Forall_app_2; eauto using spring_if_Forall.
Qed.

Lemma grid_springs_Forall W Ht l :
  grid_springs ps W Ht = Ok l -> Forall P l.
Proof using P_new.
  unfold grid_springs. intros E. inv_bind. subst l.
  apply mapM_Ok_Forall2 in E0. apply Forall_concat.
  induction E0; constructor; eauto using cell_springs_Forall.
Qed.
End Each.

Lemma particles_updateVertexData c c' :
  updateVertexData c = Ok c' -> particles c' = particles c.
Proof. unfold updateVertexData. intros E. inv_bind. now subst c'. Qed.

Lemma createClothGrid_inv c c' :
  createClothGrid c = Ok c' ->
  particles c' = grid_particles c /\
  grid_springs (grid_particles c) (gridWidth c) (gridHeight c)
    = Ok (springs c').
Proof.
  unfold createClothGrid. intros E. inv_bind.
  rewrite (particles_updateVertexData _ _ E).
  rewrite (springs_updateVertexData _ _ E). simpl. auto.
Qed.

Lemma createClothGrid_springs_active c c' :
  createClothGrid c = Ok c' ->
  Forall (fun sp => Spring.active sp = true) (springs c').
Proof.
  intros [_ E]%createClothGrid_inv.
  eapply grid_springs_Forall; [|exact E]. reflexivity.
Qed.

End Builder.

(** ** Springs under the calls of the interface *)

Section Calls.
Context {F : Type} `{Scalar F}.
Implicit Types (c : ClothSystem F) (p : Particle.t F) (sp : Spring.t F).

Lemma cut_springs_decays j (ss : list (Spring.t F)) :
  Forall2 decays ss (cut_springs j ss).
Proof.
  induction ss as [|sp ss IH]; simpl; constructor; [|exact IH].
  destruct (_ || _); [now right | now left].
Qed.

Lemma tear_step_decays pos (st : list (Particle.t F) * list (Spring.t F)) i :
  Forall2 decays (snd st) (snd (tear_step pos st i)).
Proof.
  unfold tear_step. destruct (fst st !! i) as [p|];
    [destruct (in_tear_range pos p)|]; simpl;
    auto using Forall2_decays_refl, cut_springs_decays.
Qed.

Lemma tear_loop_decays pos l (st : list (Particle.t F) * list (Spring.t F)) :
  Forall2 decays (snd st) (snd (fold_left (tear_step pos) l st)).
Proof.
  revert st. induction l as [|i l IH]; intros st; simpl.
  - apply Forall2_decays_refl.
  - eapply Forall2_decays_trans; [apply tear_step_decays | apply IH].
Qed.

Lemma handleMouseInteraction_decays pos tearing c :
  Forall2 decays (springs c) (springs (handleMouseInteraction pos tearing c)).
Proof.
  unfold handleMouseInteraction. destruct tearing; simpl.
  - apply (tear_loop_decays pos _ (particles c, springs c)).
  - apply Forall2_decays_refl.
Qed.

Lemma exec_decays k c c' :
  rebuilds k = false -> exec k c = Ok c' ->
  Forall2 decays (springs c) (springs c').
Proof.
  destruct k; simpl; try discriminate; intros _ E;
    try (apply Ok_inj in E; subst c'; simpl; apply Forall2_decays_refl).
  - eauto using update_decays.
  - apply Ok_inj in E. subst c'. apply handleMouseInteraction_decays.
Qed.

Lemma run_decays ks c c' :
  forallb (fun k => negb (rebuilds k)) ks = true -> run ks c = Ok c' ->
  Forall2 decays (springs c) (springs c').
Proof.
  unfold run. revert c. induction ks as [|k ks IH]; intros c Hk E;
    simpl in *.
  - apply Ok_inj in E. subst. apply Forall2_decays_refl.
  - apply andb_prop in Hk as [Hk Hks]. apply negb_true_iff in Hk.
    inv_bind. eauto using Forall2_decays_trans, exec_decays.
Qed.

Lemma springs_pin_top_row c c' :
  pin_top_row c = Ok c' -> springs c' = springs c.
Proof. unfold pin_top_row. intros E. inv_bind. now subst. Qed.

Lemma setMode_springs_active mode c c' :
  setMode mode c = Ok c' ->
  Forall (fun sp => Spring.active sp = true) (springs c').
Proof.
  unfold setMode, reset. intros E. inv_bind.
  apply createClothGrid_springs_active in E0.
  destruct mode.
  - apply springs_pin_top_row in E. now rewrite E.
  - inv_bind. now subst c'.
  - apply springs_pin_top_row in E. now rewrite E.
Qed.

End Calls.

(** ** The cells of the grid in row-major order *)

Lemma zrange_S (n : nat) :
  zrange (Z.of_nat (S n)) = zrange (Z.of_nat n) ++ [Z.of_nat n].
Proof.
  unfold zrange. rewrite !Nat2Z.id, seq_S, map_app. reflexivity.
Qed.

Lemma elem_of_zrange (n i : Z) : In i (zrange n) <-> (0 <= i < n)%Z.
Proof.
  unfold zrange. rewrite in_map_iff. split.
  - intros (k & <- & Hk). apply in_seq in Hk. lia.
  - intros Hi. exists (Z.to_nat i). split; [lia|]. apply in_seq. lia.
Qed.

Lemma in_grid_cells (rows cols y x : Z) :
  In (y, x) (grid_cells rows cols) <-> (0 <= y < rows)%Z /\ (0 <= x < cols)%Z.
Proof.
  unfold grid_cells. rewrite in_flat_map. split.
  - intros (y' & Hy & Hx). apply in_map_iff in Hx as (x' & [= <- <-] & Hx).
    apply elem_of_zrange in Hy, Hx. auto.
  - intros [Hy Hx]. exists y. split; [now apply elem_of_zrange|].
    apply in_map_iff. exists x. split; [reflexivity | now apply elem_of_zrange].
Qed.

Lemma map_add_zrange (b : nat) (n : nat) :
  map (fun x => (Z.of_nat b + x)%Z) (zrange (Z.of_nat n))
  = map Z.of_nat (seq b n).
Proof.
  unfold zrange. rewrite Nat2Z.id, map_map.
  assert (G : forall k, map (fun x => (Z.of_nat b + Z.of_nat x)%Z) (seq k n)
                        = map Z.of_nat (seq (b + k) n)).
  { induction n as [|n IH]; intros k; simpl; [reflexivity|].
    f_equal; [lia|]. rewrite IH. f_equal. f_equal. lia. }
  rewrite G. now rewrite Nat.add_0_r.
Qed.

(** The indices of the cells are [0, 1, ..., rows * cols - 1] in order. *)
Lemma cell_index_grid_cells (rows cols : nat) :
  map (cell_index (Z.of_nat cols))
    (grid_cells (Z.of_nat rows) (Z.of_nat cols))
  = map Z.of_nat (seq 0 (rows * cols)).
Proof.
  induction rows as [|r IH].
  - reflexivity.
  - unfold grid_cells in *. rewrite zrange_S, flat_map_app, map_app, IH.
    replace (S r * cols)%nat with (r * cols + cols)%nat by lia.
    simpl flat_map. rewrite app_nil_r, map_map. unfold cell_index. simpl.
    rewrite seq_app, map_app. apply (f_equal (app _)). simpl.
    rewrite <- (map_add_zrange (r * cols) cols).
    apply map_ext. intros x. lia.
Qed.

Lemma length_grid_cells (rows cols : nat) :
  length (grid_cells (Z.of_nat rows) (Z.of_nat cols)) = (rows * cols)%nat.
Proof.
  rewrite <- (length_map (cell_index (Z.of_nat cols))), cell_index_grid_cells.
  now rewrite length_map, length_seq.
Qed.

(** The cell stored at a row-major index. *)
Lemma grid_cells_lookup (rows cols : nat) (yx : Z * Z) (i : nat) :
  grid_cells (Z.of_nat rows) (Z.of_nat cols) !! i = Some yx ->
  cell_index (Z.of_nat cols) yx = Z.of_nat i.
Proof.
  intros E.
  assert (E' : map (cell_index (Z.of_nat cols))
                 (grid_cells (Z.of_nat rows) (Z.of_nat cols)) !! i
               = Some (cell_index (Z.of_nat cols) yx)).
  { change (map ?f ?l) with (f <$> l). rewrite list_lookup_fmap, E.
    reflexivity. }
  rewrite cell_index_grid_cells in E'.
  change (map ?f ?l) with (f <$> l) in E'.
  rewrite list_lookup_fmap in E'.
  destruct (seq 0 (rows * cols) !! i) as [k|] eqn:Ek; [|discriminate].
  apply lookup_seq in Ek as [-> _]. simpl in E'. now injection E' as ->.
Qed.

Lemma grid_cells_at (rows cols : nat) (y x : Z) :
  (0 <= y < Z.of_nat rows)%Z -> (0 <= x < Z.of_nat cols)%Z ->
  grid_cells (Z.of_nat rows) (Z.of_nat cols)
    !! Z.to_nat (y * Z.of_nat cols + x) = Some (y, x).
Proof.
  intros Hy Hx.
  assert (Hin : In (y, x) (grid_cells (Z.of_nat rows) (Z.of_nat cols)))
    by now apply in_grid_cells.
  apply list_elem_of_In, list_elem_of_lookup in Hin as [i Ei].
  pose proof (grid_cells_lookup _ _ _ _ Ei) as Hi. unfold cell_index in Hi.
  simpl in Hi. rewrite Hi, Nat2Z.id. exact Ei.
Qed.

(** ** [createClothGrid] stays inside its vectors *)

Section Bounds.
Context {F : Type} `{Scalar F}.
Implicit Types (c : ClothSystem F) (ps : list (Particle.t F)).

Lemma cell_in_range (W Ht y x : Z) :
  (0 <= y < Ht)%Z -> (0 <= x < W)%Z -> (0 <= y * W + x < W * Ht)%Z.
Proof. intros Hy Hx. nia. Qed.

Lemma vec_at_total {A} (v : list A) (i : Z) :
  (0 <= i)%Z -> (Z.to_nat i < length v)%nat -> exists a, vec_at v i = Ok a.
Proof.
  intros H0 Hi. destruct (lookup_lt_is_Some_2 v (Z.to_nat i) Hi) as [a Ea].
  exists a. now apply vec_at_Ok.
Qed.

Lemma vec_at_cell ps (W Ht y x : Z) :
  length ps = Z.to_nat (W * Ht) ->
  (0 <= y < Ht)%Z -> (0 <= x < W)%Z ->
  exists p, vec_at ps (y * W + x) = Ok p.
Proof.
  intros Hl Hy Hx. pose proof (cell_in_range W Ht y x Hy Hx).
  apply vec_at_total; lia.
Qed.

Lemma length_grid_particles c :
  (0 <= gridWidth c)%Z -> (0 <= gridHeight c)%Z ->
  length (grid_particles c) = Z.to_nat (gridWidth c * gridHeight c).
Proof.
  intros HW HH. unfold grid_particles. rewrite length_map.
  rewrite <- (Z2Nat.id (gridWidth c)), <- (Z2Nat.id (gridHeight c)) by lia.
  rewrite length_grid_cells. lia.
Qed.

Lemma grid_particles_at c (y x : Z) :
  (0 <= y < gridHeight c)%Z -> (0 <= x < gridWidth c)%Z ->
  vec_at (grid_particles c) (y * gridWidth c + x)
  = Ok (grid_particle c (y, x)).
Proof.
  intros Hy Hx. apply vec_at_Ok. split; [nia|].
  unfold grid_particles. change (map ?f ?l) with (f <$> l).
  rewrite list_lookup_fmap.
  rewrite <- (Z2Nat.id (gridWidth c)), <- (Z2Nat.id (gridHeight c)) by lia.
  rewrite grid_cells_at by lia. reflexivity.
Qed.

Lemma spring_if_total g ps a b k t :
  (g = true ->
   (exists pa, vec_at ps a = Ok pa) /\ (exists pb, vec_at ps b = Ok pb)) ->
  exists l, spring_if g ps a b k t = Ok l.
Proof.
  unfold spring_if. destruct g; [|eauto].
  intros [[pa Ea] [pb Eb]]; [reflexivity|]. rewrite Ea, Eb. simpl. eauto.
Qed.

Lemma cell_springs_total ps (W Ht y x : Z) :
  length ps = Z.to_nat (W * Ht) ->
  (0 <= y < Ht)%Z -> (0 <= x < W)%Z ->
  exists l, cell_springs ps W Ht (y, x) = Ok l.
Proof.
  intros Hl Hy Hx. unfold cell_springs.
  assert (Hc : exists p, vec_at ps (y * W + x) = Ok p)
    by (apply (vec_at_cell ps W Ht); auto).
  repeat match goal with
    | |- context [spring_if ?g ps ?a ?b ?k ?t] =>
        let l := fresh "l" in
        let E := fresh "E" in
        destruct (spring_if_total g ps a b k t) as [l E];
        [ intros Hg; split; [exact Hc|];
          rewrite ?andb_true_iff, ?Z.ltb_lt in Hg;
          apply (vec_at_cell ps W Ht); auto; lia
        | rewrite E; simpl ]
    end.
  eauto.
Qed.

Lemma grid_springs_total ps (W Ht : Z) :
  length ps = Z.to_nat (W * Ht) ->
  exists l, grid_springs ps W Ht = Ok l.
Proof.
  intros Hl. unfold grid_springs.
  destruct (mapM_total (cell_springs ps W Ht) (grid_cells Ht W)) as [ss E].
  - apply Forall_forall. intros [y x] Hin%list_elem_of_In%in_grid_cells.
    apply cell_springs_total; tauto.
  - rewrite E. simpl. eauto.
Qed.

End Bounds.

(** ** The derived mesh *)

Section Mesh.
Context {F : Type} `{Scalar F}.
Implicit Types (c : ClothSystem F) (ps : list (Particle.t F)).

Lemma rank_S ps (m : nat) :
  rank ps (S m)
  = (rank ps m + match ps !! m with
                 | Some p => if Particle.active p then 1 else 0
                 | None => 0
                 end)%Z.
Proof.
  unfold rank. destruct (ps !! m) as [p|] eqn:E.
  - rewrite (take_S_r _ _ _ E), List.filter_app, length_app. simpl.
    destruct (Particle.active p); simpl; lia.
  - apply lookup_ge_None in E. rewrite !take_ge by lia. lia.
Qed.

Lemma rank_nonneg ps (m : nat) : (0 <= rank ps m)%Z.
Proof. unfold rank. lia. Qed.

Lemma rank_mono ps (g m : nat) : (g <= m)%nat -> (rank ps g <= rank ps m)%Z.
Proof.
  induction 1 as [|m _ IH]; [lia|]. rewrite rank_S.
  destruct (ps !! m) as [p|]; [destruct (Particle.active p)|]; lia.
Qed.

Lemma rank_lt ps (g m : nat) p :
  (g < m)%nat -> ps !! g = Some p -> Particle.active p = true ->
  (rank ps g < rank ps m)%Z.
Proof.
  intros Hg E Ha. pose proof (rank_mono ps (S g) m Hg) as Hm.
  rewrite rank_S, E, Ha in Hm. lia.
Qed.

Lemma foldM_total {A S} (f : S -> A -> res S) (l : list A) (s : S) :
  (forall s a, exists s', f s a = Ok s') -> exists s', foldM f l s = Ok s'.
Proof.
  intros Hf. revert s. induction l as [|a l IH]; intros s; simpl; [eauto|].
  destruct (Hf s a) as [s' ->]. simpl. apply IH.
Qed.

Lemma in_grid_bounds c (x y : Z) :
  in_grid c x y = true ->
  (0 <= y < gridHeight c)%Z /\ (0 <= x < gridWidth c)%Z.
Proof. unfold in_grid. rewrite !andb_true_iff. lia. Qed.

Lemma normal_step_total c x y centre acc o :
  grid_ok c -> exists acc', normal_step c x y centre acc o = Ok acc'.
Proof.
  intros (HW & HH & Hl). destruct o as [[ox1 oy1] [ox2 oy2]].
  unfold normal_step.
  destruct (in_grid c (x + ox1) (y + oy1)) eqn:E1; [|simpl; eauto].
  destruct (in_grid c (x + ox2) (y + oy2)) eqn:E2; [|simpl; eauto].
  apply in_grid_bounds in E1 as [? ?], E2 as [? ?]. simpl.
  destruct (vec_at_cell (particles c) (gridWidth c) (gridHeight c)
              (y + oy1) (x + ox1)) as [p1 ->]; auto. simpl.
  destruct (Particle.active p1); [|eauto].
  destruct (vec_at_cell (particles c) (gridWidth c) (gridHeight c)
              (y + oy2) (x + ox2)) as [p2 ->]; auto. simpl.
  destruct (Particle.active p2); eauto.
Qed.

Lemma calculateNormal_total c x y p :
  grid_ok c -> vec_at (particles c) (y * gridWidth c + x) = Ok p ->
  exists v, calculateNormal c x y = Ok v.
Proof.
  intros Hok E. unfold calculateNormal. rewrite E. cbn [bind].
  destruct (Particle.active p); cbn [negb]; [|eauto].
  destruct (foldM_total (normal_step c x y p) offset_pairs
              (splat (ofZ 0), 0%Z)) as [acc ->].
  - intros. now apply normal_step_total.
  - cbn [bind]. destruct (0 <? snd acc)%Z; eauto.
Qed.

Lemma vertex_position_app_l (vs ws : list F) (k : nat) :
  (8 * k + 2 < length vs)%nat ->
  vertex_position (vs ++ ws) k = vertex_position vs k.
Proof.
  intros Hk. unfold vertex_position. now rewrite !lookup_app_l by lia.
Qed.

Lemma vertex_position_app_r (vs : list F) (k : nat) (a b d : F) ws :
  length vs = (8 * k)%nat ->
  vertex_position (vs ++ a :: b :: d :: ws) k = Some (Vec3.mk a b d).
Proof.
  intros Hk. unfold vertex_position. rewrite !lookup_app_r by lia.
  replace (8 * k - length vs)%nat with 0%nat by lia.
  replace (8 * k + 1 - length vs)%nat with 1%nat by lia.
  replace (8 * k + 2 - length vs)%nat with 2%nat by lia.
  reflexivity.
Qed.

Lemma vertex_of_active ps (g : nat) p :
  ps !! g = Some p -> Particle.active p = true -> vertex_of ps g = rank ps g.
Proof. intros E Ha. unfold vertex_of. now rewrite E, Ha. Qed.

Lemma vertex_of_inactive ps (g : nat) p :
  ps !! g = Some p -> Particle.active p = false -> vertex_of ps g = (-1)%Z.
Proof. intros E Ha. unfold vertex_of. now rewrite E, Ha. Qed.

(** One pass of the first loop nest keeps the invariant. *)
Lemma vertex_step_inv c (m : nat) (a : mesh_acc) (yx : Z * Z) :
  grid_ok c ->
  cell_index (gridWidth c) yx = Z.of_nat m ->
  (m < length (particles c))%nat ->
  mesh_inv (particles c) (length (particles c)) m a ->
  exists a', vertex_step c a yx = Ok a' /\
             mesh_inv (particles c) (length (particles c)) (S m) a'.
Proof.
  intros Hok Hidx Hm (Hvc & Hlen & Hg & Hvl & Hpos).
  destruct yx as [y x]. unfold cell_index in Hidx. simpl in Hidx.
  destruct (lookup_lt_is_Some_2 _ _ Hm) as [p Ep].
  assert (Eat : vec_at (particles c) (y * gridWidth c + x) = Ok p)
    by (rewrite Hidx; now apply vec_at_lookup).
  unfold vertex_step. rewrite Eat. cbn [bind].
  pose proof (rank_S (particles c) m) as HS. rewrite Ep in HS.
  destruct (Particle.active p) eqn:Ha; cbn [negb].
  - (* an active particle: a new vertex *)
    destruct (calculateNormal_total c x y p Hok Eat) as [nrm En].
    assert (Eset : vec_set (gridToVertex a) (y * gridWidth c + x)
                     (vertexCount a)
                   = Ok (<[m := vertexCount a]> (gridToVertex a))).
    { apply vec_set_Ok. rewrite Hidx, Nat2Z.id. repeat split; lia. }
    rewrite Eset, En. cbn [bind]. eexists. split; [reflexivity|].
    pose proof (rank_nonneg (particles c) m) as H0.
    repeat split; cbn [vertexCount gridToVertex acc_vertices].
    + lia.
    + now rewrite length_insert.
    + intros i Hi. destruct (decide (i = m)) as [->|Hne].
      * rewrite list_lookup_insert_eq by lia.
        rewrite (proj2 (Nat.ltb_lt m (S m))) by lia.
        now rewrite (vertex_of_active _ _ _ Ep Ha), Hvc.
      * rewrite list_lookup_insert_ne by auto. rewrite Hg by auto.
        destruct (Nat.ltb_spec i m), (Nat.ltb_spec i (S m));
          try reflexivity; lia.
    + rewrite length_app, Hvl. simpl. lia.
    + intros g q Hlt Eq Hq. destruct (decide (g = m)) as [->|Hne].
      * rewrite Ep in Eq. injection Eq as <-.
        rewrite vertex_position_app_r by exact Hvl. now destruct (Particle.position p).
      * assert (Hgm : (g < m)%nat) by lia.
        pose proof (rank_lt _ _ _ _ Hgm Eq Hq).
        pose proof (rank_nonneg (particles c) g).
        rewrite vertex_position_app_l by lia. now apply Hpos.
  - (* an inactive particle: nothing changes *)
    eexists. split; [reflexivity|].
    repeat split.
    + lia.
    + exact Hlen.
    + intros i Hi. rewrite Hg by exact Hi.
      destruct (decide (i = m)) as [->|Hne].
      * rewrite (proj2 (Nat.ltb_ge m m)) by lia.
        rewrite (proj2 (Nat.ltb_lt m (S m))) by lia.
        now rewrite (vertex_of_inactive _ _ _ Ep Ha).
      * destruct (Nat.ltb_spec i m), (Nat.ltb_spec i (S m));
          try reflexivity; lia.
    + rewrite Hvl. lia.
    + intros g q Hlt Eq Hq. destruct (decide (g = m)) as [->|Hne].
      * rewrite Ep in Eq. injection Eq as <-. congruence.
      * apply Hpos; auto. lia.
Qed.

(** The loop over cells whose indices are [m, m + 1, ...]. *)
Lemma vertex_loop_inv c (cs : list (Z * Z)) (m : nat) (a : mesh_acc) :
  grid_ok c ->
  map (cell_index (gridWidth c)) cs = map Z.of_nat (seq m (length cs)) ->
  (m + length cs <= length (particles c))%nat ->
  mesh_inv (particles c) (length (particles c)) m a ->
  exists a', foldM (vertex_step c) cs a = Ok a' /\
             mesh_inv (particles c) (length (particles c))
               (m + length cs) a'.
Proof.
  intros Hok. revert m a.
  induction cs as [|yx cs IH]; intros m a Hidx Hle Hinv; simpl in *.
  - exists a. rewrite Nat.add_0_r. auto.
  - injection Hidx as H1 Hrest.
    destruct (vertex_step_inv c m a yx Hok H1 ltac:(lia) Hinv)
      as (a1 & -> & Hinv1).
    cbn [bind]. replace (m + S (length cs))%nat with (S m + length cs)%nat
      by lia.
    apply IH; auto. lia.
Qed.

Lemma is_active_at ps (i : Z) p :
  vec_at ps i = Ok p -> is_active ps i = Particle.active p.
Proof. intros [_ E]%vec_at_Ok. unfold is_active. now rewrite E. Qed.

Lemma vertex_of_not_minus_one ps (i : Z) p :
  vec_at ps i = Ok p -> Particle.active p = true ->
  (vertex_of ps (Z.to_nat i) =? -1)%Z = false.
Proof.
  intros [_ E]%vec_at_Ok Ha. rewrite (vertex_of_active _ _ _ E Ha).
  pose proof (rank_nonneg ps (Z.to_nat i)). lia.
Qed.

(** The second loop nest reads the finished table. *)
Lemma quad_indices_spec c (g : list Z) (y x : Z) :
  grid_ok c ->
  (forall i, (i < length (particles c))%nat ->
     g !! i = Some (vertex_of (particles c) i)) ->
  (0 <= y < gridHeight c - 1)%Z -> (0 <= x < gridWidth c - 1)%Z ->
  quad_indices c g (y, x)
  = Ok (quad_triangles (particles c) (gridWidth c) (y, x)).
Proof.
  intros (HW & HH & Hl) Hg Hy Hx.
  assert (Hcell : forall y' x',
            (0 <= y' < gridHeight c)%Z -> (0 <= x' < gridWidth c)%Z ->
            exists p, vec_at (particles c) (y' * gridWidth c + x') = Ok p /\
              vec_at g (y' * gridWidth c + x')
              = Ok (vertex_of (particles c)
                      (Z.to_nat (y' * gridWidth c + x')))).
  { intros y' x' Hy' Hx'.
    destruct (vec_at_cell (particles c) (gridWidth c) (gridHeight c) y' x')
      as [p Ep]; auto.
    exists p. split; [exact Ep|]. apply vec_at_Ok in Ep as [H0 Ep].
    apply vec_at_Ok. split; [exact H0|]. apply Hg.
    now apply lookup_lt_Some in Ep. }
  destruct (Hcell y x) as (ptl & Etl & Gtl); try lia.
  destruct (Hcell y (x + 1)%Z) as (ptr & Etr & Gtr); try lia.
  destruct (Hcell (y + 1)%Z x) as (pbl & Ebl & Gbl); try lia.
  destruct (Hcell (y + 1)%Z (x + 1)%Z) as (pbr & Ebr & Gbr); try lia.
  unfold quad_indices, quad_triangles.
  rewrite (is_active_at _ _ _ Etl), (is_active_at _ _ _ Etr),
    (is_active_at _ _ _ Ebl), (is_active_at _ _ _ Ebr).
  rewrite Etl. cbn [bind].
  destruct (Particle.active ptl) eqn:Atl; cbn [negb andb]; [|reflexivity].
  rewrite Etr. cbn [bind].
  destruct (Particle.active ptr) eqn:Atr; cbn [negb andb]; [|reflexivity].
  rewrite Ebl. cbn [bind].
  destruct (Particle.active pbl) eqn:Abl; cbn [negb andb]; [|reflexivity].
  rewrite Ebr. cbn [bind].
  destruct (Particle.active pbr) eqn:Abr; cbn [negb andb]; [|reflexivity].
  rewrite Gtl. cbn [bind]. rewrite (vertex_of_not_minus_one _ _ _ Etl Atl).
  rewrite Gtr. cbn [bind]. rewrite (vertex_of_not_minus_one _ _ _ Etr Atr).
  rewrite Gbl. cbn [bind]. rewrite (vertex_of_not_minus_one _ _ _ Ebl Abl).
  rewrite Gbr. cbn [bind]. rewrite (vertex_of_not_minus_one _ _ _ Ebr Abr).
  reflexivity.
Qed.

Lemma mapM_spec {A B} (f : A -> res B) (g : A -> B) (l : list A) :
  (forall a, In a l -> f a = Ok (g a)) -> mapM f l = Ok (map g l).
Proof.
  induction l as [|a l IH]; intros Hf; simpl; [reflexivity|].
  rewrite Hf by now left. cbn [bind]. rewrite IH; [reflexivity|].
  intros b Hb. apply Hf. now right.
Qed.

(** [mesh] returns, and this is what it returns: the triangles of the fully
    active quads, over a vertex buffer with one vertex per active
    particle. *)
Lemma mesh_spec c :
  grid_ok c ->
  exists vs,
    mesh c
    = Ok (vs, flat_map (quad_triangles (particles c) (gridWidth c))
                (grid_cells (gridHeight c - 1) (gridWidth c - 1))) /\
    length vs
    = (8 * Z.to_nat (rank (particles c) (length (particles c))))%nat /\
    (forall g p, particles c !! g = Some p -> Particle.active p = true ->
       vertex_position vs (Z.to_nat (rank (particles c) g))
       = Some (Particle.position p)).
Proof.
  intros Hok. pose proof Hok as (HW & HH & Hl).
  set (n := length (particles c)) in *.
  unfold mesh, new_gridToVertex.
  rewrite (proj2 (Z.ltb_ge _ 0)) by nia. cbn [bind]. rewrite <- Hl.
  destruct (vertex_loop_inv c (grid_cells (gridHeight c) (gridWidth c)) 0
              (mkMeshAcc [] (replicate n (-1)%Z) 0%Z) Hok)
    as (a & -> & Hvc & Hlen & Hg & Hvl & Hpos).
  - rewrite <- (Z2Nat.id (gridWidth c)), <- (Z2Nat.id (gridHeight c)) by lia.
    rewrite cell_index_grid_cells, length_grid_cells. reflexivity.
  - rewrite <- (Z2Nat.id (gridWidth c)), <- (Z2Nat.id (gridHeight c)) by lia.
    rewrite length_grid_cells. fold n. lia.
  - repeat split; cbn [vertexCount gridToVertex acc_vertices].
    + now rewrite length_replicate.
    + intros i Hi. now apply lookup_replicate_2.
    + intros g p Hlt. lia.
  - assert (Hcount : (0 + length (grid_cells (gridHeight c) (gridWidth c))
                      = n)%nat).
    { rewrite <- (Z2Nat.id (gridWidth c)), <- (Z2Nat.id (gridHeight c))
        by lia.
      rewrite length_grid_cells. fold n. lia. }
    rewrite Hcount in *. cbn [bind].
    rewrite (mapM_spec _ (quad_triangles (particles c) (gridWidth c))).
    + cbn [bind]. exists (acc_vertices a). rewrite flat_map_concat_map.
      repeat split; auto.
      intros g p Eg Ha. apply Hpos; auto. now apply lookup_lt_Some in Eg.
    + intros [y x] Hin%in_grid_cells. apply quad_indices_spec; try tauto.
      intros i Hi. rewrite Hg by exact Hi.
      now rewrite (proj2 (Nat.ltb_lt i n)) by exact Hi.
Qed.

End Mesh.

Section MeshTheorems.
Context {F : Type} `{Scalar F}.
Implicit Types (c : ClothSystem F) (ps : list (Particle.t F)).

Lemma quad_triangles_active ps (W : Z) (yx : Z * Z) (k : Z) :
  In k (quad_triangles ps W yx) ->
  exists g p, ps !! g = Some p /\ Particle.active p = true /\ k = rank ps g.
Proof.
  destruct yx as [y x]. unfold quad_triangles.
  destruct (is_active ps (y * W + x)) eqn:E1; [|intros []].
  destruct (is_active ps (y * W + (x + 1))) eqn:E2; [|intros []].
  destruct (is_active ps ((y + 1) * W + x)) eqn:E3; [|intros []].
  destruct (is_active ps ((y + 1) * W + (x + 1))) eqn:E4; [|intros []].
  assert (G : forall i, is_active ps i = true ->
                exists g p, ps !! g = Some p /\ Particle.active p = true /\
                            vertex_of ps (Z.to_nat i) = rank ps g).
  { intros i Hi. unfold is_active in Hi.
    destruct (ps !! Z.to_nat i) as [p|] eqn:Ep; [|discriminate].
    exists (Z.to_nat i), p. eauto using vertex_of_active. }
  cbn [andb In]. intros Hk.
  repeat destruct Hk as [<-|Hk]; try contradiction; auto.
Qed.

Lemma quad_triangles_torn ps (W y x : Z) :
  is_active ps (y * W + x) && is_active ps (y * W + (x + 1)) &&
  is_active ps ((y + 1) * W + x) && is_active ps ((y + 1) * W + (x + 1))
  = false ->
  quad_triangles ps W (y, x) = [].
Proof. intros E. unfold quad_triangles. now rewrite E. Qed.

Lemma updateVertexData_consistent c :
  grid_ok c ->
  exists c',
    updateVertexData c = Ok c' /\ particles c' = particles c /\
    mesh_consistent c'.
Proof.
  intros Hok. destruct (mesh_spec c Hok) as (vs & Em & Hlen & Hpos).
  unfold updateVertexData. rewrite Em. cbn [bind fst snd].
  eexists. split; [reflexivity|]. split; [reflexivity|].
  unfold mesh_consistent.
  cbn [particles indices vertices gridWidth gridHeight set_indices
       set_vertices].
  split; [reflexivity|].
  intros k (yx & _ & Hk)%in_flat_map.
  apply quad_triangles_active in Hk as (g & p & Ep & Ha & ->).
  exists g, p. auto.
Qed.

Lemma grid_ok_frame c c' :
  particles c' = particles c -> gridWidth c' = gridWidth c ->
  gridHeight c' = gridHeight c -> grid_ok c -> grid_ok c'.
Proof. unfold grid_ok. intros -> -> ->. auto. Qed.

Lemma updateVertexData_total c :
  grid_ok c -> exists c', updateVertexData c = Ok c'.
Proof.
  intros Hok. destruct (mesh_spec c Hok) as (vs & Em & _).
  unfold updateVertexData. rewrite Em. cbn [bind]. eauto.
Qed.

Lemma dims_updateVertexData c c' :
  updateVertexData c = Ok c' ->
  gridWidth c' = gridWidth c /\ gridHeight c' = gridHeight c.
Proof. unfold updateVertexData. intros E. inv_bind. now subst c'. Qed.

(** [createClothGrid] returns on every grid without a negative dimension. *)
Lemma createClothGrid_total c :
  (0 <= gridWidth c)%Z -> (0 <= gridHeight c)%Z ->
  exists c', createClothGrid c = Ok c' /\ grid_ok c' /\
             gridWidth c' = gridWidth c /\ gridHeight c' = gridHeight c.
Proof.
  intros HW HH. unfold createClothGrid.
  pose proof (length_grid_particles c HW HH) as Hl.
  destruct (grid_springs_total _ _ _ Hl) as [ss ->]. cbn [bind].
  set (c1 := set_springs ss (set_particles (grid_particles c) c)).
  assert (Hok : grid_ok c1) by (unfold grid_ok; simpl; auto).
  destruct (updateVertexData_total c1 Hok) as [c' E].
  exists c'. split; [exact E|].
  destruct (dims_updateVertexData _ _ E) as [EW EH].
  pose proof (particles_updateVertexData _ _ E) as EP.
  split; [|split; [rewrite EW | rewrite EH]; reflexivity].
  eapply grid_ok_frame; eauto.
Qed.

End MeshTheorems.

(** ** Counting the springs of a grid *)

Lemma sumZ_app {A} (f : A -> Z) (l1 l2 : list A) :
  sumZ f (l1 ++ l2) = (sumZ f l1 + sumZ f l2)%Z.
Proof. induction l1 as [|a l1 IH]; simpl; [reflexivity | rewrite IH; lia]. Qed.

Lemma sumZ_map {A B} (g : A -> B) (f : B -> Z) (l : list A) :
  sumZ f (map g l) = sumZ (fun a => f (g a)) l.
Proof. induction l as [|a l IH]; simpl; [reflexivity | now rewrite IH]. Qed.

Lemma sumZ_ext {A} (f g : A -> Z) (l : list A) :
  (forall a, In a l -> f a = g a) -> sumZ f l = sumZ g l.
Proof.
  induction l as [|a l IH]; intros E; simpl; [reflexivity|].
  rewrite E by now left. rewrite IH; [reflexivity|].
  intros b Hb. apply E. now right.
Qed.

Lemma sumZ_add {A} (f g : A -> Z) (l : list A) :
  sumZ (fun a => (f a + g a)%Z) l = (sumZ f l + sumZ g l)%Z.
Proof. induction l as [|a l IH]; simpl; [reflexivity | rewrite IH; lia]. Qed.

Lemma sumZ_scale {A} (k : Z) (f : A -> Z) (l : list A) :
  sumZ (fun a => (k * f a)%Z) l = (k * sumZ f l)%Z.
Proof. induction l as [|a l IH]; simpl; [lia | rewrite IH; lia]. Qed.

Lemma sumZ_scale_r {A} (k : Z) (f : A -> Z) (l : list A) :
  sumZ (fun a => (f a * k)%Z) l = (sumZ f l * k)%Z.
Proof. induction l as [|a l IH]; simpl; [lia | rewrite IH; lia]. Qed.

Lemma sumZ_flat_map {A B} (g : A -> list B) (f : B -> Z) (l : list A) :
  sumZ f (flat_map g l) = sumZ (fun a => sumZ f (g a)) l.
Proof.
  induction l as [|a l IH]; simpl; [reflexivity|].
  now rewrite sumZ_app, IH.
Qed.

Lemma sumZ_const (k : Z) (n : nat) :
  sumZ (fun _ => k) (zrange (Z.of_nat n)) = (Z.of_nat n * k)%Z.
Proof.
  induction n as [|n IH]; [reflexivity|].
  rewrite zrange_S, sumZ_app, IH. simpl. lia.
Qed.

Lemma sumZ_below (a : Z) (n : nat) :
  sumZ (fun x => b2z (x <? a)%Z) (zrange (Z.of_nat n))
  = Z.max 0 (Z.min a (Z.of_nat n)).
Proof.
  induction n as [|n IH]; [simpl; lia|].
  rewrite zrange_S, sumZ_app, IH. simpl.
  destruct (Z.ltb_spec (Z.of_nat n) a); simpl; lia.
Qed.

Lemma sumZ_positive (n : nat) :
  sumZ (fun x => b2z (0 <? x)%Z) (zrange (Z.of_nat n))
  = Z.max 0 (Z.of_nat n - 1).
Proof.
  induction n as [|n IH]; [reflexivity|].
  rewrite zrange_S, sumZ_app, IH. simpl.
  destruct (Z.ltb_spec 0 (Z.of_nat n)); simpl; lia.
Qed.

(** A sum over the grid is a sum over the rows of sums over the columns. *)
Lemma sumZ_grid (f : Z * Z -> Z) (rows cols : Z) :
  sumZ f (grid_cells rows cols)
  = sumZ (fun y => sumZ (fun x => f (y, x)) (zrange cols)) (zrange rows).
Proof.
  unfold grid_cells. rewrite sumZ_flat_map. apply sumZ_ext.
  intros y _. now rewrite sumZ_map.
Qed.

Lemma count_in_app t (l1 l2 : list SpringType) :
  count_in t (l1 ++ l2) = (count_in t l1 + count_in t l2)%Z.
Proof. unfold count_in. rewrite List.filter_app, length_app. lia. Qed.

Lemma count_in_flat_map {A} t (g : A -> list SpringType) (l : list A) :
  count_in t (flat_map g l) = sumZ (fun a => count_in t (g a)) l.
Proof.
  induction l as [|a l IH]; simpl; [reflexivity|].
  now rewrite count_in_app, IH.
Qed.

Lemma count_in_total (l : list SpringType) :
  Z.of_nat (length l)
  = (count_in STRUCTURAL l + count_in SHEAR l + count_in BEND l)%Z.
Proof.
  unfold count_in. induction l as [|t l IH]; [reflexivity|].
  destruct t; simpl; lia.
Qed.

Lemma count_cell_types (W Ht y x : Z) :
  count_in STRUCTURAL (cell_types W Ht (y, x))
  = (b2z (x <? W - 1)%Z + b2z (y <? Ht - 1)%Z)%Z /\
  count_in SHEAR (cell_types W Ht (y, x))
  = (b2z (y <? Ht - 1)%Z * b2z (x <? W - 1)%Z
     + b2z (y <? Ht - 1)%Z * b2z (0 <? x)%Z)%Z /\
  count_in BEND (cell_types W Ht (y, x))
  = (b2z (x <? W - 2)%Z + b2z (y <? Ht - 2)%Z)%Z.
Proof.
  unfold cell_types.
  destruct (x <? W - 1)%Z, (y <? Ht - 1)%Z, (0 <? x)%Z, (x <? W - 2)%Z,
    (y <? Ht - 2)%Z; repeat split; reflexivity.
Qed.

(** The counts of the three types in a grid of [rows] by [cols] cells. *)
Lemma count_grid_types (rows cols : nat) :
  let W := Z.of_nat cols in
  let Ht := Z.of_nat rows in
  let ts := flat_map (cell_types W Ht) (grid_cells Ht W) in
  (2 <= cols)%nat -> (2 <= rows)%nat ->
  count_in STRUCTURAL ts = (Ht * (W - 1) + W * (Ht - 1))%Z /\
  count_in SHEAR ts = (2 * (W - 1) * (Ht - 1))%Z /\
  count_in BEND ts = (Ht * Z.max (W - 2) 0 + W * Z.max (Ht - 2) 0)%Z.
Proof.
  intros W Ht ts HW HH. subst ts. rewrite !count_in_flat_map, !sumZ_grid.
  repeat split.
  - erewrite sumZ_ext.
    2:{ intros y _. erewrite sumZ_ext.
        2:{ intros x _. apply (count_cell_types W Ht y x). }
        rewrite sumZ_add. subst W. rewrite sumZ_below, sumZ_const.
        reflexivity. }
    rewrite sumZ_add. subst Ht. rewrite sumZ_const, sumZ_scale, sumZ_below.
    lia.
  - erewrite sumZ_ext.
    2:{ intros y _. erewrite sumZ_ext.
        2:{ intros x _. apply (count_cell_types W Ht y x). }
        rewrite sumZ_add, !sumZ_scale. subst W.
        rewrite sumZ_below, sumZ_positive. reflexivity. }
    rewrite sumZ_add, !sumZ_scale_r. subst Ht. rewrite sumZ_below. nia.
  - erewrite sumZ_ext.
    2:{ intros y _. erewrite sumZ_ext.
        2:{ intros x _. apply (count_cell_types W Ht y x). }
        rewrite sumZ_add. subst W. rewrite sumZ_below, sumZ_const.
        reflexivity. }
    rewrite sumZ_add. subst Ht. rewrite sumZ_const, sumZ_scale, sumZ_below.
    lia.
Qed.

Section Sizes.
Context {F : Type} `{Scalar F}.
Implicit Types (c : ClothSystem F) (ps : list (Particle.t F)).

Lemma spring_if_types (g : bool) ps a b k t l :
  spring_if g ps a b k t = Ok l ->
  map Spring.type l = if g then [t] else [].
Proof.
  unfold spring_if. destruct g; intros E; inv_bind; now subst l.
Qed.

Lemma cell_springs_types ps (W Ht : Z) (yx : Z * Z) l :
  cell_springs ps W Ht yx = Ok l -> map Spring.type l = cell_types W Ht yx.
Proof.
  destruct yx as [y x]. unfold cell_springs, cell_types. intros E. inv_bind.
  subst l. rewrite !map_app.
  repeat match goal with
    | E : spring_if _ _ _ _ _ _ = Ok _ |- _ =>
        apply spring_if_types in E; rewrite E; clear E
    end.
  reflexivity.
Qed.

Lemma grid_springs_types ps (W Ht : Z) l :
  grid_springs ps W Ht = Ok l ->
  map Spring.type l = flat_map (cell_types W Ht) (grid_cells Ht W).
Proof.
  unfold grid_springs. intros E. inv_bind. subst l.
  apply mapM_Ok_Forall2 in E0.
  induction E0 as [|yx l cells ls E1 _ IH]; [reflexivity|].
  simpl. rewrite map_app, IH. f_equal. eauto using cell_springs_types.
Qed.

Lemma createClothGrid_counts c :
  (2 <= gridWidth c)%Z -> (2 <= gridHeight c)%Z ->
  exists c', createClothGrid c = Ok c' /\
             grid_counts (gridWidth c) (gridHeight c) c'.
Proof.
  intros HW HH.
  destruct (createClothGrid_total c) as (c' & E & (_ & _ & Hl) & EW & EH);
    try lia.
  exists c'. split; [exact E|].
  destruct (createClothGrid_inv _ _ E) as [_ Es].
  apply grid_springs_types in Es.
  unfold grid_counts, count_type.
  rewrite <- (length_map Spring.type (springs c')), <- count_in_total.
  rewrite Es, Hl, EW, EH.
  split; [nia|].
  rewrite <- (Z2Nat.id (gridWidth c)), <- (Z2Nat.id (gridHeight c)) by lia.
  pose proof (count_grid_types (Z.to_nat (gridHeight c))
                (Z.to_nat (gridWidth c))) as G.
  cbv zeta in G. destruct G as (E1 & E2 & E3); [lia | lia |].
  rewrite E1, E2, E3. repeat split.
Qed.

(** C5.  For a grid of width [W >= 2] and height [Ht >= 2], the
    constructor and [reset] return, and the object then holds [W * Ht]
    particles, [Ht * (W - 1) + W * (Ht - 1)] structural springs,
    [2 * (W - 1) * (Ht - 1)] shear springs and
    [Ht * max (W - 2) 0 + W * max (Ht - 2) 0] bend springs, and no spring
    of another kind. *)
Theorem grid_sizes (W Ht : Z) :
  (2 <= W)%Z -> (2 <= Ht)%Z ->
  (forall st w h,
     exists c, ClothSystem_new st W Ht w h = Ok c /\ grid_counts W Ht c) /\
  (forall c0, gridWidth c0 = W -> gridHeight c0 = Ht ->
     exists c, reset c0 = Ok c /\ grid_counts W Ht c).
Proof.
  intros HW HH. split.
  - intros st w h. unfold ClothSystem_new.
    now apply createClothGrid_counts.
  - intros c0 <- <-. unfold reset. now apply createClothGrid_counts.
Qed.

(** C3, as the code has it.  The constructor checks nothing: for every
    width and height that are not negative, the values 0 and 1 included, it
    returns an object of those dimensions with [width * height]
    particles. *)
Theorem construction_unchecked (st : Statics.t F) (width height : Z)
    (w h : F) :
  (0 <= width)%Z -> (0 <= height)%Z ->
  exists c,
    ClothSystem_new st width height w h = Ok c /\
    gridWidth c = width /\ gridHeight c = height /\
    Z.of_nat (length (particles c)) = (width * height)%Z.
Proof.
  intros HW HH. unfold ClothSystem_new.
  match goal with |- context [createClothGrid ?c0] =>
    destruct (createClothGrid_total c0) as (c & E & (_ & _ & Hl) & EW & EH)
  end; auto.
  exists c. simpl in *. repeat split; auto. rewrite Hl, EW, EH. nia.
Qed.

(** C6.  After the constructor or [reset], both ends of every spring are
    particles of the grid, and its rest length is the value that
    [glm::length] computes for the difference of their positions. *)
Theorem rest_lengths_initial c :
  (exists st width height w h, ClothSystem_new st width height w h = Ok c) \/
  (exists c0, reset c0 = Ok c) ->
  Forall (fun sp =>
            exists p1 p2,
              vec_at (particles c) (Spring.particle1 sp) = Ok p1 /\
              vec_at (particles c) (Spring.particle2 sp) = Ok p2 /\
              Spring.restLength sp
              = length3 (vsub (Particle.position p2) (Particle.position p1)))
         (springs c).
Proof.
  intros Hc.
  assert (E : exists c0, createClothGrid c0 = Ok c).
  { destruct Hc as [(st & width & height & w & h & E) | [c0 E]]; eauto. }
  destruct E as [c0 E]. apply createClothGrid_inv in E as [-> E].
  eapply grid_springs_Forall; [|exact E].
  intros a b pa pb k t Ea Eb. exists pa, pb. simpl. auto.
Qed.

End Sizes.

(** ** reset *)

Section Reset.
Context {F : Type} `{Scalar F}.
Implicit Types (c : ClothSystem F).

Lemma grid_particles_active c :
  Forall (fun p => Particle.active p = true) (grid_particles c).
Proof.
  unfold grid_particles. apply Forall_forall.
  intros p (yx & <- & _)%list_elem_of_In%in_map_iff.
  destruct yx as [y x]. unfold grid_particle.
  destruct (y =? gridHeight c - 1)%Z; reflexivity.
Qed.

Lemma createClothGrid_fixpoint c c1 :
  createClothGrid c = Ok c1 -> createClothGrid c1 = Ok c1.
Proof.
  unfold createClothGrid, updateVertexData. intros E. inv_bind. subst c1.
  change (grid_particles (set_indices _ _)) with (grid_particles c).
  cbn [gridWidth gridHeight set_indices set_vertices set_springs
       set_particles].
  rewrite E0. cbn [bind].
  match goal with
  | |- context [mesh ?c2] =>
      change (mesh c2)
        with (mesh (set_springs r (set_particles (grid_particles c) c)))
  end.
  rewrite E1. cbn [bind]. destruct c; reflexivity.
Qed.

(** [createClothGrid] reads the dimensions of the grid and the extents of
    the cloth and nothing else: two objects that agree on these four get the
    same particles, springs and mesh. *)
Lemma createClothGrid_reads c c0 c1 :
  gridWidth c0 = gridWidth c -> gridHeight c0 = gridHeight c ->
  clothWidth c0 = clothWidth c -> clothHeight c0 = clothHeight c ->
  createClothGrid c = Ok c1 ->
  exists cn,
    createClothGrid c0 = Ok cn /\
    particles c1 = particles cn /\ springs c1 = springs cn /\
    vertices c1 = vertices cn /\ indices c1 = indices cn.
Proof.
  intros EW EH Ew Eh E. destruct c, c0. simpl in EW, EH, Ew, Eh. subst.
  unfold createClothGrid, updateVertexData in *. cbn [gridWidth gridHeight] in *.
  apply bind_Ok in E. destruct E as (ss & Es & E).
  apply bind_Ok in E. destruct E as (m & Em & E).
  apply Ok_inj in E. subst c1.
  match type of Es with
  | grid_springs (grid_particles ?a) _ _ = _ =>
      match goal with
      | |- context [grid_particles ?b] =>
          change (grid_particles b) with (grid_particles a)
      end
  end.
  rewrite Es. cbn [bind].
  match type of Em with
  | mesh ?a = _ =>
      match goal with
      | |- context [mesh ?b] => change (mesh b) with (mesh a)
      end
  end.
  rewrite Em. cbn [bind]. eexists. split; [reflexivity|].
  repeat split.
Qed.

(** C9.  [reset] twice in a row gives what [reset] once gives, whatever the
    state.  When [reset] returns a state, a further [reset] returns that
    very state; every particle and every spring of it is active; its
    particles are the particles of the grid and its springs the springs
    built over them; and its particles, springs, vertex buffer and index
    buffer are those of an object freshly constructed with the same
    dimensions and extents.  On every grid without a negative dimension
    [reset] does return, with one particle per cell, with a mesh that agrees
    with the particles, and, from 2 by 2 on, with the full count of springs
    of each type. *)
Theorem reset_idempotent c :
  run [Reset; Reset] c = run [Reset] c /\
  (forall c1, reset c = Ok c1 ->
     reset c1 = Ok c1 /\
     Forall (fun p => Particle.active p = true) (particles c1) /\
     Forall (fun sp => Spring.active sp = true) (springs c1) /\
     particles c1 = grid_particles c /\
     grid_springs (grid_particles c) (gridWidth c) (gridHeight c)
     = Ok (springs c1) /\
     (forall st, exists cn,
        ClothSystem_new st (gridWidth c) (gridHeight c) (clothWidth c)
          (clothHeight c) = Ok cn /\
        particles c1 = particles cn /\ springs c1 = springs cn /\
        vertices c1 = vertices cn /\ indices c1 = indices cn)) /\
  ((0 <= gridWidth c)%Z -> (0 <= gridHeight c)%Z ->
   exists c1, reset c = Ok c1 /\
     Z.of_nat (length (particles c1)) = (gridWidth c * gridHeight c)%Z /\
     mesh_consistent c1 /\
     ((2 <= gridWidth c)%Z -> (2 <= gridHeight c)%Z ->
      grid_counts (gridWidth c) (gridHeight c) c1)).
Proof.
  unfold reset. split; [|split].
  - unfold run. simpl. unfold reset.
    destruct (createClothGrid c) as [c1|e] eqn:E; simpl; [|reflexivity].
    now rewrite (createClothGrid_fixpoint _ _ E).
  - intros c1 E. split; [|split; [|split; [|split; [|split]]]].
    + now apply (createClothGrid_fixpoint c).
    + apply createClothGrid_inv in E as [-> _]. apply grid_particles_active.
    + eauto using createClothGrid_springs_active.
    + now apply createClothGrid_inv in E.
    + now apply createClothGrid_inv in E.
    + intros st. unfold ClothSystem_new.
      apply (createClothGrid_reads c); auto.
  - intros HW HH.
    destruct (createClothGrid_total c HW HH) as (c1 & E & Hok & EW & EH).
    exists c1. split; [exact E|]. split; [|split].
    + destruct Hok as (HW1 & HH1 & Hl). rewrite Hl, EW, EH. lia.
    + unfold createClothGrid in E. apply bind_Ok in E.
      destruct E as (ss & _ & E).
      destruct (updateVertexData_consistent
                  (set_springs ss (set_particles (grid_particles c) c)))
        as (c2 & E2 & _ & Hm).
      * unfold grid_ok. simpl. split; [exact HW|]. split; [exact HH|].
        now apply length_grid_particles.
      * rewrite E in E2. apply Ok_inj in E2. now subst c2.
    + intros HW2 HH2.
      destruct (createClothGrid_counts c HW2 HH2) as (c2 & E2 & Hc).
      rewrite E in E2. apply Ok_inj in E2. now subst c2.
Qed.

End Reset.

(** ** handleMouseInteraction *)

Section Tear.
Context {F : Type} `{Scalar F}.
Variable mousePos : vec3 F.
Implicit Types (c : ClothSystem F) (ps : list (Particle.t F))
  (ss : list (Spring.t F)).

Lemma set_active_twice (sp : Spring.t F) :
  Spring.set_active false (Spring.set_active false sp)
  = Spring.set_active false sp.
Proof. reflexivity. Qed.

Lemma lookup_tear_particles_below m ps (i : nat) :
  tear_particles_below mousePos m ps !! i
  = (fun p => if (i <? m)%nat then tear_particle mousePos p else p)
      <$> ps !! i.
Proof. unfold tear_particles_below. apply list_lookup_imap. Qed.

Lemma torn_below_S ps (m : nat) p (j : Z) :
  ps !! m = Some p ->
  torn_below mousePos ps (S m) j
  = torn_below mousePos ps m j
    || ((j =? Z.of_nat m)%Z && in_tear_range mousePos p).
Proof.
  intros Ep. unfold torn_below.
  destruct (Z.leb_spec 0 j); simpl.
  - destruct (Z.eqb_spec j (Z.of_nat m)) as [->|Hne].
    + rewrite Nat2Z.id, Ep.
      rewrite (proj2 (Nat.ltb_lt m (S m))) by lia.
      rewrite (proj2 (Nat.ltb_ge m m)) by lia. reflexivity.
    + rewrite orb_false_r.
      destruct (Nat.ltb_spec (Z.to_nat j) (S m)),
        (Nat.ltb_spec (Z.to_nat j) m); try reflexivity; lia.
  - destruct (Z.eqb_spec j (Z.of_nat m)); [lia | reflexivity].
Qed.

Lemma tear_step_below ps ss (m : nat) :
  (m < length ps)%nat ->
  tear_step mousePos
    (tear_particles_below mousePos m ps,
     tear_springs_below mousePos ps m ss) m
  = (tear_particles_below mousePos (S m) ps,
     tear_springs_below mousePos ps (S m) ss).
Proof.
  intros Hm. destruct (lookup_lt_is_Some_2 _ _ Hm) as [p Ep].
  unfold tear_step. cbn [fst snd].
  rewrite lookup_tear_particles_below, Ep. cbn [fmap option_fmap option_map].
  rewrite (proj2 (Nat.ltb_ge m m)) by lia.
  assert (Hps : forall q,
            q = tear_particle mousePos p ->
            <[m := q]> (tear_particles_below mousePos m ps)
            = tear_particles_below mousePos (S m) ps).
  { intros q ->. apply list_eq. intros i.
    destruct (decide (i = m)) as [->|Hne].
    - rewrite list_lookup_insert_eq
        by (unfold tear_particles_below; now rewrite length_imap).
      rewrite lookup_tear_particles_below, Ep. simpl.
      now rewrite (proj2 (Nat.ltb_lt m (S m))) by lia.
    - rewrite list_lookup_insert_ne by auto.
      rewrite !lookup_tear_particles_below.
      destruct (ps !! i); simpl; [|reflexivity].
      destruct (Nat.ltb_spec i m), (Nat.ltb_spec i (S m));
        try reflexivity; lia. }
  destruct (in_tear_range mousePos p) eqn:Ein.
  - f_equal.
    + apply Hps. unfold tear_particle. now rewrite Ein.
    + unfold cut_springs, tear_springs_below. rewrite map_map.
      apply map_ext. intros sp.
      rewrite !(torn_below_S ps m p _ Ep), Ein, !andb_true_r.
      destruct (torn_below mousePos ps m (Spring.particle1 sp)),
        (torn_below mousePos ps m (Spring.particle2 sp)); simpl;
        destruct (Spring.particle1 sp =? Z.of_nat m)%Z,
          (Spring.particle2 sp =? Z.of_nat m)%Z; reflexivity.
  - f_equal.
    + rewrite <- (Hps p).
      * symmetry. apply list_insert_id.
        rewrite lookup_tear_particles_below, Ep.
        simpl. now rewrite (proj2 (Nat.ltb_ge m m)) by lia.
      * unfold tear_particle. now rewrite Ein.
    + unfold tear_springs_below. apply map_ext. intros sp.
      now rewrite !(torn_below_S ps m p _ Ep), Ein, !andb_false_r,
        !orb_false_r.
Qed.

Lemma tear_loop_below ps ss (m : nat) :
  (m <= length ps)%nat ->
  fold_left (tear_step mousePos) (seq 0 m) (ps, ss)
  = (tear_particles_below mousePos m ps,
     tear_springs_below mousePos ps m ss).
Proof.
  induction m as [|m IH]; intros Hm.
  - simpl. f_equal.
    + apply list_eq. intros i. rewrite lookup_tear_particles_below.
      now destruct (ps !! i).
    + unfold tear_springs_below. rewrite <- (map_id ss) at 1.
      apply map_ext. intros sp. unfold torn_below.
      now rewrite !andb_false_r.
  - rewrite seq_S, fold_left_app, IH by lia. simpl.
    apply tear_step_below. lia.
Qed.

Lemma tear_particles_below_all ps :
  tear_particles_below mousePos (length ps) ps
  = map (tear_particle mousePos) ps.
Proof.
  apply list_eq. intros i. rewrite lookup_tear_particles_below.
  change (map ?f ?l) with (f <$> l). rewrite list_lookup_fmap.
  destruct (ps !! i) eqn:E; simpl; [|reflexivity].
  apply lookup_lt_Some in E.
  now rewrite (proj2 (Nat.ltb_lt i (length ps))) by lia.
Qed.

Lemma torn_below_all ps (j : Z) :
  torn_below mousePos ps (length ps) j = torn mousePos ps j.
Proof.
  unfold torn_below, torn. destruct (0 <=? j)%Z; simpl; [|reflexivity].
  destruct (ps !! Z.to_nat j) eqn:E.
  - apply lookup_lt_Some in E.
    now rewrite (proj2 (Nat.ltb_lt _ (length ps))) by lia.
  - now rewrite andb_false_r.
Qed.

(** C8.  With [tearing] set, [handleMouseInteraction] clears [active] on
    exactly the active particles whose computed distance from [mousePos] is
    below [0.08f] and on exactly the springs that have such a particle at an
    end, and changes nothing else; without [tearing] it changes nothing. *)
Theorem handleMouseInteraction_spec c :
  handleMouseInteraction mousePos true c
  = set_springs (map (tear_spring mousePos (particles c)) (springs c))
      (set_particles (map (tear_particle mousePos) (particles c)) c) /\
  handleMouseInteraction mousePos false c = c.
Proof.
  split; [|reflexivity]. unfold handleMouseInteraction. cbn [negb].
  rewrite tear_loop_below by lia. cbn [fst snd].
  rewrite tear_particles_below_all. f_equal.
  unfold tear_springs_below, tear_spring. apply map_ext. intros sp.
  now rewrite !torn_below_all.
Qed.

End Tear.

(** ** Tearing is permanent *)

Section Monotone.
Context {F : Type} `{Scalar F}.
Implicit Types (c : ClothSystem F).

(** C4.  Along any sequence of calls other than [reset] and [setMode]
    (updates of any length with any parameter changes and any mouse
    interaction in between), the spring container keeps its size and a
    spring that is inactive stays exactly as it is; [reset] and [setMode]
    return a container in which every spring is active. *)
Theorem tearing_monotone (ks : list call) c c' :
  forallb (fun k => negb (rebuilds k)) ks = true ->
  run ks c = Ok c' ->
  length (springs c') = length (springs c) /\
  (forall i sp, springs c !! i = Some sp -> Spring.active sp = false ->
     springs c' !! i = Some sp) /\
  (forall c'', reset c' = Ok c'' \/ (exists mode, setMode mode c' = Ok c'') ->
     Forall (fun sp => Spring.active sp = true) (springs c'')).
Proof.
  intros Hks E. pose proof (run_decays ks c c' Hks E) as Hd.
  split; [|split].
  - symmetry. eapply Forall2_length, Hd.
  - intros i sp Ei Ha.
    destruct (Forall2_lookup_l _ _ _ _ _ Hd Ei) as (sp' & Ei' & Hsp).
    now rewrite (decays_inactive _ _ Hsp Ha) in Ei'.
  - intros c'' [Er | [mode Em]].
    + eauto using createClothGrid_springs_active.
    + eauto using setMode_springs_active.
Qed.

End Monotone.

(** ** The velocity member *)

Section Velocity.
Context {F : Type} `{Scalar F}.
Implicit Types (c : ClothSystem F) (p : Particle.t F)
  (ps : list (Particle.t F)).

Lemma velocity_applyForces_step c g p :
  Particle.velocity (fst (applyForces_step c g p)) = Particle.velocity p.
Proof.
  unfold applyForces_step, applyWindForce.
  destruct (_ || _); [reflexivity|]. destruct (fltb _ (windStrength c));
    [|reflexivity]. simpl. destruct fltb; reflexivity.
Qed.

Lemma velocity_applyForces_loop c g ps :
  map Particle.velocity (fst (applyForces_loop c g ps))
  = map Particle.velocity ps.
Proof.
  revert g. induction ps as [|p ps IH]; intros g; simpl; [reflexivity|].
  pose proof (velocity_applyForces_step c g p) as E.
  destruct (applyForces_step c g p) as [p' g'].
  specialize (IH g'). destruct (applyForces_loop c g' ps) as [ps' g''].
  simpl in *. now rewrite E, IH.
Qed.

Lemma velocity_integrate_step c dt p :
  Particle.velocity (integrate_step c dt p) = Particle.velocity p.
Proof. unfold integrate_step. destruct (_ || _); reflexivity. Qed.

Lemma velocity_collide (ss : list (CollisionSphere.t F)) p :
  Particle.velocity (collide ss p) = Particle.velocity p.
Proof.
  unfold collide. destruct (negb _); [reflexivity|].
  assert (G : forall q, Particle.velocity (fold_left collide_sphere ss q)
                        = Particle.velocity q).
  { induction ss as [|s ss IH]; intros q; simpl; [reflexivity|].
    rewrite IH. unfold collide_sphere. destruct fltb; reflexivity. }
  unfold collide_ground. destruct fltb; simpl; apply G.
Qed.

Lemma velocities_zero_map (f : Particle.t F -> Particle.t F) ps :
  (forall p, Particle.velocity (f p) = Particle.velocity p) ->
  velocities_zero ps -> velocities_zero (map f ps).
Proof.
  intros Hf Hps. unfold velocities_zero in *. apply Forall_map.
  eapply Forall_impl; [exact Hps|]. intros p Hp. simpl. now rewrite Hf.
Qed.

Lemma velocities_zero_same ps ps' :
  map Particle.velocity ps' = map Particle.velocity ps ->
  velocities_zero ps -> velocities_zero ps'.
Proof.
  unfold velocities_zero. intros E Hps.
  apply (Forall_map Particle.velocity (fun v => v = splat (ofZ 0))) in Hps.
  apply (Forall_map Particle.velocity (fun v => v = splat (ofZ 0))).
  now rewrite E.
Qed.

Lemma velocities_zero_set ps (i : Z) p ps' :
  velocities_zero ps -> Particle.velocity p = splat (ofZ 0) ->
  vec_set ps i p = Ok ps' -> velocities_zero ps'.
Proof.
  intros Hps Hp (_ & _ & ->)%vec_set_Ok. now apply Forall_insert.
Qed.

Lemma velocities_zero_at ps (i : Z) p :
  velocities_zero ps -> vec_at ps i = Ok p ->
  Particle.velocity p = splat (ofZ 0).
Proof.
  intros Hps [_ E]%vec_at_Ok.
  exact (Forall_lookup_1 _ _ _ _ Hps E).
Qed.

Lemma velocities_zero_nudge ps (b : bool) (i j : Z) v q ps1 :
  velocities_zero ps -> vec_at ps j = Ok q ->
  (if b then Ok ps else vec_set ps i (Particle.set_position v q)) = Ok ps1 ->
  velocities_zero ps1.
Proof.
  intros Hps Eq E. destruct b.
  - apply Ok_inj in E. now subst.
  - eapply velocities_zero_set; [exact Hps| |exact E]. simpl.
    eauto using velocities_zero_at.
Qed.

Lemma velocities_zero_constrain thr ps sp ps' sp' :
  velocities_zero ps -> constrain thr ps sp = Ok (ps', sp') ->
  velocities_zero ps'.
Proof.
  intros Hps. unfold constrain. intros E.
  destruct (negb (Spring.active sp)); [injection E as <- _; exact Hps|].
  apply bind_Ok in E as (p1 & E1 & E). apply bind_Ok in E as (p2 & E2 & E).
  destruct (_ || _); [injection E as <- _; exact Hps|].
  destruct (fltb _ (lit 1 1000000)); [injection E as <- _; exact Hps|].
  apply bind_Ok in E as (t & _ & E).
  destruct t; [injection E as <- _; exact Hps|].
  apply bind_Ok in E as (ps1 & G1 & E). apply bind_Ok in E as (q2 & E3 & E).
  apply bind_Ok in E as (ps2 & G2 & E). injection E as <- _.
  apply (velocities_zero_nudge _ _ _ _ _ _ _ Hps E1) in G1.
  apply (velocities_zero_nudge _ _ _ _ _ _ _ G1 E3) in G2.
  exact G2.
Qed.

Lemma velocities_zero_constrain_all thr ps ss ps' ss' :
  velocities_zero ps -> constrain_all thr ps ss = Ok (ps', ss') ->
  velocities_zero ps'.
Proof.
  revert ps ps' ss'. induction ss as [|sp ss IH]; intros ps ps' ss' Hps E;
    simpl in E.
  - injection E as <- _. exact Hps.
  - inv_bind. destruct r as [ps1 sp1], r0 as [ps2 ss2]. simpl in *.
    injection E as <- _. eauto using velocities_zero_constrain.
Qed.

Lemma velocities_zero_satisfyConstraints c c' :
  velocities_zero (particles c) -> satisfyConstraints c = Ok c' ->
  velocities_zero (particles c').
Proof.
  unfold satisfyConstraints. intros Hc E. inv_bind. subst c'. simpl.
  destruct r. eauto using velocities_zero_constrain_all.
Qed.

Lemma particles_updateObjectMovement dt c :
  particles (updateObjectMovement dt c) = particles c.
Proof.
  unfold updateObjectMovement. destruct (spheres c); [reflexivity|].
  destruct (Statics.goingForward _); reflexivity.
Qed.

Lemma particles_updateWindVariation dt c :
  particles (updateWindVariation dt c) = particles c.
Proof. unfold updateWindVariation. destruct fltb; reflexivity. Qed.

Lemma velocities_zero_applyForces c :
  velocities_zero (particles c) -> velocities_zero (particles (applyForces c)).
Proof.
  intros Hc. unfold applyForces.
  pose proof (velocity_applyForces_loop c (Statics.drawn (statics c))
                (particles c)) as E.
  destruct applyForces_loop as [ps g]. simpl in *.
  eauto using velocities_zero_same.
Qed.

Lemma velocities_zero_substep c c' :
  velocities_zero (particles c) -> substep c = Ok c' ->
  velocities_zero (particles c').
Proof.
  unfold substep. intros Hc E. inv_bind. subst c'. simpl.
  apply velocities_zero_map; [apply velocity_collide|].
  repeat (eapply velocities_zero_satisfyConstraints; [|eassumption]).
  simpl. apply velocities_zero_map; [apply velocity_integrate_step|].
  now apply velocities_zero_applyForces.
Qed.

Lemma velocities_zero_update_loop fuel c c' :
  velocities_zero (particles c) -> update_loop fuel c = Ok c' ->
  velocities_zero (particles c').
Proof.
  revert c. induction fuel as [|fuel IH]; intros c Hc E; simpl in E;
    case_if_in E; try discriminate; inv_bind; try (now subst).
  eauto using velocities_zero_substep.
Qed.

Lemma velocities_zero_update fuel dt c c' :
  velocities_zero (particles c) -> update fuel dt c = Ok c' ->
  velocities_zero (particles c').
Proof.
  unfold update. intros Hc E. inv_bind.
  rewrite (particles_updateVertexData _ _ E).
  rewrite particles_updateWindVariation, particles_updateObjectMovement.
  eapply velocities_zero_update_loop; [|exact E0]. exact Hc.
Qed.

Lemma velocities_zero_grid c : velocities_zero (grid_particles c).
Proof.
  unfold grid_particles. apply Forall_forall.
  intros p (yx & <- & _)%list_elem_of_In%in_map_iff.
  destruct yx as [y x]. unfold grid_particle.
  destruct (y =? gridHeight c - 1)%Z; reflexivity.
Qed.

Lemma velocities_zero_createClothGrid c c' :
  createClothGrid c = Ok c' -> velocities_zero (particles c').
Proof. intros [-> _]%createClothGrid_inv. apply velocities_zero_grid. Qed.

Lemma velocities_zero_pin ps (i : Z) ps' :
  velocities_zero ps -> pin ps i = Ok ps' -> velocities_zero ps'.
Proof.
  unfold pin. intros Hps E. inv_bind.
  eapply velocities_zero_set; [exact Hps| |exact E]. simpl.
  eauto using velocities_zero_at.
Qed.

Lemma velocities_zero_pin_top_row c c' :
  velocities_zero (particles c) -> pin_top_row c = Ok c' ->
  velocities_zero (particles c').
Proof.
  unfold pin_top_row. intros Hc E. inv_bind. subst c'. simpl.
  eapply (foldM_invariant pin velocities_zero); [|exact Hc|exact E0].
  intros ps i ps'. apply velocities_zero_pin.
Qed.

Lemma velocities_zero_setMode mode c c' :
  setMode mode c = Ok c' -> velocities_zero (particles c').
Proof.
  unfold setMode, reset. intros E. inv_bind.
  apply velocities_zero_createClothGrid in E0.
  destruct mode.
  - eapply velocities_zero_pin_top_row; [|exact E]. exact E0.
  - inv_bind. subst c'. simpl in *.
    eauto using velocities_zero_pin.
  - eapply velocities_zero_pin_top_row; [|exact E]. exact E0.
Qed.

Lemma velocities_zero_tear_step pos
    (st : list (Particle.t F) * list (Spring.t F)) (i : nat) :
  velocities_zero (fst st) -> velocities_zero (fst (tear_step pos st i)).
Proof.
  intros Hs. unfold tear_step. destruct (fst st !! i) as [p|] eqn:E; [|auto].
  destruct (in_tear_range pos p); [|auto]. simpl.
  apply Forall_insert; [exact Hs|]. simpl.
  exact (Forall_lookup_1 _ _ _ _ Hs E).
Qed.

Lemma velocities_zero_handleMouseInteraction pos tearing c :
  velocities_zero (particles c) ->
  velocities_zero (particles (handleMouseInteraction pos tearing c)).
Proof.
  intros Hc. unfold handleMouseInteraction. destruct tearing; [|exact Hc].
  simpl.
  assert (G : forall l st, velocities_zero (fst st) ->
                velocities_zero (fst (fold_left (tear_step pos) l st))).
  { induction l as [|i l IH]; intros st Hs; simpl; [exact Hs|].
    apply IH. now apply velocities_zero_tear_step. }
  now apply G.
Qed.

Lemma velocities_zero_exec k c c' :
  velocities_zero (particles c) -> exec k c = Ok c' ->
  velocities_zero (particles c').
Proof.
  intros Hc. destruct k; simpl; intros E;
    try (apply Ok_inj in E; subst c'; simpl; exact Hc).
  - eauto using velocities_zero_update.
  - eauto using velocities_zero_setMode.
  - eauto using velocities_zero_createClothGrid.
  - apply Ok_inj in E. subst c'.
    now apply velocities_zero_handleMouseInteraction.
Qed.

Lemma velocities_zero_reachable c :
  reachable c -> velocities_zero (particles c).
Proof.
  induction 1 as [st width height w h c E | k c c' _ IH E].
  - unfold ClothSystem_new in E. eauto using velocities_zero_createClothGrid.
  - eauto using velocities_zero_exec.
Qed.

(** C10.  In every state that the constructor and the calls of the
    interface can reach, the velocity of every particle is the
    [vec3(0.0f)] of its constructor; hence the relative velocity that
    [applyWindForce] forms is [wind - vec3(0.0f)], and it is [wind] itself in
    an arithmetic where subtracting [0.0f] changes nothing, as in
    IEEE-754. *)
Theorem velocity_never_written c :
  reachable c ->
  (forall x : F, fsub x (ofZ 0) = x) ->
  velocities_zero (particles c) /\
  (forall p wind, In p (particles c) -> relativeVelocity wind p = wind).
Proof.
  intros Hc Hsub. pose proof (velocities_zero_reachable c Hc) as Hz.
  split; [exact Hz|].
  intros p wind Hp. unfold relativeVelocity.
  rewrite (proj1 (Forall_forall _ _) Hz p) by now apply list_elem_of_In.
  destruct wind as [a b d]. unfold vsub, splat. simpl.
  now rewrite !Hsub.
Qed.

End Velocity.

(** ** Collisions *)

Section Collisions.
Context {F : Type} `{Scalar F}.
Implicit Types (c : ClothSystem F) (p : Particle.t F)
  (s : CollisionSphere.t F).

Lemma collide_sphere_miss p s :
  penetrates p s = false -> collide_sphere p s = p.
Proof. unfold penetrates, collide_sphere. now intros ->. Qed.

Lemma collide_sphere_hit p s :
  penetrates p s = true ->
  Particle.position (collide_sphere p s) = surface_point p s.
Proof. unfold penetrates, collide_sphere. now intros ->. Qed.

Lemma collide_ground_above p :
  below_ground p = false -> collide_ground p = p.
Proof. unfold below_ground, collide_ground. now intros ->. Qed.

(** In any arithmetic, a collision pass over a list with one sphere leaves
    every active particle that the ground clamp does not move in one of two
    places: where it was, if the test [distance < radius] failed for it, or
    else at [center + normal * radius] as the arithmetic computes it. *)
Lemma collision_pass_one_sphere c s (i : nat) p :
  spheres c = [s] ->
  particles c !! i = Some p ->
  Particle.active p = true ->
  exists p',
    particles (handleCollisions c) !! i = Some p' /\
    (below_ground (collide_sphere p s) = false ->
     (penetrates p s = false /\ p' = p) \/
     (penetrates p s = true /\ Particle.position p' = surface_point p s)).
Proof.
  intros Es Ep Ha. exists (collide [s] p). split.
  - unfold handleCollisions. simpl. rewrite Es.
    change (map ?f ?l) with (f <$> l). now rewrite list_lookup_fmap, Ep.
  - intros Hg. unfold collide. rewrite Ha. simpl.
    rewrite (collide_ground_above _ Hg).
    destruct (penetrates p s) eqn:Hp.
    + right. split; [reflexivity|]. now apply collide_sphere_hit.
    + left. split; [reflexivity|]. now apply collide_sphere_miss.
Qed.

(** The stages before the collision pass do not move a pinned particle. *)
Lemma applyForces_step_pinned c g p :
  Particle.pinned p = true -> applyForces_step c g p = (p, g).
Proof. unfold applyForces_step. intros ->. now rewrite orb_true_r. Qed.

Lemma integrate_step_pinned c dt p :
  Particle.pinned p = true -> integrate_step c dt p = p.
Proof. unfold integrate_step. now intros ->. Qed.

Lemma nudge_pinned (ps : list (Particle.t F)) (b : bool) (i1 : Z) v q ps1
    (i : nat) p :
  vec_at ps i1 = Ok q -> b = Particle.pinned q ->
  (if b then Ok ps else vec_set ps i1 (Particle.set_position v q)) = Ok ps1 ->
  ps !! i = Some p -> Particle.pinned p = true -> ps1 !! i = Some p.
Proof.
  intros [H0 Eq]%vec_at_Ok -> E Ep Hp. destruct (Particle.pinned q) eqn:Hq.
  - apply Ok_inj in E. now subst.
  - apply vec_set_Ok in E as (_ & _ & ->).
    rewrite list_lookup_insert_ne; [exact Ep|].
    intros <-. rewrite Ep in Eq. injection Eq as ->. congruence.
Qed.

Lemma constrain_pinned thr (ps : list (Particle.t F)) sp ps' sp'
    (i : nat) p :
  constrain thr ps sp = Ok (ps', sp') ->
  ps !! i = Some p -> Particle.pinned p = true -> ps' !! i = Some p.
Proof.
  unfold constrain. intros E Ep Hp.
  destruct (negb (Spring.active sp)); [injection E as <- _; exact Ep|].
  apply bind_Ok in E as (p1 & E1 & E). apply bind_Ok in E as (p2 & E2 & E).
  destruct (_ || _); [injection E as <- _; exact Ep|].
  destruct (fltb _ (lit 1 1000000)); [injection E as <- _; exact Ep|].
  apply bind_Ok in E as (t & _ & E).
  destruct t; [injection E as <- _; exact Ep|].
  apply bind_Ok in E as (ps1 & G1 & E). apply bind_Ok in E as (q2 & E3 & E).
  apply bind_Ok in E as (ps2 & G2 & E). injection E as <- _.
  pose proof (nudge_pinned _ _ _ _ _ _ i p E1 eq_refl G1 Ep Hp) as Ep1.
  exact (nudge_pinned _ _ _ _ _ _ i p E3 eq_refl G2 Ep1 Hp).
Qed.

Lemma applyForces_loop_pinned c g (ps : list (Particle.t F)) (i : nat) p :
  ps !! i = Some p -> Particle.pinned p = true ->
  fst (applyForces_loop c g ps) !! i = Some p.
Proof.
  revert g i. induction ps as [|q ps IH]; intros g i Ep Hp; [discriminate|].
  simpl. destruct (applyForces_step c g q) as [q' g'] eqn:Eq.
  specialize (IH g'). destruct (applyForces_loop c g' ps) as [ps' g''].
  destruct i as [|i]; simpl in *.
  - injection Ep as ->. rewrite (applyForces_step_pinned _ _ _ Hp) in Eq.
    now injection Eq as <- _.
  - now apply IH.
Qed.

Lemma constrain_all_pinned thr (ps : list (Particle.t F)) ss ps' ss'
    (i : nat) p :
  constrain_all thr ps ss = Ok (ps', ss') ->
  ps !! i = Some p -> Particle.pinned p = true -> ps' !! i = Some p.
Proof.
  revert ps ps' ss'. induction ss as [|sp ss IH]; intros ps ps' ss' E Ep Hp;
    simpl in E.
  - now injection E as <- _.
  - inv_bind. destruct r as [ps1 sp1], r0 as [ps2 ss2]. simpl in *.
    injection E as <- _. eauto using constrain_pinned.
Qed.

Lemma satisfyConstraints_pinned c c' (i : nat) p :
  satisfyConstraints c = Ok c' ->
  particles c !! i = Some p -> Particle.pinned p = true ->
  particles c' !! i = Some p /\ spheres c' = spheres c.
Proof.
  unfold satisfyConstraints. intros E Ep Hp. inv_bind. subst c'.
  destruct r as [ps ss]. simpl. eauto using constrain_all_pinned.
Qed.

(** One pass of the loop of [update] does to a pinned particle what the
    collision response does to it, and nothing else. *)
Lemma substep_pinned c c' (i : nat) p :
  substep c = Ok c' ->
  particles c !! i = Some p -> Particle.pinned p = true ->
  particles c' !! i = Some (collide (spheres c) p) /\
  spheres c' = spheres c.
Proof.
  unfold substep. intros E Ep Hp. inv_bind. subst c'.
  assert (E1' : particles (integrateVerlet fixedTimeStep (applyForces c)) !! i
                = Some p /\
                spheres (integrateVerlet fixedTimeStep (applyForces c))
                = spheres c).
  { unfold integrateVerlet, applyForces.
    pose proof (applyForces_loop_pinned c (Statics.drawn (statics c))
                  (particles c) i p Ep Hp) as G.
    destruct applyForces_loop as [ps g]. simpl in *.
    change (map ?f ?l) with (f <$> l). rewrite list_lookup_fmap, G. simpl.
    now rewrite integrate_step_pinned. }
  destruct E1' as [G0 S0].
  destruct (satisfyConstraints_pinned _ _ i p E0 G0 Hp) as [G1 S1].
  destruct (satisfyConstraints_pinned _ _ i p E1 G1 Hp) as [G2 S2].
  destruct (satisfyConstraints_pinned _ _ i p E2 G2 Hp) as [G3 S3].
  unfold handleCollisions. simpl.
  change (map ?f ?l) with (f <$> l). rewrite list_lookup_fmap, G3. simpl.
  split; congruence.
Qed.

Lemma update_loop_pinned_without_obstacles fuel c c' (i : nat) p :
  update_loop fuel c = Ok c' -> spheres c = [] ->
  particles c !! i = Some p -> Particle.pinned p = true ->
  below_ground p = false ->
  particles c' !! i = Some p.
Proof.
  intros E Es Ep Hp Hg. revert c E Es Ep.
  induction fuel as [|fuel IH]; intros c E Es Ep; simpl in E;
    case_if_in E; try discriminate; inv_bind; try (now subst).
  match goal with
  | G : substep c = Ok ?c1 |- _ =>
      destruct (substep_pinned _ _ i p G Ep Hp) as [G1 S1];
      apply (IH c1); [exact E | congruence |]
  end.
  rewrite G1, Es. unfold collide. destruct (negb _); [reflexivity|]. simpl.
  now rewrite collide_ground_above.
Qed.

(** Without obstacles and above the ground plane nothing in [update] moves
    a pinned particle. *)
Lemma update_pinned_without_obstacles fuel dt c c' (i : nat) p :
  update fuel dt c = Ok c' -> spheres c = [] ->
  particles c !! i = Some p -> Particle.pinned p = true ->
  below_ground p = false ->
  particles c' !! i = Some p.
Proof.
  unfold update. intros E Es Ep Hp Hg. inv_bind.
  rewrite (particles_updateVertexData _ _ E).
  rewrite particles_updateWindVariation, particles_updateObjectMovement.
  eapply update_loop_pinned_without_obstacles; eauto.
Qed.

End Collisions.

(** ** The shape of the grid is kept *)

Section Shape.
Context {F : Type} `{Scalar F}.
Implicit Types (c : ClothSystem F) (p : Particle.t F)
  (ps : list (Particle.t F)).

Lemma same_grid_refl c : same_grid c c.
Proof. now repeat split. Qed.

Lemma same_grid_trans c1 c2 c3 :
  same_grid c1 c2 -> same_grid c2 c3 -> same_grid c1 c3.
Proof. unfold same_grid. intros (?&?&?) (?&?&?). repeat split; congruence. Qed.

Lemma grid_ok_same c c' : same_grid c c' -> grid_ok c -> grid_ok c'.
Proof. unfold same_grid, grid_ok. intros (-> & -> & ->). auto. Qed.

Lemma length_applyForces_loop c g ps :
  length (fst (applyForces_loop c g ps)) = length ps.
Proof.
  revert g. induction ps as [|p ps IH]; intros g; simpl; [reflexivity|].
  destruct (applyForces_step c g p) as [p' g']. specialize (IH g').
  destruct (applyForces_loop c g' ps). simpl in *. now rewrite IH.
Qed.

Lemma same_grid_applyForces c : same_grid c (applyForces c).
Proof.
  unfold applyForces, same_grid.
  pose proof (length_applyForces_loop c (Statics.drawn (statics c))
                (particles c)) as E.
  destruct applyForces_loop. simpl in *. auto.
Qed.

Lemma length_nudge ps (b : bool) (i : Z) q ps1 :
  (if b then Ok ps else vec_set ps i q) = Ok ps1 -> length ps1 = length ps.
Proof.
  destruct b; intros E.
  - apply Ok_inj in E. now subst.
  - eauto using vec_set_length.
Qed.

Lemma length_constrain thr ps sp ps' sp' :
  constrain thr ps sp = Ok (ps', sp') -> length ps' = length ps.
Proof.
  unfold constrain. intros E.
  destruct (negb (Spring.active sp)); [now injection E as <- _|].
  apply bind_Ok in E as (p1 & E1 & E). apply bind_Ok in E as (p2 & E2 & E).
  destruct (_ || _); [now injection E as <- _|].
  destruct (fltb _ (lit 1 1000000)); [now injection E as <- _|].
  apply bind_Ok in E as (t & _ & E).
  destruct t; [now injection E as <- _|].
  apply bind_Ok in E as (ps1 & G1 & E). apply bind_Ok in E as (q2 & E3 & E).
  apply bind_Ok in E as (ps2 & G2 & E). injection E as <- _.
  apply length_nudge in G1, G2. congruence.
Qed.

Lemma length_constrain_all thr ps ss ps' ss' :
  constrain_all thr ps ss = Ok (ps', ss') -> length ps' = length ps.
Proof.
  revert ps ps' ss'. induction ss as [|sp ss IH]; intros ps ps' ss' E;
    simpl in E.
  - now injection E as <- _.
  - inv_bind. destruct r as [ps1 sp1], r0 as [ps2 ss2]. simpl in *.
    injection E as <- _. apply length_constrain in E0. apply IH in E1.
    congruence.
Qed.

Lemma same_grid_satisfyConstraints c c' :
  satisfyConstraints c = Ok c' -> same_grid c c'.
Proof.
  unfold satisfyConstraints. intros E. inv_bind. subst c'. destruct r.
  unfold same_grid. simpl. eauto using length_constrain_all.
Qed.

Lemma same_grid_substep c c' : substep c = Ok c' -> same_grid c c'.
Proof.
  unfold substep. intros E. inv_bind. subst c'.
  apply same_grid_satisfyConstraints in E0, E1, E2.
  eapply same_grid_trans; [apply same_grid_applyForces|].
  eapply same_grid_trans; [|eapply same_grid_trans; [exact E0|]].
  { unfold same_grid, integrateVerlet. simpl. now rewrite length_map. }
  eapply same_grid_trans; [exact E1|].
  eapply same_grid_trans; [exact E2|].
  unfold same_grid, handleCollisions. simpl. now rewrite length_map.
Qed.

Lemma same_grid_update_loop fuel c c' :
  update_loop fuel c = Ok c' -> same_grid c c'.
Proof.
  revert c. induction fuel as [|fuel IH]; intros c E; simpl in E;
    case_if_in E; try discriminate; inv_bind;
    try (subst; apply same_grid_refl).
  eauto using same_grid_trans, same_grid_substep.
Qed.

Lemma same_grid_updateObjectMovement dt c :
  same_grid c (updateObjectMovement dt c).
Proof.
  unfold updateObjectMovement. destruct (spheres c);
    [apply same_grid_refl|].
  destruct (Statics.goingForward _); now repeat split.
Qed.

Lemma same_grid_updateWindVariation dt c :
  same_grid c (updateWindVariation dt c).
Proof. unfold updateWindVariation. destruct fltb; now repeat split. Qed.

Lemma same_grid_updateVertexData c c' :
  updateVertexData c = Ok c' -> same_grid c c'.
Proof. unfold updateVertexData. intros E. inv_bind. now subst c'. Qed.

(** [update] up to its last step, the rebuild of the mesh. *)
Lemma update_inv fuel dt c c' :
  update fuel dt c = Ok c' ->
  exists c1, same_grid c c1 /\ updateVertexData c1 = Ok c'.
Proof.
  unfold update. intros E. inv_bind. eexists. split; [|exact E].
  apply same_grid_update_loop in E0.
  eapply same_grid_trans; [|apply same_grid_updateWindVariation].
  eapply same_grid_trans; [|apply same_grid_updateObjectMovement].
  exact E0.
Qed.

Lemma same_grid_update fuel dt c c' :
  update fuel dt c = Ok c' -> same_grid c c'.
Proof.
  intros (c1 & H1 & E)%update_inv.
  eauto using same_grid_trans, same_grid_updateVertexData.
Qed.

Lemma length_tear_step pos (st : list (Particle.t F) * list (Spring.t F))
    (i : nat) :
  length (fst (tear_step pos st i)) = length (fst st).
Proof.
  unfold tear_step. destruct (fst st !! i) as [p|]; [|reflexivity].
  destruct (in_tear_range pos p); [|reflexivity]. simpl.
  apply length_insert.
Qed.

Lemma same_grid_handleMouseInteraction pos tearing c :
  same_grid c (handleMouseInteraction pos tearing c).
Proof.
  unfold handleMouseInteraction. destruct tearing; [|apply same_grid_refl].
  unfold same_grid. simpl. repeat split.
  assert (G : forall l st,
            length (fst (fold_left (tear_step pos) l st)) = length (fst st)).
  { induction l as [|i l IH]; intros st; simpl; [reflexivity|].
    now rewrite IH, length_tear_step. }
  apply (G _ (particles c, springs c)).
Qed.

Lemma length_pin ps (i : Z) ps' : pin ps i = Ok ps' -> length ps' = length ps.
Proof. unfold pin. intros E. inv_bind. eauto using vec_set_length. Qed.

Lemma same_grid_pin_top_row c c' : pin_top_row c = Ok c' -> same_grid c c'.
Proof.
  unfold pin_top_row. intros E. inv_bind. subst c'. unfold same_grid. simpl.
  repeat split.
  eapply (foldM_invariant pin (fun l => length l = length (particles c)));
    [|reflexivity|exact E0].
  intros ps i ps' Hl Ei. apply length_pin in Ei. congruence.
Qed.

Lemma createClothGrid_grid_ok c c' :
  (0 <= gridWidth c)%Z -> (0 <= gridHeight c)%Z ->
  createClothGrid c = Ok c' ->
  grid_ok c' /\ gridWidth c' = gridWidth c /\ gridHeight c' = gridHeight c.
Proof.
  intros HW HH E.
  destruct (createClothGrid_total c HW HH) as (c1 & E1 & Hok & EW & EH).
  rewrite E in E1. apply Ok_inj in E1. subst c1. auto.
Qed.

Lemma setMode_grid_ok mode c c' :
  (0 <= gridWidth c)%Z -> (0 <= gridHeight c)%Z ->
  setMode mode c = Ok c' ->
  grid_ok c' /\ gridWidth c' = gridWidth c /\ gridHeight c' = gridHeight c.
Proof.
  intros HW HH. unfold setMode, reset. intros E. inv_bind.
  destruct (createClothGrid_grid_ok _ _ HW HH E0) as (Hok & EW & EH).
  assert (G : same_grid r c').
  { destruct mode.
    - apply same_grid_pin_top_row in E. exact E.
    - inv_bind. subst c'.
      repeat match goal with
        | G : pin _ _ = Ok _ |- _ => apply length_pin in G
        end.
      unfold same_grid. simpl in *. repeat split. congruence.
    - apply same_grid_pin_top_row in E. exact E. }
  split; [eauto using grid_ok_same|].
  destruct G as (_ & -> & ->). auto.
Qed.

(** Every call keeps a well-formed grid well formed. *)
Lemma exec_grid_ok k c c' :
  grid_ok c -> exec k c = Ok c' ->
  grid_ok c' /\ gridWidth c' = gridWidth c /\ gridHeight c' = gridHeight c.
Proof.
  intros Hok E. pose proof Hok as (HW & HH & _).
  assert (G : same_grid c c' ->
              grid_ok c' /\ gridWidth c' = gridWidth c /\
              gridHeight c' = gridHeight c).
  { intros Hs. split; [eauto using grid_ok_same|]. now destruct Hs as (_&?&?). }
  destruct k; simpl in E;
    try (apply Ok_inj in E; subst c'; apply G; now repeat split).
  - eauto using same_grid_update.
  - eauto using setMode_grid_ok.
  - eauto using createClothGrid_grid_ok.
  - apply Ok_inj in E. subst c'. apply G.
    apply same_grid_handleMouseInteraction.
Qed.

(** Every state reached from a constructor call without a negative
    dimension has a well-formed grid. *)
Lemma reachable_grid_ok c :
  reachable c -> (0 <= gridWidth c)%Z -> (0 <= gridHeight c)%Z -> grid_ok c.
Proof.
  induction 1 as [st width height w h c E | k c c' Hc IH E]; intros HW HH.
  - unfold ClothSystem_new in E.
    assert (G : forall c0, createClothGrid c0 = Ok c ->
                  gridWidth c = gridWidth c0 /\
                  gridHeight c = gridHeight c0).
    { intros c0 E0. unfold createClothGrid in E0. inv_bind.
      apply dims_updateVertexData in E0. simpl in E0. exact E0. }
    destruct (G _ E) as [EW EH]. simpl in EW, EH.
    eapply createClothGrid_grid_ok; [| |exact E]; simpl; lia.
  - assert (G : gridWidth c' = gridWidth c /\ gridHeight c' = gridHeight c).
    { destruct k; simpl in E;
        try (apply Ok_inj in E; subst c'; split; reflexivity).
      - apply same_grid_update in E. now destruct E as (_&?&?).
      - unfold setMode, reset, createClothGrid in E. inv_bind.
        apply dims_updateVertexData in E0. simpl in E0.
        destruct E0 as [EW EH]. rewrite <- EW, <- EH.
        destruct mode.
        + apply same_grid_pin_top_row in E. now destruct E as (_&?&?).
        + inv_bind. now subst c'.
        + apply same_grid_pin_top_row in E. now destruct E as (_&?&?).
      - unfold reset, createClothGrid in E. inv_bind.
        apply dims_updateVertexData in E. simpl in E. exact E.
      - apply Ok_inj in E. subst c'.
        pose proof (same_grid_handleMouseInteraction mousePos tearing c)
          as (_&?&?). auto. }
    destruct G as [EW EH]. rewrite EW in HW. rewrite EH in HH.
    exact (proj1 (exec_grid_ok k c c' (IH HW HH) E)).
Qed.

(** C7.  On a well-formed grid, as every reachable grid without a negative
    dimension is, each rebuild of the mesh returns and leaves a mesh that
    agrees with the particles: [updateVertexData] itself, [update], [reset]
    and the constructor.  The index buffer is then the list, quad by quad,
    of the two triangles of each quad whose four corners are active; a quad
    with an inactive corner contributes nothing; and every index is the
    place of the vertex of an active particle. *)
Theorem mesh_consistency c :
  grid_ok c ->
  (exists c', updateVertexData c = Ok c' /\ particles c' = particles c /\
              mesh_consistent c') /\
  (forall fuel dt c', update fuel dt c = Ok c' -> mesh_consistent c') /\
  (exists c', reset c = Ok c' /\ mesh_consistent c') /\
  (forall ps W y x,
     is_active ps (y * W + x) && is_active ps (y * W + (x + 1)) &&
     is_active ps ((y + 1) * W + x) && is_active ps ((y + 1) * W + (x + 1))
     = false ->
     quad_triangles ps W (y, x) = []).
Proof.
  intros Hok. split; [|split; [|split]].
  - now apply updateVertexData_consistent.
  - intros fuel dt c' (c1 & Hs & E)%update_inv.
    destruct (updateVertexData_consistent c1) as (c2 & E2 & _ & Hm);
      [eauto using grid_ok_same|].
    rewrite E in E2. apply Ok_inj in E2. now subst c2.
  - destruct Hok as (HW & HH & _). unfold reset, createClothGrid.
    pose proof (length_grid_particles c HW HH) as Hl.
    destruct (grid_springs_total _ _ _ Hl) as [ss ->]. cbn [bind].
    destruct (updateVertexData_consistent
                (set_springs ss (set_particles (grid_particles c) c)))
      as (c' & E & _ & Hm); [unfold grid_ok; simpl; auto|].
    eauto.
  - intros ps W y x. apply quad_triangles_torn.
Qed.

End Shape.

(** ** [update] stays inside its vectors *)

Section Safety.
Context {F : Type} `{Scalar F}.
Implicit Types (c : ClothSystem F) (p : Particle.t F)
  (ps : list (Particle.t F)).

Lemma vec_at_in_range {A} (v : list A) (i : Z) :
  (0 <= i < Z.of_nat (length v))%Z -> exists a, vec_at v i = Ok a.
Proof. intros Hi. apply vec_at_total; lia. Qed.

Lemma vec_at_range {A} (v : list A) (i : Z) (a : A) :
  vec_at v i = Ok a -> (0 <= i < Z.of_nat (length v))%Z.
Proof. intros [H0 E%lookup_lt_Some]%vec_at_Ok. lia. Qed.

Lemma nudge_total ps (b : bool) (i : Z) q :
  (0 <= i < Z.of_nat (length ps))%Z ->
  exists ps1, (if b then Ok ps else vec_set ps i q) = Ok ps1.
Proof.
  intros Hi. destruct b; [eauto|]. eexists. apply vec_set_Ok.
  repeat split; lia.
Qed.

Lemma constrain_total thr ps sp :
  (0 <= Spring.particle1 sp < Z.of_nat (length ps))%Z ->
  (0 <= Spring.particle2 sp < Z.of_nat (length ps))%Z ->
  exists r, constrain thr ps sp = Ok r.
Proof.
  intros H1 H2. unfold constrain, checkTearing.
  destruct (negb (Spring.active sp)); [eauto|].
  destruct (vec_at_in_range ps _ H1) as [p1 ->].
  destruct (vec_at_in_range ps _ H2) as [p2 ->]. cbn [bind].
  destruct (_ || _); [eauto|].
  destruct (fltb _ (lit 1 1000000)); [eauto|].
  destruct (fltb _ _); [eauto|].
  match goal with
  | |- context [if ?b then Ok ps else vec_set ps ?i ?q] =>
      destruct (nudge_total ps b i q H1) as [ps1 E1]; rewrite E1;
      pose proof (length_nudge _ _ _ _ _ E1) as L1
  end. cbn [bind].
  rewrite <- L1 in H2. destruct (vec_at_in_range ps1 _ H2) as [q2 ->].
  cbn [bind].
  match goal with
  | |- context [if ?b then Ok ps1 else vec_set ps1 ?i ?q] =>
      destruct (nudge_total ps1 b i q H2) as [ps2 ->]
  end. cbn [bind]. eauto.
Qed.

Lemma constrain_all_total thr ps ss :
  Forall (fun sp =>
            (0 <= Spring.particle1 sp < Z.of_nat (length ps))%Z /\
            (0 <= Spring.particle2 sp < Z.of_nat (length ps))%Z) ss ->
  exists r, constrain_all thr ps ss = Ok r.
Proof.
  intros Hss. revert ps Hss. induction ss as [|sp ss IH]; intros ps Hss;
    simpl; [eauto|].
  inversion Hss as [|? ? [H1 H2] Hrest]; subst.
  destruct (constrain_total thr ps sp H1 H2) as [[ps1 sp1] E]. rewrite E.
  cbn [bind fst snd]. apply length_constrain in E.
  destruct (IH ps1) as [r ->]; [now rewrite E|]. cbn [bind]. eauto.
Qed.

Lemma springs_ok_decays c c' :
  same_grid c c' -> Forall2 decays (springs c) (springs c') ->
  springs_ok c -> springs_ok c'.
Proof.
  unfold springs_ok. intros (-> & _) Hd Hc.
  induction Hd as [|sp sp' ss ss' Hsp _ IH]; [constructor|].
  inversion Hc; subst. constructor; [|auto].
  destruct Hsp as [->| ->]; auto.
Qed.

Lemma satisfyConstraints_total c :
  springs_ok c -> exists c', satisfyConstraints c = Ok c'.
Proof.
  intros Hc. unfold satisfyConstraints.
  destruct (constrain_all_total (tearThreshold c) (particles c) (springs c))
    as [r ->]; [exact Hc|]. cbn [bind]. eauto.
Qed.

Lemma satisfyConstraints_safe c :
  springs_ok c ->
  exists c', satisfyConstraints c = Ok c' /\ springs_ok c'.
Proof.
  intros Hc. destruct (satisfyConstraints_total c Hc) as [c' E].
  exists c'. split; [exact E|].
  eauto using springs_ok_decays, same_grid_satisfyConstraints,
    satisfyConstraints_decays.
Qed.

Lemma substep_safe c :
  springs_ok c -> exists c', substep c = Ok c' /\ springs_ok c'.
Proof.
  intros Hc. unfold substep.
  assert (H0 : springs_ok (integrateVerlet fixedTimeStep (applyForces c))).
  { eapply springs_ok_decays; [| |exact Hc].
    - eapply same_grid_trans; [apply same_grid_applyForces|].
      unfold same_grid, integrateVerlet. simpl. now rewrite length_map.
    - simpl. rewrite springs_applyForces. apply Forall2_decays_refl. }
  destruct (satisfyConstraints_safe _ H0) as (c2 & -> & H2). cbn [bind].
  destruct (satisfyConstraints_safe _ H2) as (c3 & -> & H3). cbn [bind].
  destruct (satisfyConstraints_safe _ H3) as (c4 & -> & H4). cbn [bind].
  eexists. split; [reflexivity|].
  eapply springs_ok_decays; [| |exact H4].
  - unfold same_grid, handleCollisions. simpl. now rewrite length_map.
  - apply Forall2_decays_refl.
Qed.

Lemma update_loop_safe fuel c :
  springs_ok c ->
  (exists c', update_loop fuel c = Ok c') \/
  update_loop fuel c = Fail OutOfFuel.
Proof.
  revert c. induction fuel as [|fuel IH]; intros c Hc; simpl;
    destruct (fleb fixedTimeStep (elapsedTime c)); eauto.
  destruct (substep_safe c Hc) as (c' & -> & Hc'). cbn [bind]. now apply IH.
Qed.

(** In a state with a well-formed grid and springs between particles of
    the grid, [update] reads and writes inside its vectors: it returns a
    state unless the loop outlasts the fuel. *)
Lemma update_safe fuel dt c :
  grid_ok c -> springs_ok c ->
  (exists c', update fuel dt c = Ok c') \/
  update fuel dt c = Fail OutOfFuel.
Proof.
  intros Hg Hs. unfold update.
  destruct (update_loop_safe fuel
              (set_elapsedTime (fadd (elapsedTime c) dt) c)) as [[c1 E]|E];
    [exact Hs| |rewrite E; now right].
  rewrite E. cbn [bind]. left. apply updateVertexData_total.
  eapply grid_ok_same; [|exact Hg].
  apply same_grid_update_loop in E.
  eapply same_grid_trans; [|apply same_grid_updateWindVariation].
  eapply same_grid_trans; [|apply same_grid_updateObjectMovement].
  exact E.
Qed.

Lemma createClothGrid_springs_ok c c' :
  createClothGrid c = Ok c' -> springs_ok c'.
Proof.
  intros [Ep E]%createClothGrid_inv. unfold springs_ok. rewrite Ep.
  eapply grid_springs_Forall; [|exact E].
  intros a b pa pb k t Ea Eb. simpl. eauto using vec_at_range.
Qed.

Lemma exec_same_grid k c c' :
  rebuilds k = false -> exec k c = Ok c' -> same_grid c c'.
Proof.
  destruct k; simpl; try discriminate; intros _ E;
    try (apply Ok_inj in E; subst c'; now repeat split).
  - eauto using same_grid_update.
  - apply Ok_inj in E. subst c'. apply same_grid_handleMouseInteraction.
Qed.

Lemma setMode_springs_ok mode c c' : setMode mode c = Ok c' -> springs_ok c'.
Proof.
  unfold setMode, reset. intros E. inv_bind.
  apply createClothGrid_springs_ok in E0.
  eapply springs_ok_decays; [| |exact E0]; destruct mode.
  - apply same_grid_pin_top_row in E. exact E.
  - inv_bind. subst c'.
    repeat match goal with
      | G : pin _ _ = Ok _ |- _ => apply length_pin in G
      end.
    unfold same_grid. simpl in *. repeat split. congruence.
  - apply same_grid_pin_top_row in E. exact E.
  - apply springs_pin_top_row in E. rewrite E. apply Forall2_decays_refl.
  - inv_bind. subst c'. apply Forall2_decays_refl.
  - apply springs_pin_top_row in E. rewrite E. apply Forall2_decays_refl.
Qed.

Lemma reachable_springs_ok c : reachable c -> springs_ok c.
Proof.
  induction 1 as [st width height w h c E | k c c' Hc IH E].
  - unfold ClothSystem_new in E. eauto using createClothGrid_springs_ok.
  - destruct (rebuilds k) eqn:Hk.
    + destruct k; try discriminate; simpl in E.
      * eauto using setMode_springs_ok.
      * eauto using createClothGrid_springs_ok.
    + eauto using springs_ok_decays, exec_same_grid, exec_decays.
Qed.

(** X15.  In every reachable state without a negative dimension [update]
    returns a state unless its loop outlasts the fuel: no index of a spring
    and no index of the mesh leaves the particle vector. *)
Lemma update_safe_reachable fuel dt c :
  reachable c -> (0 <= gridWidth c)%Z -> (0 <= gridHeight c)%Z ->
  (exists c', update fuel dt c = Ok c') \/
  update fuel dt c = Fail OutOfFuel.
Proof.
  intros Hc HW HH. apply update_safe.
  - now apply reachable_grid_ok.
  - now apply reachable_springs_ok.
Qed.

Lemma elapsedTime_satisfyConstraints c c' :
  satisfyConstraints c = Ok c' -> elapsedTime c' = elapsedTime c.
Proof. unfold satisfyConstraints. intros E. inv_bind. now subst c'. Qed.

Lemma elapsedTime_substep c c' :
  substep c = Ok c' ->
  elapsedTime c' = fsub (elapsedTime c) fixedTimeStep.
Proof.
  unfold substep. intros E. inv_bind. subst c'. simpl.
  apply elapsedTime_satisfyConstraints in E0, E1, E2.
  rewrite E2, E1, E0. unfold integrateVerlet, applyForces.
  destruct applyForces_loop. reflexivity.
Qed.

(** When subtracting the fixed step leaves [elapsedTime] as it is, the loop
    of [update] has no last pass. *)
Lemma update_loop_stuck fuel c :
  springs_ok c ->
  fleb fixedTimeStep (elapsedTime c) = true ->
  fsub (elapsedTime c) fixedTimeStep = elapsedTime c ->
  update_loop fuel c = Fail OutOfFuel.
Proof.
  revert c. induction fuel as [|fuel IH]; intros c Hs Hge Hsub; simpl;
    rewrite Hge; [reflexivity|].
  destruct (substep_safe c Hs) as (c' & E & Hs'). rewrite E. cbn [bind].
  apply elapsedTime_substep in E. rewrite Hsub in E.
  apply IH; [exact Hs'| |]; now rewrite E.
Qed.

End Safety.

(** ** What [update] never writes *)

Section Untouched.
Context {F : Type} `{Scalar F}.
Implicit Types (c : ClothSystem F) (p : Particle.t F)
  (ps : list (Particle.t F)).

Lemma flags_applyForces_loop c g ps :
  map flags (fst (applyForces_loop c g ps)) = map flags ps.
Proof.
  revert g. induction ps as [|p ps IH]; intros g; simpl; [reflexivity|].
  assert (E : flags (fst (applyForces_step c g p)) = flags p).
  { unfold applyForces_step, applyWindForce.
    destruct (_ || _); [reflexivity|].
    destruct (fltb _ (windStrength c)); [|reflexivity]. simpl.
    destruct fltb; reflexivity. }
  destruct (applyForces_step c g p) as [p' g'].
  specialize (IH g'). destruct (applyForces_loop c g' ps) as [ps' g''].
  simpl in *. now rewrite E, IH.
Qed.

Lemma flags_integrate_step c dt p : flags (integrate_step c dt p) = flags p.
Proof. unfold integrate_step. destruct (_ || _); reflexivity. Qed.

Lemma flags_collide (ss : list (CollisionSphere.t F)) p :
  flags (collide ss p) = flags p.
Proof.
  unfold collide. destruct (negb _); [reflexivity|].
  assert (G : forall q, flags (fold_left collide_sphere ss q) = flags q).
  { induction ss as [|s ss IH]; intros q; simpl; [reflexivity|].
    rewrite IH. unfold collide_sphere. destruct fltb; reflexivity. }
  unfold collide_ground. destruct fltb; simpl; apply G.
Qed.

Lemma flags_nudge ps (b : bool) (i : Z) v q ps1 :
  vec_at ps i = Ok q ->
  (if b then Ok ps else vec_set ps i (Particle.set_position v q)) = Ok ps1 ->
  map flags ps1 = map flags ps.
Proof.
  intros [_ Eq]%vec_at_Ok E. destruct b.
  - apply Ok_inj in E. now subst.
  - apply vec_set_Ok in E as (_ & _ & ->).
    change (map ?f ?l) with (f <$> l). rewrite list_fmap_insert.
    apply list_insert_id. now rewrite list_lookup_fmap, Eq.
Qed.

Lemma flags_constrain thr ps sp ps' sp' :
  constrain thr ps sp = Ok (ps', sp') -> map flags ps' = map flags ps.
Proof.
  unfold constrain. intros E.
  destruct (negb (Spring.active sp)); [now injection E as <- _|].
  apply bind_Ok in E as (p1 & E1 & E). apply bind_Ok in E as (p2 & E2 & E).
  destruct (_ || _); [now injection E as <- _|].
  destruct (fltb _ (lit 1 1000000)); [now injection E as <- _|].
  apply bind_Ok in E as (t & _ & E).
  destruct t; [now injection E as <- _|].
  apply bind_Ok in E as (ps1 & G1 & E). apply bind_Ok in E as (q2 & E3 & E).
  apply bind_Ok in E as (ps2 & G2 & E). injection E as <- _.
  apply (flags_nudge _ _ _ _ _ _ E1) in G1.
  apply (flags_nudge _ _ _ _ _ _ E3) in G2. congruence.
Qed.

Lemma flags_constrain_all thr ps ss ps' ss' :
  constrain_all thr ps ss = Ok (ps', ss') -> map flags ps' = map flags ps.
Proof.
  revert ps ps' ss'. induction ss as [|sp ss IH]; intros ps ps' ss' E;
    simpl in E.
  - now injection E as <- _.
  - inv_bind. destruct r as [ps1 sp1], r0 as [ps2 ss2]. simpl in *.
    injection E as <- _. apply flags_constrain in E0. apply IH in E1.
    congruence.
Qed.

Lemma flags_satisfyConstraints c c' :
  satisfyConstraints c = Ok c' ->
  map flags (particles c') = map flags (particles c).
Proof.
  unfold satisfyConstraints. intros E. inv_bind. subst c'. destruct r.
  simpl. eauto using flags_constrain_all.
Qed.

Lemma flags_substep c c' :
  substep c = Ok c' -> map flags (particles c') = map flags (particles c).
Proof.
  unfold substep. intros E. inv_bind. subst c'.
  apply flags_satisfyConstraints in E0, E1, E2. simpl.
  rewrite map_map. rewrite (map_ext _ flags) by apply flags_collide.
  rewrite E2, E1, E0. unfold integrateVerlet, applyForces.
  pose proof (flags_applyForces_loop c (Statics.drawn (statics c))
                (particles c)) as G.
  destruct applyForces_loop as [ps g]. simpl in *.
  rewrite map_map. rewrite (map_ext _ flags); [exact G|].
  intros p. apply flags_integrate_step.
Qed.

Lemma flags_update_loop fuel c c' :
  update_loop fuel c = Ok c' ->
  map flags (particles c') = map flags (particles c).
Proof.
  revert c. induction fuel as [|fuel IH]; intros c E; simpl in E;
    case_if_in E; try discriminate; inv_bind; try (now subst).
  match goal with
  | G : substep c = Ok _ |- _ => apply flags_substep in G; rewrite <- G
  end.
  now apply IH.
Qed.

Lemma flags_update fuel dt c c' :
  update fuel dt c = Ok c' ->
  map flags (particles c') = map flags (particles c).
Proof.
  unfold update. intros E. inv_bind.
  rewrite (particles_updateVertexData _ _ E).
  rewrite particles_updateWindVariation, particles_updateObjectMovement.
  now apply flags_update_loop in E0.
Qed.

Lemma params_satisfyConstraints c c' :
  satisfyConstraints c = Ok c' ->
  params c' = params c /\ spheres c' = spheres c.
Proof.
  unfold satisfyConstraints. intros E. inv_bind. now subst c'.
Qed.

Lemma params_substep c c' :
  substep c = Ok c' -> params c' = params c /\ spheres c' = spheres c.
Proof.
  unfold substep. intros E. inv_bind. subst c'.
  apply params_satisfyConstraints in E0 as [P0 S0], E1 as [P1 S1],
    E2 as [P2 S2].
  assert (G : params (integrateVerlet fixedTimeStep (applyForces c))
              = params c /\
              spheres (integrateVerlet fixedTimeStep (applyForces c))
              = spheres c).
  { unfold integrateVerlet, applyForces. destruct applyForces_loop.
    split; reflexivity. }
  destruct G as [P S]. split.
  - etransitivity; [|exact P]. rewrite <- P0, <- P1, <- P2. reflexivity.
  - etransitivity; [|exact S]. rewrite <- S0, <- S1, <- S2. reflexivity.
Qed.

Lemma params_update_loop fuel c c' :
  update_loop fuel c = Ok c' -> params c' = params c /\ spheres c' = spheres c.
Proof.
  revert c. induction fuel as [|fuel IH]; intros c E; simpl in E;
    case_if_in E; try discriminate; inv_bind; try (now subst).
  match goal with
  | G : substep c = Ok _ |- _ => apply params_substep in G as [P S]
  end.
  apply IH in E as [P' S']. split; congruence.
Qed.

Lemma spheres_updateObjectMovement dt c :
  map CollisionSphere.radius (spheres (updateObjectMovement dt c))
  = map CollisionSphere.radius (spheres c) /\
  tail (spheres (updateObjectMovement dt c)) = tail (spheres c) /\
  params (updateObjectMovement dt c) = params c.
Proof.
  unfold updateObjectMovement. destruct (spheres c) as [|s0 rest] eqn:Es.
  - now rewrite Es.
  - destruct (Statics.goingForward _); simpl; auto.
Qed.

Lemma spheres_updateWindVariation dt c :
  spheres (updateWindVariation dt c) = spheres c /\
  params (updateWindVariation dt c) = params c.
Proof. unfold updateWindVariation. destruct fltb; auto. Qed.

(** X1.  [update] writes no parameter and no flag: when it returns, the
    gravity, damping, wind strength, tear threshold, cloth extents and
    motion constants are what they were, every particle has kept its mass,
    its [pinned] flag and its [active] flag, the grid dimensions and the
    numbers of particles and springs are the same, and of the spheres only
    the centre of the first may differ. *)
Theorem update_writes_no_parameter fuel dt c c' :
  update fuel dt c = Ok c' ->
  params c' = params c /\
  map flags (particles c') = map flags (particles c) /\
  same_grid c c' /\
  length (springs c') = length (springs c) /\
  map CollisionSphere.radius (spheres c')
  = map CollisionSphere.radius (spheres c) /\
  tail (spheres c') = tail (spheres c).
Proof.
  intros E. pose proof (flags_update _ _ _ _ E) as Hf.
  pose proof (same_grid_update _ _ _ _ E) as Hg.
  pose proof (update_decays _ _ _ _ E) as Hd. apply Forall2_length in Hd.
  unfold update in E. inv_bind.
  apply params_update_loop in E0 as [P0 S0].
  change (params r = params c) in P0. change (spheres r = spheres c) in S0.
  match type of E with
  | updateVertexData (updateWindVariation dt ?c1) = _ =>
      destruct (spheres_updateObjectMovement dt r) as (R1 & T1 & P1);
      destruct (spheres_updateWindVariation dt c1) as (S2 & P2)
  end.
  assert (Ev : params c' = params (updateWindVariation dt
                                     (updateObjectMovement dt r)) /\
               spheres c' = spheres (updateWindVariation dt
                                       (updateObjectMovement dt r))).
  { unfold updateVertexData in E. inv_bind. now subst c'. }
  destruct Ev as [Pv Sv].
  split; [congruence|]. split; [exact Hf|]. split; [exact Hg|].
  split; [congruence|]. rewrite Sv, S2. split; congruence.
Qed.

End Untouched.

(** ** Torn-away particles stay as they are *)

Section Frozen.
Context {F : Type} `{Scalar F}.
Implicit Types (c : ClothSystem F) (p : Particle.t F)
  (ps : list (Particle.t F)).

Lemma applyForces_loop_inactive c g ps (i : nat) p :
  ps !! i = Some p -> Particle.active p = false ->
  fst (applyForces_loop c g ps) !! i = Some p.
Proof.
  revert g i. induction ps as [|q ps IH]; intros g i Ep Hp; [discriminate|].
  simpl. destruct (applyForces_step c g q) as [q' g'] eqn:Eq.
  specialize (IH g'). destruct (applyForces_loop c g' ps) as [ps' g''].
  destruct i as [|i]; simpl in *.
  - injection Ep as ->. unfold applyForces_step in Eq. rewrite Hp in Eq.
    simpl in Eq. now injection Eq as <- _.
  - now apply IH.
Qed.

Lemma integrate_step_inactive c dt p :
  Particle.active p = false -> integrate_step c dt p = p.
Proof. unfold integrate_step. intros ->. now rewrite orb_true_r. Qed.

Lemma collide_inactive (ss : list (CollisionSphere.t F)) p :
  Particle.active p = false -> collide ss p = p.
Proof. unfold collide. now intros ->. Qed.

Lemma flags_at ps ps' (i : Z) p p' :
  map flags ps' = map flags ps ->
  vec_at ps i = Ok p -> vec_at ps' i = Ok p' -> flags p' = flags p.
Proof.
  intros E [_ Ep]%vec_at_Ok [_ Ep']%vec_at_Ok.
  assert (G : map flags ps' !! Z.to_nat i = Some (flags p')).
  { change (map ?f ?l) with (f <$> l). now rewrite list_lookup_fmap, Ep'. }
  rewrite E in G. change (map ?f ?l) with (f <$> l) in G.
  rewrite list_lookup_fmap, Ep in G. simpl in G. congruence.
Qed.

Lemma nudge_inactive ps (b : bool) (i1 : Z) v q ps1 (i : nat) p :
  vec_at ps i1 = Ok q -> Particle.active q = true ->
  (if b then Ok ps else vec_set ps i1 (Particle.set_position v q)) = Ok ps1 ->
  ps !! i = Some p -> Particle.active p = false -> ps1 !! i = Some p.
Proof.
  intros [H0 Eq]%vec_at_Ok Hq E Ep Hp. destruct b.
  - apply Ok_inj in E. now subst.
  - apply vec_set_Ok in E as (_ & _ & ->).
    rewrite list_lookup_insert_ne; [exact Ep|].
    intros <-. rewrite Ep in Eq. injection Eq as ->. congruence.
Qed.

Lemma constrain_inactive thr ps sp ps' sp' (i : nat) p :
  constrain thr ps sp = Ok (ps', sp') ->
  ps !! i = Some p -> Particle.active p = false -> ps' !! i = Some p.
Proof.
  unfold constrain. intros E Ep Hp.
  destruct (negb (Spring.active sp)); [injection E as <- _; exact Ep|].
  apply bind_Ok in E as (p1 & E1 & E). apply bind_Ok in E as (p2 & E2 & E).
  destruct (Particle.active p1) eqn:A1;
    [|injection E as <- _; exact Ep].
  destruct (Particle.active p2) eqn:A2;
    [|injection E as <- _; exact Ep].
  cbn [negb orb] in E.
  destruct (fltb _ (lit 1 1000000)); [injection E as <- _; exact Ep|].
  apply bind_Ok in E as (t & _ & E).
  destruct t; [injection E as <- _; exact Ep|].
  apply bind_Ok in E as (ps1 & G1 & E). apply bind_Ok in E as (q2 & E3 & E).
  apply bind_Ok in E as (ps2 & G2 & E). injection E as <- _.
  pose proof (flags_nudge _ _ _ _ _ _ E1 G1) as Hf.
  pose proof (flags_at _ _ _ _ _ Hf E2 E3) as Hq. unfold flags in Hq.
  injection Hq as _ _ Hq. rewrite A2 in Hq.
  pose proof (nudge_inactive _ _ _ _ _ _ i p E1 A1 G1 Ep Hp) as Ep1.
  exact (nudge_inactive _ _ _ _ _ _ i p E3 Hq G2 Ep1 Hp).
Qed.

Lemma constrain_all_inactive thr ps ss ps' ss' (i : nat) p :
  constrain_all thr ps ss = Ok (ps', ss') ->
  ps !! i = Some p -> Particle.active p = false -> ps' !! i = Some p.
Proof.
  revert ps ps' ss'. induction ss as [|sp ss IH]; intros ps ps' ss' E Ep Hp;
    simpl in E.
  - now injection E as <- _.
  - inv_bind. destruct r as [ps1 sp1], r0 as [ps2 ss2]. simpl in *.
    injection E as <- _. eauto using constrain_inactive.
Qed.

Lemma satisfyConstraints_inactive c c' (i : nat) p :
  satisfyConstraints c = Ok c' ->
  particles c !! i = Some p -> Particle.active p = false ->
  particles c' !! i = Some p.
Proof.
  unfold satisfyConstraints. intros E Ep Hp. inv_bind. subst c'.
  destruct r as [ps ss]. simpl. eauto using constrain_all_inactive.
Qed.

Lemma substep_inactive c c' (i : nat) p :
  substep c = Ok c' ->
  particles c !! i = Some p -> Particle.active p = false ->
  particles c' !! i = Some p.
Proof.
  unfold substep. intros E Ep Hp. inv_bind. subst c'.
  assert (G0 : particles (integrateVerlet fixedTimeStep (applyForces c)) !! i
               = Some p).
  { unfold integrateVerlet, applyForces.
    pose proof (applyForces_loop_inactive c (Statics.drawn (statics c))
                  (particles c) i p Ep Hp) as G.
    destruct applyForces_loop as [ps g]. simpl in *.
    change (map ?f ?l) with (f <$> l). rewrite list_lookup_fmap, G. simpl.
    now rewrite integrate_step_inactive. }
  pose proof (satisfyConstraints_inactive _ _ i p E0 G0 Hp) as G1.
  pose proof (satisfyConstraints_inactive _ _ i p E1 G1 Hp) as G2.
  pose proof (satisfyConstraints_inactive _ _ i p E2 G2 Hp) as G3.
  unfold handleCollisions. simpl.
  change (map ?f ?l) with (f <$> l). rewrite list_lookup_fmap, G3. simpl.
  now rewrite collide_inactive.
Qed.

Lemma update_inactive fuel dt c c' (i : nat) p :
  update fuel dt c = Ok c' ->
  particles c !! i = Some p -> Particle.active p = false ->
  particles c' !! i = Some p.
Proof.
  unfold update. intros E Ep Hp. inv_bind.
  rewrite (particles_updateVertexData _ _ E).
  rewrite particles_updateWindVariation, particles_updateObjectMovement.
  clear E.
  assert (G : forall c0, update_loop fuel c0 = Ok r ->
                particles c0 !! i = Some p -> particles r !! i = Some p).
  { clear E0. induction fuel as [|fuel IH]; intros c0 E0 Ep0; simpl in E0;
      case_if_in E0; try discriminate; inv_bind; try (now subst).
    match goal with
    | G : substep c0 = Ok ?c1 |- _ =>
        apply (IH c1); [exact E0|]; eauto using substep_inactive
    end. }
  now apply (G _ E0).
Qed.

Lemma tear_step_inactive pos
    (st : list (Particle.t F) * list (Spring.t F)) (m i : nat) p :
  fst st !! i = Some p -> Particle.active p = false ->
  fst (tear_step pos st m) !! i = Some p.
Proof.
  intros Ep Hp. unfold tear_step.
  destruct (fst st !! m) as [q|] eqn:Eq; [|exact Ep].
  destruct (in_tear_range pos q) eqn:Hq; [|exact Ep]. simpl.
  rewrite list_lookup_insert_ne; [exact Ep|].
  intros <-. rewrite Ep in Eq. injection Eq as ->.
  unfold in_tear_range in Hq. rewrite Hp in Hq. discriminate.
Qed.

Lemma handleMouseInteraction_inactive pos tearing c (i : nat) p :
  particles c !! i = Some p -> Particle.active p = false ->
  particles (handleMouseInteraction pos tearing c) !! i = Some p.
Proof.
  intros Ep Hp. unfold handleMouseInteraction.
  destruct tearing; [|exact Ep]. simpl.
  assert (G : forall l st, fst st !! i = Some p ->
                fst (fold_left (tear_step pos) l st) !! i = Some p).
  { induction l as [|m l IH]; intros st Es; simpl; [exact Es|].
    apply IH. now apply tear_step_inactive. }
  now apply G.
Qed.

Lemma exec_inactive k c c' (i : nat) p :
  rebuilds k = false -> exec k c = Ok c' ->
  particles c !! i = Some p -> Particle.active p = false ->
  particles c' !! i = Some p.
Proof.
  destruct k; simpl; try discriminate; intros _ E Ep Hp;
    try (apply Ok_inj in E; subst c'; exact Ep).
  - eauto using update_inactive.
  - apply Ok_inj in E. subst c'. now apply handleMouseInteraction_inactive.
Qed.

(** X2.  Along any sequence of calls other than [reset] and [setMode], a
    particle that is inactive stays exactly as it is, in every member: it
    is never moved, never given a force and never activated again.  So the
    set of active particles only shrinks. *)
Theorem inactive_particles_frozen (ks : list call) c c' :
  forallb (fun k => negb (rebuilds k)) ks = true ->
  run ks c = Ok c' ->
  (forall (i : nat) p,
     particles c !! i = Some p -> Particle.active p = false ->
     particles c' !! i = Some p) /\
  (forall j, is_active (particles c') j = true ->
             is_active (particles c) j = true).
Proof.
  intros Hks E.
  assert (G : forall (i : nat) p,
            particles c !! i = Some p -> Particle.active p = false ->
            particles c' !! i = Some p).
  { unfold run in E. revert c E. induction ks as [|k ks IH]; intros c E i p;
      simpl in *.
    - apply Ok_inj in E. now subst.
    - apply andb_prop in Hks as [Hk Hks]. apply negb_true_iff in Hk.
      inv_bind. intros Ep Hp. apply (IH Hks _ E).
      + eauto using exec_inactive.
      + exact Hp. }
  split; [exact G|].
  intros j Hj. unfold is_active in *.
  assert (Hl : length (particles c') = length (particles c)).
  { unfold run in E. clear G Hj. revert c E.
    induction ks as [|k ks IH]; intros c E; simpl in *.
    - apply Ok_inj in E. now subst.
    - apply andb_prop in Hks as [Hk Hks]. apply negb_true_iff in Hk.
      inv_bind. rewrite (IH Hks _ E).
      eapply exec_same_grid; eauto. }
  destruct (particles c !! Z.to_nat j) as [p|] eqn:Ep.
  - destruct (Particle.active p) eqn:Hp; [reflexivity|].
    now rewrite (G _ _ Ep Hp), Hp in Hj.
  - apply lookup_ge_None in Ep. rewrite <- Hl in Ep.
    apply lookup_ge_None in Ep. now rewrite Ep in Hj.
Qed.

End Frozen.

(** ** Tears compose *)

Section Tears.
Context {F : Type} `{Scalar F}.
Implicit Types (c : ClothSystem F) (p : Particle.t F)
  (ps : list (Particle.t F)) (a b : vec3 F).

(** The loops of [handleMouseInteraction] as two maps. *)
Lemma handleMouseInteraction_maps a c :
  handleMouseInteraction a true c
  = set_springs (map (tear_spring a (particles c)) (springs c))
      (set_particles (map (tear_particle a) (particles c)) c).
Proof.
  unfold handleMouseInteraction. cbn [negb].
  rewrite tear_loop_below by lia. cbn [fst snd].
  rewrite tear_particles_below_all. f_equal.
  unfold tear_springs_below, tear_spring. apply map_ext. intros sp.
  now rewrite !torn_below_all.
Qed.

Lemma in_tear_range_torn a b p :
  in_tear_range a (tear_particle b p)
  = in_tear_range a p && negb (in_tear_range b p).
Proof.
  unfold tear_particle. destruct (in_tear_range b p); simpl.
  - unfold in_tear_range. simpl. now rewrite andb_false_r.
  - now rewrite andb_true_r.
Qed.

Lemma torn_after_tear a b ps (j : Z) :
  torn a (map (tear_particle b) ps) j = torn a ps j && negb (torn b ps j).
Proof.
  unfold torn. change (map ?f ?l) with (f <$> l). rewrite list_lookup_fmap.
  destruct (0 <=? j)%Z; simpl; [|reflexivity].
  destruct (ps !! Z.to_nat j) as [p|]; simpl; [|reflexivity].
  apply in_tear_range_torn.
Qed.

Lemma tear_particle_commute a b p :
  tear_particle a (tear_particle b p) = tear_particle b (tear_particle a p).
Proof.
  unfold tear_particle at 1 3. rewrite !in_tear_range_torn.
  unfold tear_particle.
  destruct (in_tear_range a p), (in_tear_range b p); reflexivity.
Qed.

Lemma tear_spring_commute a b ps (sp : Spring.t F) :
  tear_spring a (map (tear_particle b) ps) (tear_spring b ps sp)
  = tear_spring b (map (tear_particle a) ps) (tear_spring a ps sp).
Proof.
  unfold tear_spring at 1 3. rewrite !torn_after_tear.
  assert (E : forall x, Spring.particle1 (tear_spring x ps sp)
                        = Spring.particle1 sp /\
                        Spring.particle2 (tear_spring x ps sp)
                        = Spring.particle2 sp).
  { intros x. unfold tear_spring. destruct (_ || _); split; reflexivity. }
  rewrite !(proj1 (E _)), !(proj2 (E _)). unfold tear_spring.
  destruct (torn a ps (Spring.particle1 sp)),
    (torn a ps (Spring.particle2 sp)), (torn b ps (Spring.particle1 sp)),
    (torn b ps (Spring.particle2 sp)); reflexivity.
Qed.

(** X3.  Tearing at the same point twice is tearing there once, and two
    tears give the same state in either order. *)
Theorem tears_commute a b c :
  handleMouseInteraction a true (handleMouseInteraction a true c)
  = handleMouseInteraction a true c /\
  handleMouseInteraction a true (handleMouseInteraction b true c)
  = handleMouseInteraction b true (handleMouseInteraction a true c).
Proof.
  rewrite !handleMouseInteraction_maps.
  cbn [particles springs set_springs set_particles]. split.
  - rewrite !map_map.
    rewrite (map_ext (fun p => tear_particle a (tear_particle a p))
               (tear_particle a)).
    2:{ intros p. unfold tear_particle at 1. rewrite in_tear_range_torn.
        now rewrite andb_negb_r. }
    rewrite (map_ext
               (fun sp => tear_spring a (map (tear_particle a) (particles c))
                            (tear_spring a (particles c) sp))
               (tear_spring a (particles c))).
    2:{ intros sp. unfold tear_spring at 1. rewrite !torn_after_tear.
        now rewrite !andb_negb_r. }
    destruct c; reflexivity.
  - rewrite !map_map.
    rewrite (map_ext (fun p => tear_particle a (tear_particle b p))
               (fun p => tear_particle b (tear_particle a p))
               (tear_particle_commute a b)).
    rewrite (map_ext
               (fun sp => tear_spring a (map (tear_particle b) (particles c))
                            (tear_spring b (particles c) sp))
               (fun sp => tear_spring b (map (tear_particle a) (particles c))
                            (tear_spring a (particles c) sp))
               (tear_spring_commute a b (particles c))).
    destruct c; reflexivity.
Qed.

End Tears.

(** ** The topology of reachable states *)

Section Topology.
Context {F : Type} `{Scalar F}.
Implicit Types (c : ClothSystem F) (p : Particle.t F)
  (ps : list (Particle.t F)) (sp : Spring.t F).

Lemma spring_if_ends (g : bool) ps a b k t l :
  spring_if g ps a b k t = Ok l ->
  Forall (fun sp => g = true /\ Spring.particle1 sp = a /\
                    Spring.particle2 sp = b) l.
Proof.
  unfold spring_if. destruct g; intros E; inv_bind; subst l; auto.
Qed.

Lemma cell_springs_ordered ps (W Ht y x : Z) l :
  (0 <= x < W)%Z -> cell_springs ps W Ht (y, x) = Ok l ->
  Forall (fun sp => (Spring.particle1 sp < Spring.particle2 sp)%Z) l.
Proof.
  intros Hx. unfold cell_springs. intros E. inv_bind. subst l.
  repeat apply Forall_app_2;
    match goal with
    | G : spring_if _ _ _ _ _ _ = Ok ?l |- Forall _ ?l =>
        apply spring_if_ends in G; eapply Forall_impl; [exact G|];
        intros sp (Hg & -> & ->);
        rewrite ?andb_true_iff, ?Z.ltb_lt in Hg; nia
    end.
Qed.

Lemma mapM_concat_Forall {A B} (f : A -> res (list B)) (P : B -> Prop)
    (l : list A) (bs : list (list B)) :
  (forall a b, In a l -> f a = Ok b -> Forall P b) ->
  mapM f l = Ok bs -> Forall P (concat bs).
Proof.
  revert bs. induction l as [|a l IH]; intros bs Hf E; simpl in E.
  - apply Ok_inj in E. subst bs. constructor.
  - inv_bind. subst bs. simpl. apply Forall_app_2.
    + apply (Hf a); [now left | assumption].
    + apply IH; [|assumption]. intros a' b' Ha'. apply Hf. now right.
Qed.

Lemma grid_springs_ordered ps (W Ht : Z) l :
  grid_springs ps W Ht = Ok l ->
  Forall (fun sp => (Spring.particle1 sp < Spring.particle2 sp)%Z) l.
Proof.
  unfold grid_springs. intros E. inv_bind. subst l.
  eapply mapM_concat_Forall; [|eassumption].
  intros [y x] b [_ Hx]%in_grid_cells Eb.
  eauto using cell_springs_ordered.
Qed.

Lemma decays_ends sp sp' :
  decays sp sp' ->
  Spring.particle1 sp' = Spring.particle1 sp /\
  Spring.particle2 sp' = Spring.particle2 sp.
Proof. intros [->| ->]; split; reflexivity. Qed.

Lemma ends_ordered_decays (ss ss' : list (Spring.t F)) :
  Forall2 decays ss ss' ->
  Forall (fun sp => (Spring.particle1 sp < Spring.particle2 sp)%Z) ss ->
  Forall (fun sp => (Spring.particle1 sp < Spring.particle2 sp)%Z) ss'.
Proof.
  induction 1 as [|sp sp' ss ss' Hd _ IH]; intros Hs; [constructor|].
  inversion Hs; subst. constructor; [|auto].
  destruct (decays_ends _ _ Hd) as [-> ->]. assumption.
Qed.

Lemma createClothGrid_ends_ordered c c' :
  createClothGrid c = Ok c' -> ends_ordered c'.
Proof.
  intros [_ E]%createClothGrid_inv. unfold ends_ordered.
  exact (grid_springs_ordered _ _ _ _ E).
Qed.

Lemma setMode_springs mode c c' :
  setMode mode c = Ok c' ->
  exists c0, createClothGrid c = Ok c0 /\ springs c' = springs c0.
Proof.
  unfold setMode, reset. intros E. inv_bind. eexists. split; [eassumption|].
  destruct mode.
  - now apply springs_pin_top_row in E.
  - inv_bind. now subst c'.
  - now apply springs_pin_top_row in E.
Qed.

Lemma reachable_ends_ordered c : reachable c -> ends_ordered c.
Proof.
  induction 1 as [st width height w h c E | k c c' Hc IH E].
  - unfold ClothSystem_new in E. eauto using createClothGrid_ends_ordered.
  - destruct (rebuilds k) eqn:Hk.
    + destruct k; try discriminate; simpl in E.
      * apply setMode_springs in E as (c0 & E0 & Es).
        unfold ends_ordered. rewrite Es.
        eapply createClothGrid_ends_ordered, E0.
      * eauto using createClothGrid_ends_ordered.
    + eapply ends_ordered_decays; [|exact IH]. eauto using exec_decays.
Qed.

(** X4.  In every reachable state both ends of every spring are indices
    into the particle vector, the first end is the smaller of the two (no
    spring joins a particle to itself), and, when no dimension is
    negative, the vector holds one particle per cell of the grid. *)
Theorem topology_invariant c :
  reachable c ->
  springs_ok c /\ ends_ordered c /\
  ((0 <= gridWidth c)%Z -> (0 <= gridHeight c)%Z ->
   Z.of_nat (length (particles c)) = (gridWidth c * gridHeight c)%Z).
Proof.
  intros Hc. split; [|split].
  - now apply reachable_springs_ok.
  - now apply reachable_ends_ordered.
  - intros HW HH.
    destruct (reachable_grid_ok c Hc HW HH) as (_ & _ & Hl).
    rewrite Hl. nia.
Qed.

Lemma vec_at_flags ps ps' (j : Z) p :
  map flags ps' = map flags ps -> vec_at ps j = Ok p ->
  exists p', vec_at ps' j = Ok p' /\ flags p' = flags p.
Proof.
  intros E Ep. pose proof Ep as [H0 Ep0]%vec_at_Ok.
  assert (Hl : length ps' = length ps).
  { apply (f_equal (@length _)) in E. now rewrite !length_map in E. }
  destruct (lookup_lt_is_Some_2 ps' (Z.to_nat j)) as [p' Ep'].
  { rewrite Hl. eauto using lookup_lt_Some. }
  assert (Ep'' : vec_at ps' j = Ok p') by now apply vec_at_Ok.
  exists p'. split; [exact Ep''|]. eauto using flags_at.
Qed.

Lemma attached_step ps ps' sp sp' :
  map flags ps' = map flags ps -> decays sp sp' ->
  attached ps sp -> attached ps' sp'.
Proof.
  intros E Hd Ha Hsp'. destruct Hd as [->| ->]; [|discriminate].
  destruct (Ha Hsp') as (p1 & p2 & E1 & E2 & A1 & A2).
  destruct (vec_at_flags _ _ _ _ E E1) as (q1 & G1 & F1).
  destruct (vec_at_flags _ _ _ _ E E2) as (q2 & G2 & F2).
  exists q1, q2. unfold flags in F1, F2.
  injection F1 as _ _ F1. injection F2 as _ _ F2.
  repeat split; congruence.
Qed.

Lemma no_dangling_step c c' :
  map flags (particles c') = map flags (particles c) ->
  Forall2 decays (springs c) (springs c') ->
  no_dangling c -> no_dangling c'.
Proof.
  unfold no_dangling. intros E Hd Hc.
  induction Hd as [|sp sp' ss ss' Hsp _ IH]; [constructor|].
  inversion Hc; subst. constructor; eauto using attached_step.
Qed.

Lemma all_active_no_dangling c :
  Forall (fun p => Particle.active p = true) (particles c) ->
  springs_ok c -> no_dangling c.
Proof.
  unfold springs_ok, no_dangling. intros Ha Hs.
  eapply Forall_impl; [exact Hs|]. intros sp [H1 H2] _.
  destruct (vec_at_in_range _ _ H1) as [p1 E1].
  destruct (vec_at_in_range _ _ H2) as [p2 E2].
  exists p1, p2. repeat split; auto.
  - apply vec_at_Ok in E1 as [_ E1]. exact (Forall_lookup_1 _ _ _ _ Ha E1).
  - apply vec_at_Ok in E2 as [_ E2]. exact (Forall_lookup_1 _ _ _ _ Ha E2).
Qed.

Lemma all_active_pin ps (i : Z) ps' :
  Forall (fun p => Particle.active p = true) ps -> pin ps i = Ok ps' ->
  Forall (fun p => Particle.active p = true) ps'.
Proof.
  unfold pin. intros Hps E. inv_bind.
  apply vec_set_Ok in E as (_ & _ & ->). apply Forall_insert; [exact Hps|].
  simpl. apply vec_at_Ok in E0 as [_ E0].
  exact (Forall_lookup_1 _ _ _ _ Hps E0).
Qed.

Lemma setMode_all_active mode c c' :
  setMode mode c = Ok c' ->
  Forall (fun p => Particle.active p = true) (particles c').
Proof.
  unfold setMode, reset. intros E. inv_bind.
  assert (H0 : Forall (fun p => Particle.active p = true) (particles r)).
  { apply createClothGrid_inv in E0 as [-> _]. apply grid_particles_active. }
  destruct mode.
  - unfold pin_top_row in E. inv_bind. subst c'. simpl.
    eapply (foldM_invariant pin); [|exact H0|eassumption].
    intros ps i ps'. apply all_active_pin.
  - inv_bind. subst c'. simpl in *. eauto using all_active_pin.
  - unfold pin_top_row in E. inv_bind. subst c'. simpl.
    eapply (foldM_invariant pin); [|exact H0|eassumption].
    intros ps i ps'. apply all_active_pin.
Qed.

Lemma no_dangling_tear a c :
  no_dangling c -> no_dangling (handleMouseInteraction a true c).
Proof.
  rewrite handleMouseInteraction_maps. unfold no_dangling. simpl.
  intros Hc. apply Forall_map. eapply Forall_impl; [exact Hc|].
  intros sp Ha. simpl. unfold tear_spring.
  destruct (torn a (particles c) (Spring.particle1 sp)) eqn:T1;
    [intros ?; discriminate|].
  destruct (torn a (particles c) (Spring.particle2 sp)) eqn:T2;
    [intros ?; discriminate|].
  simpl. intros Hsp.
  destruct (Ha Hsp) as (p1 & p2 & E1 & E2 & A1 & A2).
  assert (G : forall j p, vec_at (particles c) j = Ok p ->
                torn a (particles c) j = false ->
                vec_at (map (tear_particle a) (particles c)) j = Ok p).
  { intros j p [H0 Ep]%vec_at_Ok Ht. apply vec_at_Ok. split; [exact H0|].
    change (map ?f ?l) with (f <$> l). rewrite list_lookup_fmap, Ep. simpl.
    unfold torn in Ht. rewrite Ep in Ht.
    rewrite (proj2 (Z.leb_le 0 j) H0) in Ht. simpl in Ht.
    unfold tear_particle. now rewrite Ht. }
  exists p1, p2. auto.
Qed.

(** X5.  In every reachable state both ends of every active spring are
    active particles: tearing a particle away cuts every spring at it, and
    nothing else deactivates a particle. *)
Theorem no_dangling_springs c : reachable c -> no_dangling c.
Proof.
  induction 1 as [st width height w h c E | k c c' Hc IH E].
  - unfold ClothSystem_new in E. apply all_active_no_dangling.
    + apply createClothGrid_inv in E as [-> _]. apply grid_particles_active.
    + eauto using createClothGrid_springs_ok.
  - destruct k; simpl in E;
      try (apply Ok_inj in E; subst c'; exact IH).
    + eapply no_dangling_step; [| |exact IH];
        eauto using flags_update, update_decays.
    + apply all_active_no_dangling;
        eauto using setMode_all_active, setMode_springs_ok.
    + apply all_active_no_dangling.
      * apply createClothGrid_inv in E as [-> _].
        apply grid_particles_active.
      * eauto using createClothGrid_springs_ok.
    + apply Ok_inj in E. subst c'. destruct tearing; [|exact IH].
      now apply no_dangling_tear.
Qed.

End Topology.

(** ** The sizes of the mesh *)

Section MeshSizes.
Context {F : Type} `{Scalar F}.
Implicit Types (c : ClothSystem F) (ps : list (Particle.t F)).

Lemma rank_all ps : rank ps (length ps) = Z.of_nat (active_count ps).
Proof. unfold rank, active_count. now rewrite firstn_all. Qed.

Lemma length_quad_triangles ps (W : Z) (yx : Z * Z) :
  length (quad_triangles ps W yx) = if quad_full ps W yx then 6%nat else 0%nat.
Proof.
  destruct yx as [y x]. unfold quad_triangles, quad_full.
  now destruct (_ && _).
Qed.

Lemma length_flat_map_quads ps (W : Z) (cells : list (Z * Z)) :
  length (flat_map (quad_triangles ps W) cells)
  = (6 * length (List.filter (quad_full ps W) cells))%nat.
Proof.
  induction cells as [|yx cells IH]; [reflexivity|].
  simpl. rewrite length_app, IH, length_quad_triangles.
  destruct (quad_full ps W yx); simpl; lia.
Qed.

Lemma updateVertexData_sized c :
  grid_ok c ->
  exists c',
    updateVertexData c = Ok c' /\ particles c' = particles c /\
    gridWidth c' = gridWidth c /\ gridHeight c' = gridHeight c /\
    mesh_sized c'.
Proof.
  intros Hok. destruct (mesh_spec c Hok) as (vs & Em & Hlen & _).
  unfold updateVertexData. rewrite Em. cbn [bind fst snd].
  eexists. split; [reflexivity|]. unfold mesh_sized.
  cbn [particles indices vertices gridWidth gridHeight set_indices
       set_vertices].
  repeat split.
  - rewrite Hlen, rank_all. lia.
  - apply length_flat_map_quads.
  - apply Forall_forall. intros k (yx & _ & Hk)%list_elem_of_In%in_flat_map.
    apply quad_triangles_active in Hk as (g & p & Ep & Ha & ->).
    pose proof (rank_nonneg (particles c) g).
    pose proof (rank_lt _ _ _ _ (lookup_lt_Some _ _ _ Ep) Ep Ha) as Hlt.
    rewrite rank_all in Hlt. lia.
Qed.

(** X6.  On a well-formed grid the buffers that [updateVertexData] and
    [update] leave have these sizes: eight floats per active particle, six
    indices per quad whose four corners are active, and every index is at
    least 0 and less than the number of vertices.  The counts that the
    interface shows, [getVertices().size() / 8] and
    [getIndices().size() / 3], are the numbers of active particles and of
    triangles. *)
Theorem mesh_sizes c :
  grid_ok c ->
  (exists c', updateVertexData c = Ok c' /\ mesh_sized c') /\
  (forall fuel dt c', update fuel dt c = Ok c' -> mesh_sized c').
Proof.
  intros Hok. split.
  - destruct (updateVertexData_sized c Hok) as (c' & E & _ & _ & _ & Hm).
    eauto.
  - intros fuel dt c' (c1 & Hs & E)%update_inv.
    destruct (updateVertexData_sized c1) as (c2 & E2 & _ & _ & _ & Hm);
      [eauto using grid_ok_same|].
    rewrite E in E2. apply Ok_inj in E2. now subst c2.
Qed.

Lemma filter_all {A} (f : A -> bool) (l : list A) :
  (forall a, In a l -> f a = true) -> List.filter f l = l.
Proof.
  induction l as [|a l IH]; intros Hf; simpl; [reflexivity|].
  rewrite Hf by now left. f_equal. apply IH. intros b Hb. apply Hf.
  now right.
Qed.

Lemma is_active_grid_particles c (y x : Z) :
  (0 <= y < gridHeight c)%Z -> (0 <= x < gridWidth c)%Z ->
  is_active (grid_particles c) (y * gridWidth c + x) = true.
Proof.
  intros Hy Hx. pose proof (grid_particles_at c y x Hy Hx) as E.
  rewrite (is_active_at _ _ _ E). unfold grid_particle.
  destruct (y =? gridHeight c - 1)%Z; reflexivity.
Qed.

Lemma length_grid_cells_Z (rows cols : Z) :
  (0 <= rows)%Z -> (0 <= cols)%Z ->
  length (grid_cells rows cols) = (Z.to_nat rows * Z.to_nat cols)%nat.
Proof.
  intros Hr Hk. rewrite <- (Z2Nat.id rows), <- (Z2Nat.id cols) at 1 by lia.
  apply length_grid_cells.
Qed.

(** The mesh of a freshly built grid. *)
Lemma createClothGrid_mesh c :
  (1 <= gridWidth c)%Z -> (1 <= gridHeight c)%Z ->
  exists c',
    createClothGrid c = Ok c' /\
    Z.of_nat (length (vertices c')) = (8 * (gridWidth c * gridHeight c))%Z /\
    Z.of_nat (length (indices c'))
    = (6 * ((gridWidth c - 1) * (gridHeight c - 1)))%Z.
Proof.
  intros HW HH. unfold createClothGrid.
  pose proof (length_grid_particles c ltac:(lia) ltac:(lia)) as Hl.
  destruct (grid_springs_total _ _ _ Hl) as [ss ->]. cbn [bind].
  destruct (updateVertexData_sized
              (set_springs ss (set_particles (grid_particles c) c)))
    as (c' & E & Ep & EW & EH & Hv & Hi & _);
    [unfold grid_ok; simpl; split; [lia|split; [lia|exact Hl]]|].
  exists c'. split; [exact E|]. simpl in Ep, EW, EH.
  rewrite Hv, Hi, Ep, EW, EH. unfold active_count.
  rewrite (filter_all Particle.active).
  2:{ intros p Hp%list_elem_of_In.
      exact (proj1 (Forall_forall _ _) (grid_particles_active c) p Hp). }
  rewrite (filter_all (quad_full (grid_particles c) (gridWidth c))).
  2:{ intros [y x] [Hy Hx]%in_grid_cells. unfold quad_full.
      rewrite !is_active_grid_particles by lia. reflexivity. }
  rewrite Hl, length_grid_cells_Z by lia. split; nia.
Qed.

(** X7.  A grid of width [W >= 1] and height [Ht >= 1] is drawn, right
    after the constructor or [reset], with [W * Ht] vertices of eight
    floats and [2 * (W - 1) * (Ht - 1)] triangles. *)
Theorem fresh_mesh_sizes (W Ht : Z) :
  (1 <= W)%Z -> (1 <= Ht)%Z ->
  (forall st w h,
     exists c, ClothSystem_new st W Ht w h = Ok c /\
               Z.of_nat (length (vertices c)) = (8 * (W * Ht))%Z /\
               Z.of_nat (length (indices c))
               = (3 * (2 * (W - 1) * (Ht - 1)))%Z) /\
  (forall c0, gridWidth c0 = W -> gridHeight c0 = Ht ->
     exists c, reset c0 = Ok c /\
               Z.of_nat (length (vertices c)) = (8 * (W * Ht))%Z /\
               Z.of_nat (length (indices c))
               = (3 * (2 * (W - 1) * (Ht - 1)))%Z).
Proof.
  intros HW HH. split.
  - intros st w h. unfold ClothSystem_new.
    match goal with
    | |- context [createClothGrid ?c0] =>
        destruct (createClothGrid_mesh c0) as (c & E & Hv & Hi);
        [exact HW | exact HH |]
    end.
    exists c. simpl in *. repeat split; [exact E | lia | lia].
  - intros c0 <- <-. unfold reset.
    destruct (createClothGrid_mesh c0) as (c & E & Hv & Hi);
      [exact HW | exact HH |].
    exists c. repeat split; [exact E | lia | lia].
Qed.

End MeshSizes.

(** ** setMode *)

Section Modes.
Context {F : Type} `{Scalar F}.
Implicit Types (c : ClothSystem F) (p : Particle.t F)
  (ps : list (Particle.t F)).

Lemma pin_pinned ps (i : Z) p :
  vec_at ps i = Ok p -> Particle.pinned p = true -> pin ps i = Ok ps.
Proof.
  intros E Hp. unfold pin. rewrite E. cbn [bind].
  pose proof E as [H0 Ep]%vec_at_Ok. apply vec_set_Ok.
  split; [exact H0|]. split; [eauto using lookup_lt_Some|].
  symmetry. apply list_insert_id. rewrite Ep. f_equal.
  destruct p; simpl in *. now subst.
Qed.

Lemma foldM_fixed {A S} (f : S -> A -> res S) (l : list A) (s : S) :
  (forall a, In a l -> f s a = Ok s) -> foldM f l s = Ok s.
Proof.
  induction l as [|a l IH]; intros Hf; simpl; [reflexivity|].
  rewrite Hf by now left. cbn [bind]. apply IH. intros b Hb. apply Hf.
  now right.
Qed.

Lemma top_row_pinned c (x : Z) :
  (1 <= gridHeight c)%Z -> (0 <= x < gridWidth c)%Z ->
  exists p,
    vec_at (grid_particles c) ((gridHeight c - 1) * gridWidth c + x) = Ok p /\
    Particle.pinned p = true.
Proof.
  intros HH Hx. eexists. split; [apply grid_particles_at; lia|].
  unfold grid_particle. now rewrite Z.eqb_refl.
Qed.

(** X8.  On a grid with at least one row and one column [setMode] returns,
    whatever the mode and whatever the state it is called in.  The
    particles are then exactly those of a fresh grid, at rest and active,
    with the whole top row pinned and no other particle pinned (the two
    corner pins of the collision mode land on particles that [reset] has
    pinned already); every spring is active; the sphere list holds the one
    obstacle of the collision mode or nothing; and the wind strength is 6
    in the flag mode and 0 otherwise. *)
Theorem setMode_postcondition mode c :
  (1 <= gridWidth c)%Z -> (1 <= gridHeight c)%Z ->
  exists c',
    setMode mode c = Ok c' /\
    particles c' = grid_particles c /\
    (forall y x, (0 <= y < gridHeight c)%Z -> (0 <= x < gridWidth c)%Z ->
       exists p,
         vec_at (particles c') (y * gridWidth c + x) = Ok p /\
         Particle.pinned p = (y =? gridHeight c - 1)%Z /\
         Particle.active p = true /\
         Particle.oldPosition p = Particle.position p) /\
    Forall (fun sp => Spring.active sp = true) (springs c') /\
    spheres c' = mode_spheres mode /\
    windStrength c' = mode_wind mode.
Proof.
  intros HW HH.
  destruct (createClothGrid_total c) as (r & Er & _ & EW & EH); try lia.
  pose proof (createClothGrid_inv _ _ Er) as [Ep _].
  pose proof (createClothGrid_springs_active _ _ Er) as Hs.
  assert (Hrow : forall x, (0 <= x < gridWidth c)%Z ->
            pin (grid_particles c) ((gridHeight c - 1) * gridWidth c + x)
            = Ok (grid_particles c)).
  { intros x Hx. destruct (top_row_pinned c x HH Hx) as (p & E & Hp).
    eauto using pin_pinned. }
  assert (Hcells : forall y x,
            (0 <= y < gridHeight c)%Z -> (0 <= x < gridWidth c)%Z ->
            exists p,
              vec_at (grid_particles c) (y * gridWidth c + x) = Ok p /\
              Particle.pinned p = (y =? gridHeight c - 1)%Z /\
              Particle.active p = true /\
              Particle.oldPosition p = Particle.position p).
  { intros y x Hy Hx. eexists. split; [now apply grid_particles_at|].
    unfold grid_particle. destruct (y =? gridHeight c - 1)%Z; auto. }
  assert (Htop : forall c1,
            particles c1 = grid_particles c -> gridWidth c1 = gridWidth c ->
            gridHeight c1 = gridHeight c -> pin_top_row c1 = Ok c1).
  { intros c1 E1 E2 E3. unfold pin_top_row. rewrite E1, E2, E3.
    rewrite foldM_fixed.
    - cbn [bind]. rewrite <- E1. destruct c1; reflexivity.
    - intros i (x & <- & Hx%elem_of_zrange)%in_map_iff. now apply Hrow. }
  unfold setMode, reset. rewrite Er. cbn [bind].
  destruct mode.
  - rewrite Htop by (simpl; congruence). eexists. split; [reflexivity|].
    simpl. rewrite Ep. auto.
  - cbn [particles gridWidth gridHeight set_windStrength addSphere
         clearCollisionObjects set_spheres spheres].
    rewrite Ep, EW, EH.
    pose proof (Hrow 0%Z ltac:(lia)) as Hleft. rewrite Z.add_0_r in Hleft.
    rewrite Hleft. cbn [bind]. rewrite Hrow by lia. cbn [bind].
    eexists. split; [reflexivity|]. simpl. auto.
  - rewrite Htop by (simpl; congruence). eexists. split; [reflexivity|].
    simpl. rewrite Ep. auto.
Qed.

Lemma pin_nil (i : Z) : pin (@nil (Particle.t F)) i = Fail OutOfRange.
Proof.
  unfold pin, vec_at. destruct (i <? 0)%Z; [reflexivity|].
  now rewrite lookup_nil.
Qed.

(** X9.  A grid without cells is accepted by the constructor, and
    [setMode] then indexes the empty particle vector: in the collision mode
    always, and in every mode when the width is at least 1. *)
Theorem setMode_on_empty_grid c :
  (0 <= gridWidth c)%Z -> (0 <= gridHeight c)%Z ->
  (gridWidth c * gridHeight c = 0)%Z ->
  setMode COLLISION c = Fail OutOfRange /\
  ((1 <= gridWidth c)%Z -> forall mode, setMode mode c = Fail OutOfRange).
Proof.
  intros HW HH H0.
  destruct (createClothGrid_total c HW HH) as (r & Er & (_ & _ & Hl) & EW & EH).
  assert (Ep : particles r = []).
  { apply nil_length_inv. rewrite Hl, EW, EH, H0. reflexivity. }
  unfold setMode, reset. rewrite Er. cbn [bind]. split.
  - cbn [particles set_windStrength addSphere clearCollisionObjects
         set_spheres]. now rewrite Ep, pin_nil.
  - intros H1 mode.
    assert (Htop : forall c1, particles c1 = [] -> gridWidth c1 = gridWidth c ->
              pin_top_row c1 = Fail OutOfRange).
    { intros c1 E1 E2. unfold pin_top_row. rewrite E1, E2. unfold zrange.
      destruct (Z.to_nat (gridWidth c)) as [|n] eqn:En; [lia|].
      simpl. now rewrite pin_nil. }
    destruct mode.
    + apply Htop; simpl; congruence.
    + cbn [particles set_windStrength addSphere clearCollisionObjects
           set_spheres]. now rewrite Ep, pin_nil.
    + apply Htop; simpl; congruence.
Qed.

End Modes.

(** ** The random generator *)

Section Generator.
Context {F : Type} `{Scalar F}.
Variable d : nat -> F.
Implicit Types (c : ClothSystem F) (p : Particle.t F)
  (ps : list (Particle.t F)).

Lemma applyForces_loop_calm c c0 g ps :
  fltb (ofZ 0) (windStrength c) = false ->
  gravity c0 = gravity c -> windStrength c0 = windStrength c ->
  applyForces_loop c0 g ps = applyForces_loop c g ps /\
  snd (applyForces_loop c g ps) = g.
Proof.
  intros Hw Eg Ew. revert g. induction ps as [|p ps IH]; intros g; simpl;
    [auto|].
  assert (E : applyForces_step c0 g p = applyForces_step c g p /\
              snd (applyForces_step c g p) = g).
  { unfold applyForces_step. rewrite Eg, Ew, Hw.
    destruct (_ || _); auto. }
  destruct E as [E1 E2]. rewrite E1.
  destruct (applyForces_step c g p) as [p' g']. simpl in E2. subst g'.
  destruct (IH g) as [I1 I2]. rewrite I1.
  destruct (applyForces_loop c g ps) as [ps' g']. simpl in *. auto.
Qed.

Lemma applyForces_calm c :
  fltb (ofZ 0) (windStrength c) = false ->
  applyForces (with_draws d c) = with_draws d (applyForces c) /\
  Statics.drawn (statics (applyForces c)) = Statics.drawn (statics c).
Proof.
  intros Hw. unfold applyForces.
  destruct (applyForces_loop_calm c (with_draws d c)
              (Statics.drawn (statics c)) (particles c) Hw eq_refl eq_refl)
    as [E1 E2].
  change (Statics.drawn (statics (with_draws d c)))
    with (Statics.drawn (statics c)).
  change (particles (with_draws d c)) with (particles c).
  rewrite E1. revert E2.
  destruct (applyForces_loop c (Statics.drawn (statics c)) (particles c))
    as [ps g].
  simpl. intros E2. subst g. split; reflexivity.
Qed.

Lemma integrateVerlet_with_draws dt c :
  integrateVerlet dt (with_draws d c) = with_draws d (integrateVerlet dt c).
Proof. reflexivity. Qed.

Lemma handleCollisions_with_draws c :
  handleCollisions (with_draws d c) = with_draws d (handleCollisions c).
Proof. reflexivity. Qed.

Lemma satisfyConstraints_with_draws c :
  satisfyConstraints (with_draws d c)
  = res_map (with_draws d) (satisfyConstraints c) /\
  (forall c', satisfyConstraints c = Ok c' ->
     windStrength c' = windStrength c /\ statics c' = statics c).
Proof.
  unfold satisfyConstraints.
  change (tearThreshold (with_draws d c)) with (tearThreshold c).
  change (particles (with_draws d c)) with (particles c).
  change (springs (with_draws d c)) with (springs c).
  destruct constrain_all as [r|e]; simpl; split; try reflexivity;
    intros c' E; [|discriminate].
  apply Ok_inj in E. now subst c'.
Qed.

Lemma substep_with_draws c :
  fltb (ofZ 0) (windStrength c) = false ->
  substep (with_draws d c) = res_map (with_draws d) (substep c) /\
  (forall c', substep c = Ok c' ->
     windStrength c' = windStrength c /\
     Statics.drawn (statics c') = Statics.drawn (statics c)).
Proof.
  intros Hw. unfold substep.
  destruct (applyForces_calm c Hw) as [E0 D0]. rewrite E0.
  rewrite integrateVerlet_with_draws.
  set (c1 := integrateVerlet fixedTimeStep (applyForces c)).
  assert (W1 : windStrength c1 = windStrength c /\
               Statics.drawn (statics c1) = Statics.drawn (statics c)).
  { subst c1. split; [|exact D0]. unfold applyForces.
    destruct applyForces_loop. reflexivity. }
  clearbody c1. destruct W1 as [W1 D1].
  destruct (satisfyConstraints_with_draws c1) as [S1 F1]. rewrite S1.
  destruct (satisfyConstraints c1) as [c2|e]; [|split; [reflexivity|]; 
    intros c' E; discriminate]. cbn [res_map bind].
  destruct (F1 c2 eq_refl) as [W2 T2].
  destruct (satisfyConstraints_with_draws c2) as [S2 F2]. rewrite S2.
  destruct (satisfyConstraints c2) as [c3|e]; [|split; [reflexivity|]; 
    intros c' E; discriminate]. cbn [res_map bind].
  destruct (F2 c3 eq_refl) as [W3 T3].
  destruct (satisfyConstraints_with_draws c3) as [S3 F3]. rewrite S3.
  destruct (satisfyConstraints c3) as [c4|e]; [|split; [reflexivity|]; 
    intros c' E; discriminate]. cbn [res_map bind].
  destruct (F3 c4 eq_refl) as [W4 T4].
  split; [reflexivity|]. intros c' E. apply Ok_inj in E. subst c'. simpl.
  split; congruence.
Qed.

Lemma update_loop_with_draws fuel c :
  fltb (ofZ 0) (windStrength c) = false ->
  update_loop fuel (with_draws d c)
  = res_map (with_draws d) (update_loop fuel c) /\
  (forall c', update_loop fuel c = Ok c' ->
     Statics.drawn (statics c') = Statics.drawn (statics c)).
Proof.
  revert c. induction fuel as [|fuel IH]; intros c Hw; simpl;
    change (elapsedTime (with_draws d c)) with (elapsedTime c);
    destruct (fleb fixedTimeStep (elapsedTime c));
    try (split; [reflexivity|]; intros c' E;
         first [discriminate | now apply Ok_inj in E; subst c']).
  destruct (substep_with_draws c Hw) as [E1 F1]. rewrite E1.
  destruct (substep c) as [c1|e];
    [|split; [reflexivity|]; intros c' E; discriminate].
  cbn [res_map bind]. destruct (F1 c1 eq_refl) as [W1 D1].
  destruct (IH c1) as [E2 F2]; [now rewrite W1|].
  split; [exact E2|]. intros c' E. rewrite (F2 c' E). exact D1.
Qed.

(** X10.  While the wind strength is not above zero, [update] draws
    nothing from the random generator and does not depend on it: started
    in the same state with another generator, it gives the same outcome
    with that generator, and the number of values drawn is unchanged. *)
Theorem update_independent_of_generator fuel dt c :
  fltb (ofZ 0) (windStrength c) = false ->
  update fuel dt (with_draws d c) = res_map (with_draws d) (update fuel dt c) /\
  (forall c', update fuel dt c = Ok c' ->
     Statics.drawn (statics c') = Statics.drawn (statics c)).
Proof.
  intros Hw. unfold update.
  change (set_elapsedTime (fadd (elapsedTime (with_draws d c)) dt)
            (with_draws d c))
    with (with_draws d (set_elapsedTime (fadd (elapsedTime c) dt) c)).
  destruct (update_loop_with_draws fuel
              (set_elapsedTime (fadd (elapsedTime c) dt) c) Hw) as [E1 F1].
  rewrite E1.
  destruct (update_loop fuel (set_elapsedTime (fadd (elapsedTime c) dt) c))
    as [c1|e];
    [|split; [reflexivity|]; intros c' E; discriminate].
  cbn [res_map bind]. specialize (F1 c1 eq_refl). simpl in F1.
  assert (E2 : updateWindVariation dt
                 (updateObjectMovement dt (with_draws d c1))
               = with_draws d (updateWindVariation dt
                                 (updateObjectMovement dt c1)) /\
               Statics.drawn (statics (updateWindVariation dt
                                         (updateObjectMovement dt c1)))
               = Statics.drawn (statics c1)).
  { clear E1 F1 Hw. unfold updateWindVariation, updateObjectMovement, with_draws.
    destruct c1 as [? ? sph ? ? ? ? ? ? ? ? ? ? ? ? ? ? ? ? ? st].
    destruct st as [sp an gf dr dn]. simpl.
    destruct sph as [|s0 rest]; simpl.
    - destruct fltb; split; reflexivity.
    - destruct gf; simpl; destruct fltb; split; reflexivity. }
  destruct E2 as [E2 D2]. rewrite E2.
  set (c2 := updateWindVariation dt (updateObjectMovement dt c1)) in *.
  clearbody c2. unfold updateVertexData.
  change (mesh (with_draws d c2)) with (mesh c2).
  destruct (mesh c2) as [m|e];
    [|split; [reflexivity|]; intros c' E; discriminate].
  cbn [res_map bind]. split; [reflexivity|].
  intros c' E. apply Ok_inj in E. subst c'. simpl. congruence.
Qed.

End Generator.

(** ** The start position of the moving obstacle *)

Section Anchor.
Context {F : Type} `{Scalar F}.
Implicit Types (c : ClothSystem F).

Lemma satisfyConstraints_statics c c' :
  satisfyConstraints c = Ok c' ->
  statics c' = statics c /\ objectMoveTime c' = objectMoveTime c.
Proof.
  unfold satisfyConstraints. intros E. apply bind_Ok in E.
  destruct E as (r & _ & E). apply Ok_inj in E. now subst c'.
Qed.

Lemma updateVertexData_statics c c' :
  updateVertexData c = Ok c' ->
  statics c' = statics c /\ objectMoveTime c' = objectMoveTime c.
Proof.
  unfold updateVertexData. intros E. apply bind_Ok in E.
  destruct E as (m & _ & E). apply Ok_inj in E. now subst c'.
Qed.

Lemma createClothGrid_statics c c' :
  createClothGrid c = Ok c' ->
  statics c' = statics c /\ objectMoveTime c' = objectMoveTime c.
Proof.
  unfold createClothGrid. intros E. apply bind_Ok in E.
  destruct E as (ss & _ & E). apply updateVertexData_statics in E.
  exact E.
Qed.

Lemma pin_top_row_statics c c' :
  pin_top_row c = Ok c' ->
  statics c' = statics c /\ objectMoveTime c' = objectMoveTime c.
Proof.
  unfold pin_top_row. intros E. apply bind_Ok in E.
  destruct E as (ps & _ & E). apply Ok_inj in E. now subst c'.
Qed.

Lemma setMode_statics mode c c' :
  setMode mode c = Ok c' ->
  statics c' = statics c /\ objectMoveTime c' = objectMoveTime c.
Proof.
  unfold setMode, reset. intros E. apply bind_Ok in E.
  destruct E as (c0 & E0 & E). apply createClothGrid_statics in E0.
  destruct E0 as [S0 T0]. rewrite <- S0, <- T0.
  destruct mode.
  - apply pin_top_row_statics in E. exact E.
  - apply bind_Ok in E. destruct E as (ps1 & _ & E).
    apply bind_Ok in E. destruct E as (ps2 & _ & E).
    apply Ok_inj in E. now subst c'.
  - apply pin_top_row_statics in E. exact E.
Qed.

Lemma satisfyConstraints_spheres c c' :
  satisfyConstraints c = Ok c' -> spheres c' = spheres c.
Proof.
  unfold satisfyConstraints. intros E. apply bind_Ok in E.
  destruct E as (r & _ & E). apply Ok_inj in E. now subst c'.
Qed.

Lemma substep_startPos c c' :
  substep c = Ok c' ->
  Statics.startPos (statics c') = Statics.startPos (statics c) /\
  spheres c' = spheres c.
Proof.
  unfold substep. intros E.
  apply bind_Ok in E. destruct E as (c2 & E2 & E).
  apply bind_Ok in E. destruct E as (c3 & E3 & E).
  apply bind_Ok in E. destruct E as (c4 & E4 & E).
  apply Ok_inj in E. subst c'.
  pose proof (satisfyConstraints_spheres _ _ E2) as P2.
  pose proof (satisfyConstraints_spheres _ _ E3) as P3.
  pose proof (satisfyConstraints_spheres _ _ E4) as P4.
  apply satisfyConstraints_statics in E2, E3, E4.
  destruct E2 as [E2 _], E3 as [E3 _], E4 as [E4 _]. simpl.
  rewrite E4, E3, E2, P4, P3, P2. unfold applyForces.
  destruct applyForces_loop. split; reflexivity.
Qed.

Lemma update_loop_startPos fuel c c' :
  update_loop fuel c = Ok c' ->
  Statics.startPos (statics c') = Statics.startPos (statics c) /\
  spheres c' = spheres c.
Proof.
  revert c. induction fuel as [|fuel IH]; intros c; simpl;
    destruct (fleb fixedTimeStep (elapsedTime c)); intros E;
    try discriminate; try (now apply Ok_inj in E; subst c').
  apply bind_Ok in E. destruct E as (c1 & E1 & E).
  destruct (IH _ E) as [I1 I2]. apply substep_startPos in E1.
  destruct E1 as [S1 S2]. split; congruence.
Qed.

Lemma updateObjectMovement_startPos dt c v :
  Statics.startPos (statics c) = Some v ->
  Statics.startPos (statics (updateObjectMovement dt c)) = Some v.
Proof.
  intros E. unfold updateObjectMovement.
  destruct (spheres c) as [|s0 rest]; [exact E|].
  rewrite E. destruct (Statics.goingForward (statics c)); reflexivity.
Qed.

Lemma updateObjectMovement_captures dt c s0 rest :
  spheres c = s0 :: rest ->
  Statics.startPos (statics (updateObjectMovement dt c))
  = Some (match Statics.startPos (statics c) with
          | Some v => v
          | None => CollisionSphere.center s0
          end).
Proof.
  intros E. unfold updateObjectMovement. rewrite E.
  destruct (Statics.goingForward (statics c)); reflexivity.
Qed.

Lemma updateWindVariation_statics dt c :
  statics (updateWindVariation dt c) = statics c.
Proof. unfold updateWindVariation. destruct fltb; reflexivity. Qed.

Lemma update_startPos fuel dt c c' v :
  Statics.startPos (statics c) = Some v ->
  update fuel dt c = Ok c' ->
  Statics.startPos (statics c') = Some v.
Proof.
  intros Hv E. unfold update in E. apply bind_Ok in E.
  destruct E as (c1 & E1 & E). apply update_loop_startPos in E1.
  destruct E1 as [E1 _]. simpl in E1.
  apply updateVertexData_statics in E. destruct E as [E _].
  rewrite E, updateWindVariation_statics.
  apply updateObjectMovement_startPos. congruence.
Qed.

Lemma exec_startPos k c c' v :
  Statics.startPos (statics c) = Some v ->
  exec k c = Ok c' ->
  Statics.startPos (statics c') = Some v.
Proof.
  intros Hv E. destruct k; simpl in E;
    try (apply Ok_inj in E; subst c'; exact Hv).
  - eapply update_startPos; eauto.
  - apply setMode_statics in E. destruct E as [E _]. now rewrite E.
  - apply createClothGrid_statics in E. destruct E as [E _]. now rewrite E.
  - apply Ok_inj in E. subst c'. unfold handleMouseInteraction.
    destruct (negb tearing); exact Hv.
Qed.

Lemma run_startPos ks c c' v :
  Statics.startPos (statics c) = Some v ->
  run ks c = Ok c' ->
  Statics.startPos (statics c') = Some v.
Proof.
  revert c. unfold run.
  induction ks as [|k ks IH]; intros c Hv E; simpl in E.
  - apply Ok_inj in E. now subst c'.
  - apply bind_Ok in E. destruct E as (c1 & E1 & E).
    apply (IH c1); [|exact E]. eapply exec_startPos; eauto.
Qed.

(** X11.  The start position of the moving obstacle is captured once per
    process.  The first [update] that finds a sphere makes it the centre of
    sphere 0 (or keeps the one captured earlier), and no later call changes
    it, whatever spheres are cleared or added afterwards.  [reset] and
    [setMode] in particular leave the start position, the angle, the
    direction and [objectMoveTime] as they are, so the obstacle of a new
    mode resumes the old path. *)
Theorem obstacle_start_captured_once ks fuel dt c c1 c' s0 rest :
  spheres c = s0 :: rest ->
  update fuel dt c = Ok c1 ->
  run ks c1 = Ok c' ->
  Statics.startPos (statics c')
  = Some (match Statics.startPos (statics c) with
          | Some v => v
          | None => CollisionSphere.center s0
          end) /\
  (forall k c2, rebuilds k = true -> exec k c' = Ok c2 ->
     statics c2 = statics c' /\ objectMoveTime c2 = objectMoveTime c').
Proof.
  intros Hs E1 E. split.
  - apply (run_startPos ks c1); [|exact E].
    unfold update in E1. apply bind_Ok in E1.
    destruct E1 as (c0 & E0 & E1). apply update_loop_startPos in E0.
    destruct E0 as [A0 S0]. simpl in A0, S0.
    apply updateVertexData_statics in E1. destruct E1 as [E1 _].
    rewrite E1, updateWindVariation_statics.
    rewrite (updateObjectMovement_captures dt c0 s0 rest) by congruence.
    now rewrite A0.
  - intros k c2 Hk E2. destruct k; try discriminate; simpl in E2.
    + now apply setMode_statics in E2.
    + now apply createClothGrid_statics in E2.
Qed.

End Anchor.

(** ** The passes of the fixed-step loop *)

Section Passes.
Context {F : Type} `{Scalar F}.
Implicit Types (c : ClothSystem F).

Lemma elapsedTime_tail dt c c' :
  updateVertexData (updateWindVariation dt (updateObjectMovement dt c))
  = Ok c' ->
  elapsedTime c' = elapsedTime c.
Proof.
  unfold updateVertexData. intros E. apply bind_Ok in E.
  destruct E as (m & _ & E). apply Ok_inj in E. subst c'. simpl.
  unfold updateWindVariation, updateObjectMovement.
  destruct fltb; destruct (spheres c); try reflexivity;
    destruct (Statics.goingForward _); reflexivity.
Qed.

(** X12.  A frame too short to fill the fixed step of 1/60 runs no physics
    pass: [update] returns, no particle and no spring is touched, and the
    time of the frame is kept in [elapsedTime] for the frames to come. *)
Theorem update_short_frame fuel dt c :
  grid_ok c ->
  fleb fixedTimeStep (fadd (elapsedTime c) dt) = false ->
  exists c', update fuel dt c = Ok c' /\
             particles c' = particles c /\ springs c' = springs c /\
             elapsedTime c' = fadd (elapsedTime c) dt.
Proof.
  intros Hok Hlt. unfold update.
  set (c0 := set_elapsedTime (fadd (elapsedTime c) dt) c).
  assert (E0 : update_loop fuel c0 = Ok c0).
  { destruct fuel; simpl; now rewrite Hlt. }
  rewrite E0. cbn [bind].
  set (c1 := updateWindVariation dt (updateObjectMovement dt c0)).
  assert (Hok1 : grid_ok c1).
  { apply (grid_ok_same c); [|exact Hok].
    eapply same_grid_trans; [|apply same_grid_updateWindVariation].
    eapply same_grid_trans; [|apply same_grid_updateObjectMovement].
    now repeat split. }
  destruct (updateVertexData_total c1 Hok1) as [c' E]. exists c'.
  split; [exact E|]. split; [|split].
  - rewrite (particles_updateVertexData _ _ E). subst c1.
    now rewrite particles_updateWindVariation, particles_updateObjectMovement.
  - rewrite (springs_updateVertexData _ _ E). subst c1.
    now rewrite springs_updateWindVariation, springs_updateObjectMovement.
  - subst c1. now rewrite (elapsedTime_tail dt c0 c' E).
Qed.

(** X13.  When the accumulated time is so large that subtracting the fixed
    step leaves it as it is, the loop of [update] has no last pass: with
    whatever number of passes allowed, [update] does not return. *)
Theorem update_never_returns dt c :
  reachable c ->
  fleb fixedTimeStep (fadd (elapsedTime c) dt) = true ->
  fsub (fadd (elapsedTime c) dt) fixedTimeStep = fadd (elapsedTime c) dt ->
  forall fuel, update fuel dt c = Fail OutOfFuel.
Proof.
  intros Hc Hge Hsub fuel. unfold update.
  set (c0 := set_elapsedTime (fadd (elapsedTime c) dt) c).
  assert (Hs : springs_ok c0).
  { eapply springs_ok_decays; [| |apply (reachable_springs_ok c Hc)].
    - now repeat split.
    - apply Forall2_decays_refl. }
  assert (E : update_loop fuel c0 = Fail OutOfFuel)
    by (apply update_loop_stuck; assumption).
  now rewrite E.
Qed.

End Passes.

(** ** The ground plane *)

Section Ground.
Context {F : Type} `{Scalar F}.
Implicit Types (c : ClothSystem F) (p : Particle.t F).

Lemma collide_grounded (ss : list (CollisionSphere.t F)) p :
  fltb (ofZ (-5)) (ofZ (-5)) = false ->
  Particle.active (collide ss p) = true ->
  below_ground (collide ss p) = false.
Proof.
  intros Hirr. unfold collide.
  destruct (Particle.active p) eqn:Ha; simpl; [|congruence]. intros _.
  set (q := fold_left collide_sphere ss p).
  unfold collide_ground, below_ground.
  destruct (fltb (Vec3.y (Particle.position q)) (ofZ (-5))) eqn:Hq.
  - simpl. exact Hirr.
  - exact Hq.
Qed.

Lemma handleCollisions_grounded c :
  fltb (ofZ (-5)) (ofZ (-5)) = false ->
  grounded (particles (handleCollisions c)).
Proof.
  intros Hirr. unfold grounded, handleCollisions. simpl.
  apply List.Forall_map. apply List.Forall_forall. intros p _.
  now apply collide_grounded.
Qed.

Lemma substep_grounded c c' :
  fltb (ofZ (-5)) (ofZ (-5)) = false ->
  substep c = Ok c' -> grounded (particles c').
Proof.
  intros Hirr E. unfold substep in E.
  apply bind_Ok in E. destruct E as (c2 & _ & E).
  apply bind_Ok in E. destruct E as (c3 & _ & E).
  apply bind_Ok in E. destruct E as (c4 & _ & E).
  apply Ok_inj in E. subst c'. simpl.
  now apply handleCollisions_grounded.
Qed.

Lemma update_loop_grounded fuel c c' :
  fltb (ofZ (-5)) (ofZ (-5)) = false ->
  update_loop fuel c = Ok c' ->
  grounded (particles c) \/ fleb fixedTimeStep (elapsedTime c) = true ->
  grounded (particles c').
Proof.
  intros Hirr. revert c. induction fuel as [|fuel IH]; intros c E Hc;
    simpl in E; destruct (fleb fixedTimeStep (elapsedTime c)) eqn:Hge;
    try discriminate;
    try (apply Ok_inj in E; subst c'; destruct Hc; [assumption|discriminate]).
  apply bind_Ok in E. destruct E as (c1 & E1 & E).
  apply (IH c1 E). left. now apply (substep_grounded c).
Qed.

(** X14.  A collision pass leaves no active particle below the ground
    plane at [y = -5]: whatever the spheres did to it, the clamp comes
    last.  So after every [update] that ran at least one physics pass, no
    active particle has [position.y < -5.0f]. *)
Theorem ground_plane_holds fuel dt c c' :
  fltb (ofZ (-5)) (ofZ (-5)) = false ->
  fleb fixedTimeStep (fadd (elapsedTime c) dt) = true ->
  update fuel dt c = Ok c' ->
  grounded (particles (handleCollisions c)) /\ grounded (particles c').
Proof.
  intros Hirr Hge E. split; [now apply handleCollisions_grounded|].
  unfold update in E. apply bind_Ok in E. destruct E as (c1 & E1 & E).
  rewrite (particles_updateVertexData _ _ E).
  rewrite particles_updateWindVariation, particles_updateObjectMovement.
  apply (update_loop_grounded fuel _ c1 Hirr E1). right. exact Hge.
Qed.

End Ground.

(** ** Pins, passes and what a rebuild keeps *)

Section Pins.
Context {F : Type} `{Scalar F}.
Implicit Types (c : ClothSystem F) (p : Particle.t F)
  (ps : list (Particle.t F)).

Lemma flags_pinned ps ps' :
  map flags ps' = map flags ps ->
  map Particle.pinned ps' = map Particle.pinned ps /\
  map Particle.mass ps' = map Particle.mass ps.
Proof.
  intros E. split.
  - apply (f_equal (map (fun t : F * bool * bool => snd (fst t)))) in E.
    rewrite !map_map in E. exact E.
  - apply (f_equal (map (fun t : F * bool * bool => fst (fst t)))) in E.
    rewrite !map_map in E. exact E.
Qed.

Lemma handleMouseInteraction_pinned pos tearing c :
  map Particle.pinned (particles (handleMouseInteraction pos tearing c))
  = map Particle.pinned (particles c) /\
  map Particle.mass (particles (handleMouseInteraction pos tearing c))
  = map Particle.mass (particles c).
Proof.
  destruct tearing; [|split; reflexivity].
  rewrite handleMouseInteraction_maps. simpl. rewrite !map_map.
  split; apply map_ext; intros p; unfold tear_particle;
    destruct in_tear_range; reflexivity.
Qed.

Lemma exec_pinned k c c' :
  rebuilds k = false -> exec k c = Ok c' ->
  map Particle.pinned (particles c') = map Particle.pinned (particles c) /\
  map Particle.mass (particles c') = map Particle.mass (particles c).
Proof.
  intros Hk E. destruct k; try discriminate; simpl in E;
    try (apply Ok_inj in E; subst c'; split; reflexivity).
  - apply flags_pinned. eapply flags_update; eauto.
  - apply Ok_inj in E. subst c'. apply handleMouseInteraction_pinned.
Qed.

(** X17.  Between two rebuilds of the grid no call pins or unpins a
    particle or changes a mass: [update], tearing with the mouse and the
    setters leave [pinned] and [mass] of every particle as they are. *)
Theorem pins_fixed_between_rebuilds (ks : list call) c c' :
  forallb (fun k => negb (rebuilds k)) ks = true ->
  run ks c = Ok c' ->
  map Particle.pinned (particles c') = map Particle.pinned (particles c) /\
  map Particle.mass (particles c') = map Particle.mass (particles c).
Proof.
  revert c. unfold run.
  induction ks as [|k ks IH]; intros c Hks E; simpl in E.
  - apply Ok_inj in E. now subst c'.
  - simpl in Hks. apply andb_prop in Hks. destruct Hks as [Hk Hks].
    apply bind_Ok in E. destruct E as (c1 & E1 & E).
    destruct (IH c1 Hks E) as [I1 I2].
    destruct (exec_pinned k c c1) as [P1 P2];
      [now destruct (rebuilds k) | exact E1 |].
    split; congruence.
Qed.

Lemma update_loop_passes fuel c c1 :
  update_loop fuel c = Ok c1 ->
  fleb fixedTimeStep (elapsedTime c1) = false /\
  exists n, (n <= fuel)%nat /\
    elapsedTime c1 = after_passes n (elapsedTime c) /\
    forall k, (k < n)%nat ->
      fleb fixedTimeStep (after_passes k (elapsedTime c)) = true.
Proof.
  revert c. induction fuel as [|fuel IH]; intros c E; simpl in E;
    destruct (fleb fixedTimeStep (elapsedTime c)) eqn:Hge;
    try discriminate.
  - apply Ok_inj in E. subst c1. split; [exact Hge|].
    exists 0%nat. split; [lia|]. split; [reflexivity|]. intros k Hk. lia.
  - apply bind_Ok in E. destruct E as (c' & E1 & E).
    apply elapsedTime_substep in E1.
    destruct (IH c' E) as (Hlt & n & Hn & En & Hk). split; [exact Hlt|].
    exists (S n). split; [lia|]. unfold after_passes in *.
    rewrite E1 in En, Hk. split.
    + now rewrite Nat.iter_succ_r.
    + intros [|k] Hlt'; [exact Hge|].
      rewrite Nat.iter_succ_r. apply Hk. lia.
  - apply Ok_inj in E. subst c1. split; [exact Hge|].
    exists 0%nat. split; [lia|]. split; [reflexivity|]. intros k Hk. lia.
Qed.

(** X18.  When [update] returns, the time it leaves in [elapsedTime] is
    no longer at least a step, and it is the old time plus the frame time
    with the step of 1/60 subtracted once per pass; the number of passes
    depends on these times alone, not on the cloth. *)
Theorem update_passes fuel dt c c' :
  update fuel dt c = Ok c' ->
  fleb fixedTimeStep (elapsedTime c') = false /\
  exists n, (n <= fuel)%nat /\
    elapsedTime c' = after_passes n (fadd (elapsedTime c) dt) /\
    forall k, (k < n)%nat ->
      fleb fixedTimeStep (after_passes k (fadd (elapsedTime c) dt)) = true.
Proof.
  unfold update. intros E. apply bind_Ok in E.
  destruct E as (c1 & E1 & E). apply elapsedTime_tail in E.
  apply update_loop_passes in E1. simpl in E1. now rewrite E.
Qed.

Lemma createClothGrid_keeps c c' :
  createClothGrid c = Ok c' ->
  tuning c' = tuning c /\ windDirection c' = windDirection c /\
  spheres c' = spheres c /\ windStrength c' = windStrength c.
Proof.
  unfold createClothGrid, updateVertexData. intros E.
  apply bind_Ok in E. destruct E as (ss & _ & E).
  apply bind_Ok in E. destruct E as (m & _ & E).
  apply Ok_inj in E. now subst c'.
Qed.

Lemma pin_top_row_keeps c c' :
  pin_top_row c = Ok c' ->
  tuning c' = tuning c /\ windDirection c' = windDirection c.
Proof.
  unfold pin_top_row. intros E. apply bind_Ok in E.
  destruct E as (ps & _ & E). apply Ok_inj in E. now subst c'.
Qed.

(** X19.  A rebuild of the grid keeps what the user tuned and what the
    process accumulated: gravity, damping, the tear threshold, the extents
    of the cloth, the three time accumulators and the statics.  [reset]
    keeps the spheres and the wind as well, and only [setMode(FLAG)]
    assigns the wind direction, so the direction of an earlier flag mode
    outlives the change to another mode. *)
Theorem rebuild_keeps_tuning k c c' :
  rebuilds k = true -> exec k c = Ok c' ->
  tuning c' = tuning c /\
  (k <> SetMode FLAG -> windDirection c' = windDirection c) /\
  (k = Reset -> spheres c' = spheres c /\ windStrength c' = windStrength c).
Proof.
  intros Hk E. destruct k; try discriminate; simpl in E.
  - unfold setMode, reset in E. apply bind_Ok in E.
    destruct E as (c0 & E0 & E). apply createClothGrid_keeps in E0.
    destruct E0 as (T0 & D0 & _). rewrite <- T0, <- D0.
    split; [|split; [|discriminate]].
    + destruct mode.
      * now apply pin_top_row_keeps in E.
      * apply bind_Ok in E. destruct E as (ps1 & _ & E).
        apply bind_Ok in E. destruct E as (ps2 & _ & E).
        apply Ok_inj in E. now subst c'.
      * now apply pin_top_row_keeps in E.
    + intros Hm. destruct mode.
      * now apply pin_top_row_keeps in E.
      * apply bind_Ok in E. destruct E as (ps1 & _ & E).
        apply bind_Ok in E. destruct E as (ps2 & _ & E).
        apply Ok_inj in E. now subst c'.
      * congruence.
  - apply createClothGrid_keeps in E. destruct E as (T & D & S & W).
    auto.
Qed.

End Pins.

(** ** Pinned particles while there is no obstacle *)

Section Quiet.
Context {F : Type} `{Scalar F}.
Implicit Types (c : ClothSystem F) (p : Particle.t F).

Lemma update_spheres_nil fuel dt c c' :
  update fuel dt c = Ok c' -> spheres c = [] -> spheres c' = [].
Proof.
  unfold update. intros E Es. apply bind_Ok in E.
  destruct E as (c1 & E1 & E). apply update_loop_startPos in E1.
  destruct E1 as [_ S1]. simpl in S1. rewrite Es in S1.
  unfold updateVertexData in E. apply bind_Ok in E.
  destruct E as (m & _ & E). apply Ok_inj in E. subst c'. simpl.
  rewrite (proj1 (spheres_updateWindVariation dt _)).
  unfold updateObjectMovement. now rewrite S1.
Qed.

Lemma exec_quiet k c c' (i : nat) p :
  quiet k = true -> exec k c = Ok c' -> spheres c = [] ->
  particles c !! i = Some p -> Particle.pinned p = true ->
  below_ground p = false ->
  spheres c' = [] /\ particles c' !! i = Some p.
Proof.
  intros Hk E Es Ep Hp Hg. destruct k; try discriminate; simpl in E;
    try (apply Ok_inj in E; subst c'; split; assumption).
  split.
  - eapply update_spheres_nil; eauto.
  - eapply update_pinned_without_obstacles; eauto.
Qed.

(** X16.  While the sphere list is empty, no sequence of [update] calls and
    parameter changes moves a pinned particle that is not below the ground
    plane: whatever the gravity, the wind, the damping and the frame times,
    each of its members is as before. *)
Theorem pinned_particle_stays (ks : list call) c c' (i : nat) p :
  forallb quiet ks = true ->
  spheres c = [] ->
  run ks c = Ok c' ->
  particles c !! i = Some p -> Particle.pinned p = true ->
  below_ground p = false ->
  particles c' !! i = Some p.
Proof.
  revert c. unfold run.
  induction ks as [|k ks IH]; intros c Hks Es E Ep Hp Hg; simpl in E.
  - apply Ok_inj in E. now subst c'.
  - simpl in Hks. apply andb_prop in Hks. destruct Hks as [Hk Hks].
    apply bind_Ok in E. destruct E as (c1 & E1 & E).
    destruct (exec_quiet k c c1 i p Hk E1 Es Ep Hp Hg) as [Es1 Ep1].
    now apply (IH c1).
Qed.

End Quiet.

(** ** The direction of the wind *)

Section Wind.
Context {F : Type} `{Scalar F}.
Implicit Types (c : ClothSystem F).

Lemma wind_state_satisfyConstraints c c' :
  satisfyConstraints c = Ok c' -> wind_state c' = wind_state c.
Proof.
  unfold satisfyConstraints. intros E. apply bind_Ok in E.
  destruct E as (r & _ & E). apply Ok_inj in E. now subst c'.
Qed.

Lemma wind_state_substep c c' :
  substep c = Ok c' -> wind_state c' = wind_state c.
Proof.
  unfold substep. intros E.
  apply bind_Ok in E. destruct E as (c2 & E2 & E).
  apply bind_Ok in E. destruct E as (c3 & E3 & E).
  apply bind_Ok in E. destruct E as (c4 & E4 & E).
  apply Ok_inj in E. subst c'.
  apply wind_state_satisfyConstraints in E2, E3, E4.
  change (wind_state c4 = wind_state c). rewrite E4, E3, E2.
  unfold applyForces. destruct applyForces_loop. reflexivity.
Qed.

Lemma wind_state_update_loop fuel c c' :
  update_loop fuel c = Ok c' -> wind_state c' = wind_state c.
Proof.
  revert c. induction fuel as [|fuel IH]; intros c; simpl;
    destruct (fleb fixedTimeStep (elapsedTime c)); intros E;
    try discriminate; try (now apply Ok_inj in E; subst c').
  apply bind_Ok in E. destruct E as (c1 & E1 & E).
  rewrite (IH _ E). now apply wind_state_substep.
Qed.

Lemma wind_state_updateObjectMovement dt c :
  wind_state (updateObjectMovement dt c) = wind_state c.
Proof.
  unfold updateObjectMovement. destruct (spheres c); [reflexivity|].
  destruct (Statics.goingForward _); reflexivity.
Qed.

Lemma wind_state_updateWindVariation dt c1 c2 :
  wind_state c1 = wind_state c2 ->
  wind_state (updateWindVariation dt c1)
  = wind_state (updateWindVariation dt c2).
Proof.
  unfold wind_state, updateWindVariation. intros [= Es Ed Et Ek].
  rewrite Es. destruct fltb; simpl; congruence.
Qed.

Lemma wind_state_update fuel dt c c' :
  update fuel dt c = Ok c' ->
  wind_state c' = wind_state (updateWindVariation dt c).
Proof.
  unfold update. intros E. apply bind_Ok in E.
  destruct E as (c1 & E1 & E). apply wind_state_update_loop in E1.
  unfold updateVertexData in E. apply bind_Ok in E.
  destruct E as (m & _ & E). apply Ok_inj in E. subst c'.
  change (wind_state
            (updateWindVariation dt (updateObjectMovement dt c1))
          = wind_state (updateWindVariation dt c)).
  apply wind_state_updateWindVariation.
  now rewrite wind_state_updateObjectMovement, E1.
Qed.

(** X20.  What [update] does to the wind depends on the wind strength
    alone.  Below strength 1 the wind direction and [windVariationTime]
    are kept.  From strength 1 on the direction is computed anew from the
    fixed base direction [(0, 0, -1)] on every frame, so a direction given
    with [setWindDirection] is gone after the next [update]: the frame ends
    with the same direction whatever was set before it. *)
Theorem wind_direction_after_update fuel dt c c' :
  update fuel dt c = Ok c' ->
  (fltb (windStrength c) (ofZ 1) = true ->
   windDirection c' = windDirection c /\
   windVariationTime c' = windVariationTime c) /\
  (fltb (windStrength c) (ofZ 1) = false ->
   forall v fuel2 c2',
     update fuel2 dt (setWindDirection v c) = Ok c2' ->
     windDirection c2' = windDirection c').
Proof.
  intros E. apply wind_state_update in E. split.
  - intros Hlt. unfold updateWindVariation in E. rewrite Hlt in E.
    unfold wind_state in E. split; congruence.
  - intros Hge v fuel2 c2' E2. apply wind_state_update in E2.
    unfold updateWindVariation, setWindDirection in E, E2. simpl in E2.
    rewrite Hge in E, E2. unfold wind_state in E, E2. simpl in E, E2.
    congruence.
Qed.

End Wind.

(** ** Tearing by stress and the mesh *)

Section Holes.
Context {F : Type} `{Scalar F}.
Implicit Types (c : ClothSystem F) (ps : list (Particle.t F)).

Lemma active_filter_map ps :
  length (List.filter Particle.active ps)
  = length (List.filter (fun b : bool => b) (map Particle.active ps)).
Proof.
  induction ps as [|p ps IH]; simpl; [reflexivity|].
  destruct (Particle.active p); simpl; now rewrite IH.
Qed.

Lemma rank_active_ext ps ps' g :
  map Particle.active ps' = map Particle.active ps ->
  rank ps' g = rank ps g.
Proof.
  intros E. unfold rank. rewrite !active_filter_map.
  rewrite <- !List.firstn_map. now rewrite E.
Qed.

Lemma lookup_active_ext ps ps' (g : nat) :
  map Particle.active ps' = map Particle.active ps ->
  Particle.active <$> ps' !! g = Particle.active <$> ps !! g.
Proof.
  intros E. rewrite <- !list_lookup_fmap.
  change (map Particle.active ps' !! g = map Particle.active ps !! g).
  now rewrite E.
Qed.

Lemma is_active_ext ps ps' j :
  map Particle.active ps' = map Particle.active ps ->
  is_active ps' j = is_active ps j.
Proof.
  intros E. unfold is_active.
  pose proof (lookup_active_ext ps ps' (Z.to_nat j) E) as L.
  destruct (ps' !! Z.to_nat j), (ps !! Z.to_nat j); simpl in L;
    congruence.
Qed.

Lemma vertex_of_ext ps ps' g :
  map Particle.active ps' = map Particle.active ps ->
  vertex_of ps' g = vertex_of ps g.
Proof.
  intros E. unfold vertex_of. rewrite (rank_active_ext ps ps' g E).
  pose proof (lookup_active_ext ps ps' g E) as L.
  destruct (ps' !! g) as [p'|], (ps !! g) as [p|]; simpl in L;
    try congruence.
  injection L as L. now rewrite L.
Qed.

Lemma quad_triangles_ext ps ps' W yx :
  map Particle.active ps' = map Particle.active ps ->
  quad_triangles ps' W yx = quad_triangles ps W yx.
Proof.
  intros E. destruct yx as [y x]. unfold quad_triangles.
  now rewrite !(is_active_ext ps ps' _ E), !(vertex_of_ext ps ps' _ E).
Qed.

Lemma flags_active ps ps' :
  map flags ps' = map flags ps ->
  map Particle.active ps' = map Particle.active ps.
Proof.
  intros E.
  apply (f_equal (map (fun t : F * bool * bool => snd t))) in E.
  rewrite !map_map in E. exact E.
Qed.

Lemma indices_updateVertexData c c' :
  grid_ok c -> updateVertexData c = Ok c' ->
  indices c'
  = flat_map (quad_triangles (particles c) (gridWidth c))
      (grid_cells (gridHeight c - 1) (gridWidth c - 1)).
Proof.
  intros Hok E. destruct (mesh_spec c Hok) as (vs & Em & _).
  unfold updateVertexData in E. rewrite Em in E. cbn [bind] in E.
  apply Ok_inj in E. now subst c'.
Qed.

(** X21.  Tearing by stress opens no hole in the mesh.  The index buffer
    depends on the [active] flags of the particles alone, and [update]
    clears none of them: whatever springs its passes tear, the index buffer
    after [update] is the one a rebuild of the mesh gives before it. *)
Theorem update_keeps_index_buffer fuel dt c c' c0 :
  grid_ok c ->
  update fuel dt c = Ok c' ->
  updateVertexData c = Ok c0 ->
  indices c' = indices c0.
Proof.
  intros Hok E E0.
  pose proof (flags_active _ _ (flags_update _ _ _ _ E)) as Ha.
  destruct (update_inv _ _ _ _ E) as (c1 & Hg & E1).
  pose proof (particles_updateVertexData _ _ E1) as Hp.
  rewrite (indices_updateVertexData c1 c' (grid_ok_same _ _ Hg Hok) E1).
  rewrite (indices_updateVertexData c c0 Hok E0).
  destruct Hg as (_ & -> & ->). rewrite Hp in Ha.
  apply flat_map_ext. intros yx. now apply quad_triangles_ext.
Qed.

End Holes.

(** ** The cells a spring joins *)

Section Shapes.
Context {F : Type} `{Scalar F}.
Implicit Types (c : ClothSystem F) (ps : list (Particle.t F)).

Lemma spring_if_made (g : bool) ps a b k t l :
  spring_if g ps a b k t = Ok l ->
  Forall (fun sp => g = true /\ Spring.particle1 sp = a /\
                    Spring.particle2 sp = b /\ Spring.stiffness sp = k /\
                    Spring.type sp = t) l.
Proof.
  unfold spring_if. destruct g; intros E; inv_bind; subst l; auto 10.
Qed.

Lemma cell_springs_shaped ps (W Ht y x : Z) l :
  (0 <= y < Ht)%Z -> (0 <= x < W)%Z ->
  cell_springs ps W Ht (y, x) = Ok l ->
  Forall (shaped W Ht) l.
Proof.
  intros Hy Hx. unfold cell_springs. intros E. inv_bind. subst l.
  repeat apply Forall_app_2;
    match goal with
    | G : spring_if _ _ _ _ _ _ = Ok ?l |- Forall _ ?l =>
        apply spring_if_made in G; eapply Forall_impl; [exact G|];
        intros sp (Hg & P1 & P2 & Pk & Pt);
        rewrite ?andb_true_iff, ?Z.ltb_lt in Hg;
        unfold shaped; rewrite Pk, Pt; split; [reflexivity|]
    end.
  - left. exists y, x. repeat split; try lia; rewrite ?Z.add_0_r; auto.
  - right. exists y, x. repeat split; try lia; rewrite ?Z.add_0_r; auto.
  - left. exists y, x. repeat split; try lia; auto.
  - right. exists y, x. repeat split; try lia; auto.
  - left. exists y, x. repeat split; try lia; rewrite ?Z.add_0_r; auto.
  - right. exists y, x. repeat split; try lia; rewrite ?Z.add_0_r; auto.
Qed.

Lemma grid_springs_shaped ps (W Ht : Z) l :
  grid_springs ps W Ht = Ok l -> Forall (shaped W Ht) l.
Proof.
  unfold grid_springs. intros E. inv_bind. subst l.
  eapply mapM_concat_Forall; [|eassumption].
  intros [y x] b [Hy Hx]%in_grid_cells Eb.
  eauto using cell_springs_shaped.
Qed.

Lemma createClothGrid_dims c c' :
  createClothGrid c = Ok c' ->
  gridWidth c' = gridWidth c /\ gridHeight c' = gridHeight c.
Proof.
  unfold createClothGrid. intros E. inv_bind.
  apply dims_updateVertexData in E. exact E.
Qed.

Lemma createClothGrid_well_shaped c c' :
  createClothGrid c = Ok c' -> well_shaped c'.
Proof.
  intros E. destruct (createClothGrid_dims _ _ E) as [EW EH].
  apply createClothGrid_inv in E. destruct E as [_ E].
  unfold well_shaped. rewrite EW, EH.
  exact (grid_springs_shaped _ _ _ _ E).
Qed.

Lemma setMode_dims mode c c' :
  setMode mode c = Ok c' ->
  exists c0, createClothGrid c = Ok c0 /\
             gridWidth c' = gridWidth c0 /\ gridHeight c' = gridHeight c0.
Proof.
  unfold setMode, reset. intros E. inv_bind. eexists.
  split; [eassumption|]. destruct mode.
  - apply same_grid_pin_top_row in E. destruct E as (_ & EW & EH).
    simpl in EW, EH. auto.
  - inv_bind. now subst c'.
  - apply same_grid_pin_top_row in E. destruct E as (_ & EW & EH).
    simpl in EW, EH. auto.
Qed.

Lemma shaped_decays (W Ht : Z) (ss ss' : list (Spring.t F)) :
  Forall2 decays ss ss' ->
  Forall (shaped W Ht) ss -> Forall (shaped W Ht) ss'.
Proof.
  induction 1 as [|sp sp' ss ss' Hd _ IH]; intros Hs; [constructor|].
  inversion Hs; subst. constructor; [|auto].
  destruct Hd as [->| ->]; assumption.
Qed.

(** X22.  In every reachable state each spring has the stiffness of its
    type (0.7 structural, 0.3 shear, 0.15 bend) and joins two cells of the
    grid in the pattern of its type: a structural spring a cell and its
    right or lower neighbour, a shear spring a cell and a diagonal
    neighbour of the next row, a bend spring a cell and the cell two
    columns or two rows further.  No spring wraps around an edge of the
    grid, and tearing changes none of this. *)
Theorem springs_well_shaped c : reachable c -> well_shaped c.
Proof.
  induction 1 as [st width height w h c E | k c c' Hc IH E].
  - unfold ClothSystem_new in E. eauto using createClothGrid_well_shaped.
  - destruct (rebuilds k) eqn:Hk.
    + destruct k; try discriminate; simpl in E.
      * destruct (setMode_dims _ _ _ E) as (c0 & E0 & EW & EH).
        apply setMode_springs in E as (c1 & E1 & Es).
        rewrite E0 in E1. apply Ok_inj in E1. subst c1.
        unfold well_shaped. rewrite Es, EW, EH.
        exact (createClothGrid_well_shaped _ _ E0).
      * eauto using createClothGrid_well_shaped.
    + pose proof (exec_same_grid _ _ _ Hk E) as (_ & EW & EH).
      unfold well_shaped. rewrite EW, EH.
      eapply shaped_decays; [|exact IH]. eauto using exec_decays.
Qed.

End Shapes.

(** ** A frame time that is not a number *)

Section Poisoned.
Context {F : Type} `{Scalar F}.
Implicit Types (c : ClothSystem F).

Lemma update_poisoned fuel dt c :
  grid_ok c ->
  (forall x, fadd (elapsedTime c) x = elapsedTime c) ->
  fleb fixedTimeStep (elapsedTime c) = false ->
  exists c', update fuel dt c = Ok c' /\ grid_ok c' /\
             particles c' = particles c /\ springs c' = springs c /\
             elapsedTime c' = elapsedTime c.
Proof.
  intros Hok Habs Hlt. unfold update. rewrite Habs.
  set (c0 := set_elapsedTime (elapsedTime c) c).
  assert (E0 : update_loop fuel c0 = Ok c0).
  { destruct fuel; simpl; now rewrite Hlt. }
  rewrite E0. cbn [bind].
  set (c1 := updateWindVariation dt (updateObjectMovement dt c0)).
  assert (Hg : same_grid c c1).
  { eapply same_grid_trans; [|apply same_grid_updateWindVariation].
    eapply same_grid_trans; [|apply same_grid_updateObjectMovement].
    now repeat split. }
  destruct (updateVertexData_total c1 (grid_ok_same _ _ Hg Hok)) as [c' E].
  exists c'. split; [exact E|].
  pose proof (same_grid_updateVertexData _ _ E) as Hg'.
  split; [eauto using grid_ok_same, same_grid_trans|]. split; [|split].
  - rewrite (particles_updateVertexData _ _ E). subst c1.
    now rewrite particles_updateWindVariation, particles_updateObjectMovement.
  - rewrite (springs_updateVertexData _ _ E). subst c1.
    now rewrite springs_updateWindVariation, springs_updateObjectMovement.
  - subst c1. now rewrite (elapsedTime_tail dt c0 c' E).
Qed.

(** X23.  Once [elapsedTime] is not a number (it absorbs every addition
    and fails the test of the loop), the physics is off for good: every
    later [update] returns without a pass, whatever its frame time, and
    leaves the particles, the springs and [elapsedTime] as they are.  One
    call [update(NaN)] brings this about. *)
Theorem time_poisoned (ks : list call) c :
  grid_ok c ->
  (forall x, fadd (elapsedTime c) x = elapsedTime c) ->
  fleb fixedTimeStep (elapsedTime c) = false ->
  frames ks = true ->
  exists c', run ks c = Ok c' /\
             particles c' = particles c /\ springs c' = springs c /\
             elapsedTime c' = elapsedTime c.
Proof.
  revert c. unfold run, frames.
  induction ks as [|k ks IH]; intros c Hok Habs Hlt Hks; simpl.
  - exists c. auto.
  - simpl in Hks. apply andb_prop in Hks. destruct Hks as [Hk Hks].
    destruct k; try discriminate. simpl.
    destruct (update_poisoned fuel deltaTime c Hok Habs Hlt)
      as (c1 & E1 & Hok1 & P1 & S1 & T1).
    rewrite E1. cbn [bind].
    destruct (IH c1) as (c' & E & P & S & T); try assumption.
    + intros x. rewrite T1. apply Habs.
    + now rewrite T1.
    + exists c'. split; [exact E|]. split; [|split]; congruence.
Qed.

End Poisoned.

(** ** Containment in exact arithmetic *)

Section LastPass.
Context {F : Type} `{Scalar F}.
Implicit Types (c : ClothSystem F).




End LastPass.

Lemma Rltb_true (a b : R) : Rltb a b = true -> (a < b)%R.
Proof. unfold Rltb. destruct (Rlt_dec a b); [auto | discriminate]. Qed.

Lemma Rltb_false (a b : R) : Rltb a b = false -> (b <= a)%R.
Proof. unfold Rltb. destruct (Rlt_dec a b); [discriminate | lra]. Qed.

Lemma Rleb_intro (a b : R) : (a <= b)%R -> Rleb a b = true.
Proof. unfold Rleb. destruct (Rle_dec a b); [reflexivity | contradiction]. Qed.

Lemma dot_self_nonneg (v : vec3 R) : (0 <= dot v v)%R.
Proof. destruct v as [a b d]. unfold dot, vmul. cbn. nra. Qed.

Lemma length3_square (v : vec3 R) : (length3 v * length3 v = dot v v)%R.
Proof. unfold length3. cbn [fsqrt exact]. apply sqrt_sqrt, dot_self_nonneg. Qed.

(** [center + normal * radius] is at the distance [radius] from the centre
    when the normal is [diff / distance]. *)
Lemma length3_projected (ctr diff : vec3 R) (r : R) :
  (0 < length3 diff)%R -> (0 <= r)%R ->
  length3 (vsub (vadd ctr (vscale (vdiv diff (length3 diff)) r)) ctr) = r.
Proof.
  intros Hd Hr. pose proof (length3_square diff) as Hsq.
  set (d := length3 diff) in *. clearbody d.
  destruct ctr as [cx cy cz], diff as [a b e].
  unfold length3, dot, vmul, vsub, vadd, vscale, vdiv in *. cbn in *.
  replace ((cx + a / d * r - cx) * (cx + a / d * r - cx) +
           (cy + b / d * r - cy) * (cy + b / d * r - cy) +
           (cz + e / d * r - cz) * (cz + e / d * r - cz))%R
    with (r * r)%R.
  - now apply sqrt_square.
  - rewrite <- (Rmult_1_r (r * r)).
    replace 1%R with ((a * a + b * b + e * e) / (d * d))%R
      by (rewrite <- Hsq; field; lra).
    field. lra.
Qed.

Lemma length3_fallback (ctr : vec3 R) (r : R) :
  (0 <= r)%R ->
  length3 (vsub (vadd ctr (vscale (Vec3.mk (ofZ 0) (ofZ 1) (ofZ 0)) r)) ctr)
  = r.
Proof.
  intros Hr. destruct ctr as [cx cy cz].
  unfold length3, dot, vmul, vsub, vadd, vscale. cbn.
  replace ((cx + 0 * r - cx) * (cx + 0 * r - cx) +
           (cy + 1 * r - cy) * (cy + 1 * r - cy) +
           (cz + 0 * r - cz) * (cz + 0 * r - cz))%R
    with (r * r)%R by ring.
  now apply sqrt_square.
Qed.

(** One sphere test of [handleCollisions] leaves the particle outside that
    sphere. *)
Lemma collide_sphere_outside (q : Particle.t R) (s : CollisionSphere.t R) :
  outside (collide_sphere q s) s = true.
Proof.
  unfold outside, collide_sphere.
  set (diff := vsub (Particle.position q) (CollisionSphere.center s)).
  destruct (fltb (length3 diff) (CollisionSphere.radius s)) eqn:Hin.
  - apply Rltb_true in Hin.
    assert (Hd : (0 <= length3 diff)%R) by apply sqrt_pos.
    cbn [Particle.position Particle.set_position Particle.set_oldPosition].
    apply Rleb_intro.
    destruct (fltb (lit 1 1000000) (length3 diff)) eqn:Hfar.
    + apply Rltb_true in Hfar.
      assert (Hlit : (0 < lit 1 1000000)%R) by (unfold lit; cbn; lra).
      rewrite length3_projected; lra.
    + rewrite length3_fallback; lra.
  - apply Rltb_false in Hin. apply Rleb_intro. exact Hin.
Qed.




(** ** Evaluations in binary32 *)

(** C1 at a concrete input.  Particle 2 of the 2 by 2 cloth is pinned and
    rests at [(-0.5, 1, 0)], 0.25 away from the centre of a sphere of radius
    0.5; one [update(1.0f / 60.0f)] leaves it at [(-0.5, 1, -0.25)]. *)
Lemma pinned_particle_pushed :
  exists p p',
    particles hit22 !! 2%nat = Some p /\
    Particle.pinned p = true /\
    update 1 (lit 1 60) hit22 = Ok hit22_after /\
    particles hit22_after !! 2%nat = Some p' /\
    Particle.pinned p' = true /\
    Particle.position p = Vec3.mk (lit (-1) 2) (ofZ 1) (ofZ 0) /\
    Particle.position p' = Vec3.mk (lit (-1) 2) (ofZ 1) (lit (-1) 4) /\
    Particle.position p' <> Particle.position p.
Proof.
  eexists. eexists. split; [reflexivity|].
  split; [reflexivity|]. split; [vm_compute; reflexivity|].
  split; [reflexivity|]. split; [reflexivity|].
  split; [vm_compute; reflexivity|]. split; [vm_compute; reflexivity|].
  vm_compute. discriminate.
Qed.


(** C3 at a concrete input: a 1 by 1 grid is accepted. *)
Lemma small_grid_accepted :
  ~ rejected (ClothSystem_new fresh_statics 1 1 (ofZ 1) (ofZ 1)).
Proof. intros [e E]. vm_compute in E. discriminate. Qed.

(** The 3 by 3 grid without its centre: every quad has the centre as a
    corner, so the rebuilt index buffer is empty and eight vertices stay. *)
Example torn33_rebuilt :
  exists c', updateVertexData torn33 = Ok c' /\
             indices c' = [] /\ length (vertices c') = 64%nat.
Proof. eexists. split; [vm_compute; reflexivity|]. split; reflexivity. Qed.

(** [update(16777216.0f)] on the fresh 2 by 2 cloth: in binary32
    [16777216 - 1/60] rounds back to [16777216], and no amount of fuel
    brings the loop to its end. *)
Example update_diverges (fuel : nat) :
  update fuel (ofZ 16777216) cloth22 = Fail OutOfFuel.
Proof.
  unfold update. rewrite update_loop_stuck; [reflexivity | |reflexivity..].
  eapply springs_ok_decays;
    [| |apply (createClothGrid_springs_ok (set_springs [] cloth22) cloth22)].
  - now repeat split.
  - apply Forall2_decays_refl.
  - vm_compute. reflexivity.
Qed.

(** A grid of height 0 is constructed, and [setMode] then indexes the empty
    particle vector at [(0 - 1) * 1 + 0]. *)
Example empty_grid_misbehaves_later :
  exists c,
    ClothSystem_new fresh_statics 1 0 (ofZ 1) (ofZ 1) = Ok c /\
    particles c = [] /\
    setMode TEAR c = Fail OutOfRange.
Proof. eexists. split; [vm_compute; reflexivity|]. split; reflexivity. Qed.

(** A grid of width 1 is constructed with coordinates [0.0f / 0.0f]. *)
Example narrow_grid_is_nan :
  exists c,
    ClothSystem_new fresh_statics 1 2 (ofZ 1) (ofZ 1) = Ok c /\
    map (fun p => Vec3.x (Particle.position p)) (particles c)
    = [S754_nan; S754_nan].
Proof. eexists. split; [vm_compute; reflexivity|]. reflexivity. Qed.

(** Where the containment of the collision pass ends, in binary32.  A
    sphere of radius 1.25 at [x = 16777216] and a particle one unit from its
    centre: the point [center + normal * radius] rounds back to where the
    particle was.  Two overlapping unit spheres: the second pushes the
    particle back into the first.  A sphere that reaches below the ground
    plane: the clamp lifts the particle into it. *)
Example containment_limits :
  deep_inside
    (handleCollisions
       (lone (Vec3.mk (ofZ 16777215) (ofZ 0) (ofZ 0))
          [CollisionSphere.mk (Vec3.mk (ofZ 16777216) (ofZ 0) (ofZ 0))
             (lit 5 4)]))
    (CollisionSphere.mk (Vec3.mk (ofZ 16777216) (ofZ 0) (ofZ 0)) (lit 5 4))
  = true /\
  deep_inside
    (handleCollisions
       (lone (splat (ofZ 0))
          [CollisionSphere.mk (Vec3.mk (lit (-1) 2) (ofZ 0) (ofZ 0)) (ofZ 1);
           CollisionSphere.mk (Vec3.mk (ofZ 1) (ofZ 0) (ofZ 0)) (ofZ 1)]))
    (CollisionSphere.mk (Vec3.mk (lit (-1) 2) (ofZ 0) (ofZ 0)) (ofZ 1))
  = true /\
  deep_inside
    (handleCollisions
       (lone (Vec3.mk (ofZ 0) (lit (-23) 4) (ofZ 0))
          [CollisionSphere.mk (Vec3.mk (ofZ 0) (lit (-11) 2) (ofZ 0))
             (ofZ 1)]))
    (CollisionSphere.mk (Vec3.mk (ofZ 0) (lit (-11) 2) (ofZ 0)) (ofZ 1))
  = true.
Proof. split; [|split]; vm_compute; reflexivity. Qed.

(** ** An evaluation in exact arithmetic *)

Lemma Rltb_intro (a b : R) : (a < b)%R -> Rltb a b = true.
Proof. unfold Rltb. destruct (Rlt_dec a b); [reflexivity | contradiction]. Qed.

Lemma Rltb_intro_false (a b : R) : (b <= a)%R -> Rltb a b = false.
Proof. unfold Rltb. destruct (Rlt_dec a b); [lra | reflexivity]. Qed.

(** The particle of [speck] is ten units from the first sphere and at the
    centre of the last: the pass lifts it to [(0, 1, 0)], on the surface. *)
Example speck_projected :
  exists p',
    particles (handleCollisions speck) = [p'] /\
    Particle.position p' = Vec3.mk 0%R 1%R 0%R /\
    Particle.active p' = true /\ above_ground p' = true /\
    outside p' ball_near = true.
Proof.
  set (p0 := Particle_new (splat (ofZ 0 : R))).
  assert (Dfar : length3 (vsub (Particle.position p0)
                            (CollisionSphere.center ball_far)) = 10%R).
  { unfold length3, dot, vmul, vsub. cbn.
    replace ((0 - 10) * (0 - 10) + (0 - 0) * (0 - 0) + (0 - 0) * (0 - 0))%R
      with (10 * 10)%R by ring.
    apply sqrt_square. lra. }
  assert (Dnear : length3 (vsub (Particle.position p0)
                             (CollisionSphere.center ball_near)) = 0%R).
  { unfold length3, dot, vmul, vsub. cbn.
    replace ((0 - 0) * (0 - 0) + (0 - 0) * (0 - 0) + (0 - 0) * (0 - 0))%R
      with 0%R by ring.
    apply sqrt_0. }
  assert (Efar : collide_sphere p0 ball_far = p0).
  { apply collide_sphere_miss. unfold penetrates. rewrite Dfar.
    apply Rltb_intro_false. cbn. lra. }
  assert (Enear : Particle.position (collide_sphere p0 ball_near)
                  = Vec3.mk 0%R 1%R 0%R).
  { rewrite collide_sphere_hit.
    - unfold surface_point, contact_normal. rewrite Dnear.
      replace (fltb (lit 1 1000000) 0%R) with false
        by (symmetry; apply Rltb_intro_false; unfold lit; cbn; lra).
      unfold vadd, vscale. cbn. f_equal; ring.
    - unfold penetrates. rewrite Dnear. apply Rltb_intro. cbn. lra. }
  exists (collide [ball_far; ball_near] p0).
  assert (Ec : collide [ball_far; ball_near] p0
               = collide_sphere p0 ball_near).
  { unfold collide. cbn [Particle.active p0 Particle_new negb fold_left].
    rewrite Efar. apply collide_ground_above. unfold below_ground.
    rewrite Enear. apply Rltb_intro_false. cbn. lra. }
  split; [reflexivity|]. rewrite Ec. split; [exact Enear|].
  split.
  - unfold collide_sphere. destruct fltb; reflexivity.
  - split.
    + unfold above_ground. rewrite Enear. apply Rltb_intro. cbn. lra.
    + apply collide_sphere_outside.
Qed.

(** ** The theorems at concrete inputs *)

Lemma construction_unchecked_witness :
  (0 <= 1)%Z /\ (0 <= 0)%Z /\
  exists c,
    ClothSystem_new fresh_statics 1 0 (ofZ 1) (ofZ 1) = Ok c /\
    gridWidth c = 1%Z /\ gridHeight c = 0%Z /\
    Z.of_nat (length (particles c)) = (1 * 0)%Z.
Proof.
  split; [lia|]. split; [lia|].
  apply (construction_unchecked fresh_statics 1 0 (ofZ 1) (ofZ 1)); lia.
Defined.

Lemma tearing_monotone_witness :
  forallb (fun k => negb (rebuilds k)) later_calls = true /\
  run later_calls torn22 = Ok torn22_later /\
  length (springs torn22_later) = length (springs torn22) /\
  (forall i sp, springs torn22 !! i = Some sp -> Spring.active sp = false ->
     springs torn22_later !! i = Some sp) /\
  (forall c'',
     reset torn22_later = Ok c'' \/
     (exists mode, setMode mode torn22_later = Ok c'') ->
     Forall (fun sp => Spring.active sp = true) (springs c'')).
Proof.
  assert (H1 : forallb (fun k => negb (rebuilds k)) later_calls = true)
    by reflexivity.
  assert (H2 : run later_calls torn22 = Ok torn22_later)
    by (vm_compute; reflexivity).
  split; [exact H1|]. split; [exact H2|].
  exact (tearing_monotone later_calls torn22 torn22_later H1 H2).
Defined.

Lemma grid_sizes_witness :
  (2 <= 3)%Z /\ (2 <= 2)%Z /\
  (forall (st : Statics.t float32) w h,
     exists c, ClothSystem_new st 3 2 w h = Ok c /\ grid_counts 3 2 c) /\
  (forall c0 : ClothSystem float32, gridWidth c0 = 3%Z -> gridHeight c0 = 2%Z ->
     exists c, reset c0 = Ok c /\ grid_counts 3 2 c).
Proof.
  split; [lia|]. split; [lia|]. apply (grid_sizes 3 2); lia.
Defined.

Lemma rest_lengths_initial_witness :
  ClothSystem_new fresh_statics 2 2 (ofZ 1) (ofZ 1) = Ok cloth22 /\
  Forall (fun sp =>
            exists p1 p2,
              vec_at (particles cloth22) (Spring.particle1 sp) = Ok p1 /\
              vec_at (particles cloth22) (Spring.particle2 sp) = Ok p2 /\
              Spring.restLength sp
              = length3 (vsub (Particle.position p2) (Particle.position p1)))
         (springs cloth22).
Proof.
  assert (E : ClothSystem_new fresh_statics 2 2 (ofZ 1) (ofZ 1) = Ok cloth22)
    by (vm_compute; reflexivity).
  split; [exact E|]. apply rest_lengths_initial. left.
  exists fresh_statics, 2%Z, 2%Z, (ofZ 1), (ofZ 1). exact E.
Defined.

Lemma mesh_consistency_witness :
  grid_ok torn33 /\
  (exists c', updateVertexData torn33 = Ok c' /\
              particles c' = particles torn33 /\ mesh_consistent c') /\
  (forall fuel dt c', update fuel dt torn33 = Ok c' -> mesh_consistent c') /\
  (exists c', reset torn33 = Ok c' /\ mesh_consistent c') /\
  (forall (ps : list (Particle.t float32)) W y x,
     is_active ps (y * W + x) && is_active ps (y * W + (x + 1)) &&
     is_active ps ((y + 1) * W + x) && is_active ps ((y + 1) * W + (x + 1))
     = false ->
     quad_triangles ps W (y, x) = []).
Proof.
  assert (Hok : grid_ok torn33).
  { unfold grid_ok. simpl. split; [lia|]. split; [lia|]. reflexivity. }
  split; [exact Hok|]. exact (mesh_consistency torn33 Hok).
Defined.

Lemma reset_idempotent_witness :
  reset torn22 = Ok cloth22 /\
  reset cloth22 = Ok cloth22 /\
  Forall (fun p => Particle.active p = true) (particles cloth22) /\
  Forall (fun sp => Spring.active sp = true) (springs cloth22) /\
  particles cloth22 = grid_particles torn22 /\
  grid_springs (grid_particles torn22) (gridWidth torn22) (gridHeight torn22)
  = Ok (springs cloth22) /\
  (forall st, exists cn,
     ClothSystem_new st (gridWidth torn22) (gridHeight torn22)
       (clothWidth torn22) (clothHeight torn22) = Ok cn /\
     particles cloth22 = particles cn /\ springs cloth22 = springs cn /\
     vertices cloth22 = vertices cn /\ indices cloth22 = indices cn).
Proof.
  assert (E : reset torn22 = Ok cloth22) by (vm_compute; reflexivity).
  split; [exact E|].
  exact (proj1 (proj2 (reset_idempotent torn22)) cloth22 E).
Defined.

Lemma velocity_never_written_witness :
  reachable torn22 /\
  (forall x : float32, fsub x (ofZ 0) = x) /\
  velocities_zero (particles torn22) /\
  (forall p wind, In p (particles torn22) -> relativeVelocity wind p = wind).
Proof.
  assert (Hr : reachable torn22).
  { apply (reach_call
             (HandleMouseInteraction (Vec3.mk (lit (-1) 2) (ofZ 0) (ofZ 0))
                true) cloth22).
    - apply (reach_new fresh_statics 2 2 (ofZ 1) (ofZ 1)).
      vm_compute. reflexivity.
    - vm_compute. reflexivity. }
  assert (Hs : forall x : float32, fsub x (ofZ 0) = x).
  { intros [[]|[]| |[] m e]; reflexivity. }
  split; [exact Hr|]. split; [exact Hs|].
  exact (velocity_never_written torn22 Hr Hs).
Defined.

Lemma update_writes_no_parameter_witness :
  update 1 (lit 1 60) hit22 = Ok hit22_after /\
  params hit22_after = params hit22 /\
  map flags (particles hit22_after) = map flags (particles hit22) /\
  same_grid hit22 hit22_after /\
  length (springs hit22_after) = length (springs hit22) /\
  map CollisionSphere.radius (spheres hit22_after)
  = map CollisionSphere.radius (spheres hit22) /\
  tail (spheres hit22_after) = tail (spheres hit22).
Proof.
  assert (E : update 1 (lit 1 60) hit22 = Ok hit22_after)
    by (vm_compute; reflexivity).
  split; [exact E|].
  exact (update_writes_no_parameter 1 (lit 1 60) hit22 hit22_after E).
Defined.

Lemma inactive_particles_frozen_witness :
  forallb (fun k => negb (rebuilds k)) later_calls = true /\
  run later_calls torn22 = Ok torn22_later /\
  (forall (i : nat) p,
     particles torn22 !! i = Some p -> Particle.active p = false ->
     particles torn22_later !! i = Some p) /\
  (forall j, is_active (particles torn22_later) j = true ->
             is_active (particles torn22) j = true).
Proof.
  assert (H1 : forallb (fun k => negb (rebuilds k)) later_calls = true)
    by reflexivity.
  assert (H2 : run later_calls torn22 = Ok torn22_later)
    by (vm_compute; reflexivity).
  split; [exact H1|]. split; [exact H2|].
  exact (inactive_particles_frozen later_calls torn22 torn22_later H1 H2).
Defined.

Lemma topology_invariant_witness :
  reachable torn22_later /\
  springs_ok torn22_later /\ ends_ordered torn22_later /\
  ((0 <= gridWidth torn22_later)%Z -> (0 <= gridHeight torn22_later)%Z ->
   Z.of_nat (length (particles torn22_later))
   = (gridWidth torn22_later * gridHeight torn22_later)%Z).
Proof.
  assert (Hr : reachable torn22_later).
  { apply (reach_call (HandleMouseInteraction (splat (ofZ 9)) true)
             (get (run (removelast later_calls) torn22)));
      [|vm_compute; reflexivity].
    apply (reach_call (Update 1 (lit 1 60))
             (get (run (firstn 3 later_calls) torn22)));
      [|vm_compute; reflexivity].
    apply (reach_call (SetGravity (ofZ (-20)))
             (get (run (firstn 2 later_calls) torn22)));
      [|vm_compute; reflexivity].
    apply (reach_call (SetTearThreshold (lit 1 2))
             (get (run (firstn 1 later_calls) torn22)));
      [|vm_compute; reflexivity].
    apply (reach_call (Update 1 (lit 1 60)) torn22);
      [|vm_compute; reflexivity].
    apply (reach_call
             (HandleMouseInteraction (Vec3.mk (lit (-1) 2) (ofZ 0) (ofZ 0))
                true) cloth22); [|vm_compute; reflexivity].
    apply (reach_new fresh_statics 2 2 (ofZ 1) (ofZ 1)).
    vm_compute. reflexivity. }
  split; [exact Hr|]. exact (topology_invariant torn22_later Hr).
Defined.

Lemma no_dangling_springs_witness :
  reachable torn22 /\ no_dangling torn22.
Proof.
  assert (Hr : reachable torn22).
  { apply (reach_call
             (HandleMouseInteraction (Vec3.mk (lit (-1) 2) (ofZ 0) (ofZ 0))
                true) cloth22).
    - apply (reach_new fresh_statics 2 2 (ofZ 1) (ofZ 1)).
      vm_compute. reflexivity.
    - vm_compute. reflexivity. }
  split; [exact Hr|]. exact (no_dangling_springs torn22 Hr).
Defined.

Lemma mesh_sizes_witness :
  grid_ok torn33 /\
  (exists c', updateVertexData torn33 = Ok c' /\ mesh_sized c') /\
  (forall fuel dt c', update fuel dt torn33 = Ok c' -> mesh_sized c').
Proof.
  assert (Hok : grid_ok torn33).
  { unfold grid_ok. simpl. split; [lia|]. split; [lia|]. reflexivity. }
  split; [exact Hok|]. exact (mesh_sizes torn33 Hok).
Defined.

Lemma fresh_mesh_sizes_witness :
  (1 <= 3)%Z /\ (1 <= 2)%Z /\
  (forall (st : Statics.t float32) w h,
     exists c, ClothSystem_new st 3 2 w h = Ok c /\
               Z.of_nat (length (vertices c)) = (8 * (3 * 2))%Z /\
               Z.of_nat (length (indices c))
               = (3 * (2 * (3 - 1) * (2 - 1)))%Z) /\
  (forall c0 : ClothSystem float32,
     gridWidth c0 = 3%Z -> gridHeight c0 = 2%Z ->
     exists c, reset c0 = Ok c /\
               Z.of_nat (length (vertices c)) = (8 * (3 * 2))%Z /\
               Z.of_nat (length (indices c))
               = (3 * (2 * (3 - 1) * (2 - 1)))%Z).
Proof.
  split; [lia|]. split; [lia|]. apply (fresh_mesh_sizes 3 2); lia.
Defined.

Lemma setMode_postcondition_witness :
  (1 <= gridWidth hit22)%Z /\ (1 <= gridHeight hit22)%Z /\
  exists c',
    setMode COLLISION hit22 = Ok c' /\
    particles c' = grid_particles hit22 /\
    (forall y x, (0 <= y < gridHeight hit22)%Z ->
                 (0 <= x < gridWidth hit22)%Z ->
       exists p,
         vec_at (particles c') (y * gridWidth hit22 + x) = Ok p /\
         Particle.pinned p = (y =? gridHeight hit22 - 1)%Z /\
         Particle.active p = true /\
         Particle.oldPosition p = Particle.position p) /\
    Forall (fun sp => Spring.active sp = true) (springs c') /\
    spheres c' = mode_spheres COLLISION /\
    windStrength c' = mode_wind COLLISION.
Proof.
  assert (HW : (1 <= gridWidth hit22)%Z) by (simpl; lia).
  assert (HH : (1 <= gridHeight hit22)%Z) by (simpl; lia).
  split; [exact HW|]. split; [exact HH|].
  exact (setMode_postcondition COLLISION hit22 HW HH).
Defined.

Lemma setMode_on_empty_grid_witness :
  (0 <= gridWidth cloth10)%Z /\ (0 <= gridHeight cloth10)%Z /\
  (gridWidth cloth10 * gridHeight cloth10 = 0)%Z /\
  setMode COLLISION cloth10 = Fail OutOfRange /\
  ((1 <= gridWidth cloth10)%Z ->
   forall mode, setMode mode cloth10 = Fail OutOfRange).
Proof.
  assert (HW : (0 <= gridWidth cloth10)%Z) by (simpl; lia).
  assert (HH : (0 <= gridHeight cloth10)%Z) by (simpl; lia).
  assert (H0 : (gridWidth cloth10 * gridHeight cloth10 = 0)%Z)
    by reflexivity.
  split; [exact HW|]. split; [exact HH|]. split; [exact H0|].
  exact (setMode_on_empty_grid cloth10 HW HH H0).
Defined.

Lemma update_independent_of_generator_witness :
  fltb (ofZ 0) (windStrength cloth22) = false /\
  update 1 (lit 1 60) (with_draws (fun _ => ofZ 1) cloth22)
  = res_map (with_draws (fun _ => ofZ 1)) (update 1 (lit 1 60) cloth22) /\
  (forall c', update 1 (lit 1 60) cloth22 = Ok c' ->
     Statics.drawn (statics c') = Statics.drawn (statics cloth22)).
Proof.
  assert (Hw : fltb (ofZ 0) (windStrength cloth22) = false)
    by (vm_compute; reflexivity).
  split; [exact Hw|].
  exact (update_independent_of_generator (fun _ => ofZ 1) 1 (lit 1 60)
           cloth22 Hw).
Defined.

Lemma obstacle_start_captured_once_witness :
  exists s0,
    spheres hit22 = [s0] /\
    update 1 (lit 1 60) hit22 = Ok hit22_after /\
    run mode_calls hit22_after = Ok hit22_later /\
    Statics.startPos (statics hit22_later)
    = Some (match Statics.startPos (statics hit22) with
            | Some v => v
            | None => CollisionSphere.center s0
            end) /\
    (forall k c2, rebuilds k = true -> exec k hit22_later = Ok c2 ->
       statics c2 = statics hit22_later /\
       objectMoveTime c2 = objectMoveTime hit22_later).
Proof.
  eexists.
  assert (Es : spheres hit22 = [_]) by reflexivity.
  assert (E1 : update 1 (lit 1 60) hit22 = Ok hit22_after)
    by (vm_compute; reflexivity).
  assert (E2 : run mode_calls hit22_after = Ok hit22_later)
    by (vm_compute; reflexivity).
  split; [exact Es|]. split; [exact E1|]. split; [exact E2|].
  exact (obstacle_start_captured_once mode_calls 1 (lit 1 60) hit22
           hit22_after hit22_later _ [] Es E1 E2).
Defined.

Lemma update_short_frame_witness :
  grid_ok cloth22 /\
  fleb fixedTimeStep (fadd (elapsedTime cloth22) (lit 1 100)) = false /\
  exists c', update 0 (lit 1 100) cloth22 = Ok c' /\
             particles c' = particles cloth22 /\
             springs c' = springs cloth22 /\
             elapsedTime c' = fadd (elapsedTime cloth22) (lit 1 100).
Proof.
  assert (Hok : grid_ok cloth22).
  { unfold grid_ok. simpl. split; [lia|]. split; [lia|]. reflexivity. }
  assert (Hlt : fleb fixedTimeStep (fadd (elapsedTime cloth22) (lit 1 100))
                = false) by (vm_compute; reflexivity).
  split; [exact Hok|]. split; [exact Hlt|].
  exact (update_short_frame 0 (lit 1 100) cloth22 Hok Hlt).
Defined.

Lemma update_never_returns_witness :
  reachable cloth22 /\
  fleb fixedTimeStep (fadd (elapsedTime cloth22) (ofZ 16777216)) = true /\
  fsub (fadd (elapsedTime cloth22) (ofZ 16777216)) fixedTimeStep
  = fadd (elapsedTime cloth22) (ofZ 16777216) /\
  forall fuel, update fuel (ofZ 16777216) cloth22 = Fail OutOfFuel.
Proof.
  assert (Hr : reachable cloth22).
  { apply (reach_new fresh_statics 2 2 (ofZ 1) (ofZ 1)).
    vm_compute. reflexivity. }
  assert (Hge : fleb fixedTimeStep
                  (fadd (elapsedTime cloth22) (ofZ 16777216)) = true)
    by (vm_compute; reflexivity).
  assert (Hsub : fsub (fadd (elapsedTime cloth22) (ofZ 16777216))
                   fixedTimeStep
                 = fadd (elapsedTime cloth22) (ofZ 16777216))
    by (vm_compute; reflexivity).
  split; [exact Hr|]. split; [exact Hge|]. split; [exact Hsub|].
  exact (update_never_returns (ofZ 16777216) cloth22 Hr Hge Hsub).
Defined.

Lemma ground_plane_holds_witness :
  fltb (ofZ (-5)) (ofZ (-5) : float32) = false /\
  fleb fixedTimeStep (fadd (elapsedTime cloth22) (lit 1 60)) = true /\
  update 1 (lit 1 60) cloth22 = Ok cloth22_after /\
  grounded (particles (handleCollisions cloth22)) /\
  grounded (particles cloth22_after).
Proof.
  assert (Hirr : fltb (ofZ (-5)) (ofZ (-5) : float32) = false)
    by (vm_compute; reflexivity).
  assert (Hge : fleb fixedTimeStep (fadd (elapsedTime cloth22) (lit 1 60))
                = true) by (vm_compute; reflexivity).
  assert (E : update 1 (lit 1 60) cloth22 = Ok cloth22_after)
    by (vm_compute; reflexivity).
  split; [exact Hirr|]. split; [exact Hge|]. split; [exact E|].
  exact (ground_plane_holds 1 (lit 1 60) cloth22 cloth22_after Hirr Hge E).
Defined.

Lemma update_safe_reachable_witness :
  reachable torn33 /\
  (0 <= gridWidth torn33)%Z /\ (0 <= gridHeight torn33)%Z /\
  ((exists c', update 2 (lit 1 60) torn33 = Ok c') \/
   update 2 (lit 1 60) torn33 = Fail OutOfFuel).
Proof.
  assert (Hr : reachable torn33).
  { apply (reach_call
             (HandleMouseInteraction (Vec3.mk (ofZ 0) (lit 1 2) (ofZ 0)) true)
             (get (ClothSystem_new fresh_statics 3 3 (ofZ 1) (ofZ 1)))).
    - apply (reach_new fresh_statics 3 3 (ofZ 1) (ofZ 1)).
      vm_compute. reflexivity.
    - vm_compute. reflexivity. }
  assert (HW : (0 <= gridWidth torn33)%Z) by (simpl; lia).
  assert (HH : (0 <= gridHeight torn33)%Z) by (simpl; lia).
  split; [exact Hr|]. split; [exact HW|]. split; [exact HH|].
  exact (update_safe_reachable 2 (lit 1 60) torn33 Hr HW HH).
Defined.

Lemma pins_fixed_between_rebuilds_witness :
  forallb (fun k => negb (rebuilds k)) later_calls = true /\
  run later_calls torn22 = Ok torn22_later /\
  map Particle.pinned (particles torn22_later)
  = map Particle.pinned (particles torn22) /\
  map Particle.mass (particles torn22_later)
  = map Particle.mass (particles torn22).
Proof.
  assert (H1 : forallb (fun k => negb (rebuilds k)) later_calls = true)
    by reflexivity.
  assert (H2 : run later_calls torn22 = Ok torn22_later)
    by (vm_compute; reflexivity).
  split; [exact H1|]. split; [exact H2|].
  exact (pins_fixed_between_rebuilds later_calls torn22 torn22_later H1 H2).
Defined.

Lemma update_passes_witness :
  update 1 (lit 1 60) cloth22 = Ok cloth22_after /\
  fleb fixedTimeStep (elapsedTime cloth22_after) = false /\
  exists n, (n <= 1)%nat /\
    elapsedTime cloth22_after
    = after_passes n (fadd (elapsedTime cloth22) (lit 1 60)) /\
    forall k, (k < n)%nat ->
      fleb fixedTimeStep
        (after_passes k (fadd (elapsedTime cloth22) (lit 1 60))) = true.
Proof.
  assert (E : update 1 (lit 1 60) cloth22 = Ok cloth22_after)
    by (vm_compute; reflexivity).
  split; [exact E|].
  exact (update_passes 1 (lit 1 60) cloth22 cloth22_after E).
Defined.

Lemma rebuild_keeps_tuning_witness :
  exists c',
    rebuilds (@Reset float32) = true /\
    exec Reset hit22_after = Ok c' /\
    tuning c' = tuning hit22_after /\
    (@Reset float32 <> SetMode FLAG ->
     windDirection c' = windDirection hit22_after) /\
    (@Reset float32 = Reset ->
     spheres c' = spheres hit22_after /\
     windStrength c' = windStrength hit22_after).
Proof.
  eexists.
  assert (E : exec Reset hit22_after = Ok _) by (vm_compute; reflexivity).
  split; [reflexivity|]. split; [exact E|].
  exact (rebuild_keeps_tuning Reset hit22_after _ eq_refl E).
Defined.

Lemma pinned_particle_stays_witness :
  exists p,
    forallb quiet windy_calls = true /\
    spheres cloth22 = [] /\
    run windy_calls cloth22 = Ok cloth22_windy /\
    particles cloth22 !! 2%nat = Some p /\
    Particle.pinned p = true /\
    below_ground p = false /\
    particles cloth22_windy !! 2%nat = Some p.
Proof.
  eexists.
  assert (Hq : forallb quiet windy_calls = true) by reflexivity.
  assert (Es : spheres cloth22 = []) by reflexivity.
  assert (E : run windy_calls cloth22 = Ok cloth22_windy)
    by (vm_compute; reflexivity).
  assert (Ep : particles cloth22 !! 2%nat = Some _) by reflexivity.
  split; [exact Hq|]. split; [exact Es|]. split; [exact E|].
  split; [exact Ep|]. split; [reflexivity|]. split; [vm_compute; reflexivity|].
  exact (pinned_particle_stays windy_calls cloth22 cloth22_windy 2 _
           Hq Es E Ep eq_refl eq_refl).
Defined.

Lemma wind_direction_after_update_witness :
  exists c',
    update 1 (lit 1 60) cloth22_windy = Ok c' /\
    (fltb (windStrength cloth22_windy) (ofZ 1) = true ->
     windDirection c' = windDirection cloth22_windy /\
     windVariationTime c' = windVariationTime cloth22_windy) /\
    (fltb (windStrength cloth22_windy) (ofZ 1) = false ->
     forall v fuel2 c2',
       update fuel2 (lit 1 60) (setWindDirection v cloth22_windy) = Ok c2' ->
       windDirection c2' = windDirection c').
Proof.
  eexists.
  assert (E : update 1 (lit 1 60) cloth22_windy = Ok _)
    by (vm_compute; reflexivity).
  split; [exact E|].
  exact (wind_direction_after_update 1 (lit 1 60) cloth22_windy _ E).
Defined.

Lemma update_keeps_index_buffer_witness :
  exists c' c0,
    grid_ok brittle22 /\
    update 1 (lit 1 60) brittle22 = Ok c' /\
    updateVertexData brittle22 = Ok c0 /\
    indices c' = indices c0.
Proof.
  eexists. eexists.
  assert (Hok : grid_ok brittle22).
  { unfold grid_ok. simpl. split; [lia|]. split; [lia|]. reflexivity. }
  assert (E : update 1 (lit 1 60) brittle22 = Ok _)
    by (vm_compute; reflexivity).
  assert (E0 : updateVertexData brittle22 = Ok _)
    by (vm_compute; reflexivity).
  split; [exact Hok|]. split; [exact E|]. split; [exact E0|].
  exact (update_keeps_index_buffer 1 (lit 1 60) brittle22 _ _ Hok E E0).
Defined.

Lemma springs_well_shaped_witness :
  reachable torn22 /\ well_shaped torn22.
Proof.
  assert (Hr : reachable torn22).
  { apply (reach_call
             (HandleMouseInteraction (Vec3.mk (lit (-1) 2) (ofZ 0) (ofZ 0))
                true) cloth22).
    - apply (reach_new fresh_statics 2 2 (ofZ 1) (ofZ 1)).
      vm_compute. reflexivity.
    - vm_compute. reflexivity. }
  split; [exact Hr|]. exact (springs_well_shaped torn22 Hr).
Defined.

Lemma time_poisoned_witness :
  grid_ok poisoned22 /\
  (forall x : float32, fadd (elapsedTime poisoned22) x
                       = elapsedTime poisoned22) /\
  fleb fixedTimeStep (elapsedTime poisoned22) = false /\
  frames three_frames = true /\
  exists c', run three_frames poisoned22 = Ok c' /\
             particles c' = particles poisoned22 /\
             springs c' = springs poisoned22 /\
             elapsedTime c' = elapsedTime poisoned22.
Proof.
  assert (Hok : grid_ok poisoned22).
  { unfold grid_ok. simpl. split; [lia|]. split; [lia|]. reflexivity. }
  assert (Habs : forall x : float32,
             fadd (elapsedTime poisoned22) x = elapsedTime poisoned22).
  { intros [[]|[]| |[] m e]; reflexivity. }
  assert (Hlt : fleb fixedTimeStep (elapsedTime poisoned22) = false)
    by (vm_compute; reflexivity).
  assert (Hf : frames three_frames = true) by reflexivity.
  split; [exact Hok|]. split; [exact Habs|]. split; [exact Hlt|].
  split; [exact Hf|].
  exact (time_poisoned three_frames poisoned22 Hok Habs Hlt Hf).
Defined.

